(** * Config: the expression evaluator of the configuration loader

    A shallow embedding of [lib/Config.ts] (with [lib/Throwable.ts]) and the
    properties of its block scanner, logic evaluator, variable resolver, memo
    cache and facade.

    Modelling conventions.
    - A JavaScript string is a [string]; a character is a code unit below 256.
    - Regular expressions of the source are written as terms of [regex] and run
      by a backtracking matcher that follows the priority order of the
      ECMAScript matcher (greedy and lazy quantifiers, alternation order,
      capture groups, back references, negative lookahead).
    - Objects and arrays live in a store ([heap]) and are passed by reference,
      so that two names of one object see each other's writes.
    - Primitives of the host that are not code of the repository (number
      parsing and printing, [JSON.parse], [JSON.stringify], [Bun.hash],
      [Bun.env]) are fields of a [Runtime] record; every general theorem holds
      for every runtime.
    - Property access follows own data properties of objects and index
      properties of arrays; a primitive has no property in this model, and
      inherited members are outside it.
    - Recursion of the evaluator is bounded by a fuel argument; running out of
      fuel is the outcome [OutOfFuel], which stands for stack exhaustion. *)

From Stdlib Require Import String Ascii List ZArith Bool Lia.
From stdpp Require Import base option list gmap strings.

Set Warnings "-register-all".

Local Open Scope string_scope.
Local Open Scope Z_scope.
Local Open Scope list_scope.

(** ** JavaScript strings *)

Module JsString.

Definition chars (s : string) : list ascii := list_ascii_of_string s.
Definition str (l : list ascii) : string := string_of_list_ascii l.

Definition code (c : ascii) : N := N_of_ascii c.

(** [WhiteSpace] and [LineTerminator] code units below 256: what [\s]
    matches and what [trim] strips. *)
Definition isSpace (c : ascii) : bool :=
  let n := code c in
  ((9 <=? n) && (n <=? 13) || (n =? 32) || (n =? 160))%N.

(** Line terminators below 256: what [.] does not match. *)
Definition isLineTerminator (c : ascii) : bool :=
  let n := code c in ((n =? 10) || (n =? 13))%N.

Definition lowerChar (c : ascii) : ascii :=
  let n := code c in
  if ((65 <=? n) && (n <=? 90) || (192 <=? n) && (n <=? 222) && negb (n =? 215))%N
  then ascii_of_N (n + 32) else c.

Definition toLowerCase (s : string) : string := str (map lowerChar (chars s)).

Fixpoint trimStartL (l : list ascii) : list ascii :=
  match l with
  | c :: l' => if isSpace c then trimStartL l' else l
  | [] => []
  end.
Definition trimEndL (l : list ascii) : list ascii := rev (trimStartL (rev l)).
Definition trimL (l : list ascii) : list ascii := trimEndL (trimStartL l).

Definition trim (s : string) : string := str (trimL (chars s)).
Definition trimEnd (s : string) : string := str (trimEndL (chars s)).

Definition len (s : string) : Z := Z.of_nat (String.length s).

Fixpoint prefixL (p l : list ascii) : bool :=
  match p, l with
  | [], _ => true
  | a :: p', b :: l' => Ascii.eqb a b && prefixL p' l'
  | _ :: _, [] => false
  end.

Definition startsWith (s p : string) : bool := prefixL (chars p) (chars s).
Definition endsWith (s p : string) : bool := prefixL (rev (chars p)) (rev (chars s)).

Fixpoint includesL (l p : list ascii) : bool :=
  prefixL p l || match l with [] => false | _ :: l' => includesL l' p end.

Definition includes (s p : string) : bool := includesL (chars s) (chars p).

(** A relative index of [slice]: negative counts from the end, the result
    is clamped to the string. *)
Definition clampIndex (n i : Z) : nat :=
  Z.to_nat (if i <? 0 then Z.max (n + i) 0 else Z.min i n).

Definition sliceL (l : list ascii) (a : Z) (b : option Z) : list ascii :=
  let n := Z.of_nat (length l) in
  let from := clampIndex n a in
  let to := match b with Some b => clampIndex n b | None => length l end in
  take (to - from) (drop from l).

(** [s.slice(a, b)] and [s.slice(a)]. *)
Definition slice (s : string) (a b : Z) : string := str (sliceL (chars s) a (Some b)).
Definition sliceFrom (s : string) (a : Z) : string := str (sliceL (chars s) a None).

(** [s[i]]: [None] is [undefined]. *)
Definition charAt (s : string) (i : Z) : option ascii :=
  if i <? 0 then None else chars s !! Z.to_nat i.

(** [s.split(sep)] for a one-character separator. *)
Fixpoint splitL (sep : ascii) (cur : list ascii) (l : list ascii) : list (list ascii) :=
  match l with
  | [] => [rev cur]
  | c :: l' => if Ascii.eqb c sep then rev cur :: splitL sep [] l'
               else splitL sep (c :: cur) l'
  end.

Definition split (sep : ascii) (s : string) : list string :=
  map str (splitL sep [] (chars s)).

Fixpoint join (sep : string) (l : list string) : string :=
  match l with
  | [] => ""
  | [x] => x
  | x :: l' => x +:+ sep +:+ join sep l'
  end.

(** [s.split(/\r?\n/)]. *)
Fixpoint splitLinesL (cur : list ascii) (l : list ascii) : list (list ascii) :=
  match l with
  | [] => [rev cur]
  | c :: l' =>
      if (code c =? 10)%N then rev cur :: splitLinesL [] l'
      else if (code c =? 13)%N then
        match l' with
        | d :: l'' => if (code d =? 10)%N then rev cur :: splitLinesL [] l''
                      else splitLinesL (c :: cur) l'
        | [] => splitLinesL (c :: cur) l'
        end
      else splitLinesL (c :: cur) l'
  end.

Definition splitLines (s : string) : list string := map str (splitLinesL [] (chars s)).

Definition quote : ascii := ascii_of_N 34.
Definition apostrophe : ascii := ascii_of_N 39.
Definition q : string := String quote EmptyString.

End JsString.
Import JsString.

(** ** Regular expressions

    The matcher is written in continuation-passing style: [rmatch r k s c]
    matches [r] at the front of [s] and hands the rest to [k]; a [None] from
    [k] makes the matcher try its next choice, in the order of the ECMAScript
    matcher. *)

Module Regex.

Inductive regex : Type :=
| REmpty
| RChar (p : ascii -> bool)           (* one character of a class *)
| RSeq (r1 r2 : regex)
| RAlt (r1 r2 : regex)                (* r1|r2, r1 tried first *)
| RStar (greedy : bool) (r : regex)   (* r* and r*? *)
| RGroup (n : nat) (r : regex)        (* capture group number n *)
| RBackref (n : nat)                  (* \n *)
| RBegin                              (* ^ without the m flag *)
| REnd                                (* $ without the m flag *)
| RNotAhead (r : regex).              (* (?!r) *)

(** Captures, by group number; group 0 is the whole match. *)
Definition caps := list (option (list ascii)).
Definition mresult := option (list ascii * caps).
Definition cont := list ascii -> caps -> mresult.

Definition orElse (a : mresult) (b : unit -> mresult) : mresult :=
  match a with Some x => Some x | None => b tt end.

(** The iterations of a star: [step k] matches the body once and goes on
    with [k]. A turn that matches nothing is refused, so [n], the number of
    characters left, bounds the turns. *)
Fixpoint starLoop (step : cont -> cont) (k : cont) (greedy : bool) (n : nat)
         (s : list ascii) (c : caps) {struct n} : mresult :=
  match n with
  | O => k s c
  | S n' =>
      let again (_ : unit) :=
        step (fun s' c' =>
                if (length s' <? length s)%nat then starLoop step k greedy n' s' c'
                else None) s c in
      if greedy then orElse (again tt) (fun _ => k s c)
      else orElse (k s c) again
  end.

Section Matcher.
(** Length of the whole input: [^] matches where all of it is left. *)
Variable whole : nat.

Fixpoint rmatch (r : regex) (k : cont) (s : list ascii) (c : caps) {struct r} : mresult :=
  match r with
  | REmpty => k s c
  | RChar p =>
      match s with
      | a :: s' => if p a then k s' c else None
      | [] => None
      end
  | RSeq r1 r2 => rmatch r1 (rmatch r2 k) s c
  | RAlt r1 r2 => orElse (rmatch r1 k s c) (fun _ => rmatch r2 k s c)
  | RStar greedy r' => starLoop (rmatch r') k greedy (length s) s c
  | RGroup n r' =>
      rmatch r' (fun s' c' =>
        k s' (<[n := Some (take (length s - length s') s)]> c')) s c
  | RBackref n =>
      match c !! n with
      | Some (Some w) => if prefixL w s then k (drop (length w) s) c else None
      | _ => k s c
      end
  | RBegin => if (length s =? whole)%nat then k s c else None
  | REnd => match s with [] => k s c | _ => None end
  | RNotAhead r' =>
      match rmatch r' (fun s' c' => Some (s', c')) s c with
      | Some _ => None
      | None => k s c
      end
  end.
End Matcher.

Definition rseq (l : list regex) : regex := foldr RSeq REmpty l.
Definition ralt (l : list regex) : regex :=
  match l with
  | [] => REmpty
  | r :: l' => foldl RAlt r l'
  end.
Definition rplus (greedy : bool) (r : regex) : regex := RSeq r (RStar greedy r).
Definition ropt (r : regex) : regex := RAlt r REmpty.

Definition isChar (a : ascii) : ascii -> bool := Ascii.eqb a.
Definition lit (a : ascii) : regex := RChar (isChar a).
Definition lits (s : string) : regex := rseq (map lit (chars s)).
(** A letter under the [i] flag. *)
Definition liti (a : ascii) : regex := RChar (fun c => Ascii.eqb (lowerChar c) (lowerChar a)).
Definition litsi (s : string) : regex := rseq (map liti (chars s)).

Definition any : ascii -> bool := fun _ => true.                  (* [\s\S] *)
Definition dot : ascii -> bool := fun c => negb (isLineTerminator c).  (* . *)
Definition space : ascii -> bool := isSpace.                       (* \s *)
Definition nonspace : ascii -> bool := fun c => negb (isSpace c).  (* [^\s] *)
Definition between (lo hi : N) (c : ascii) : bool := ((lo <=? code c) && (code c <=? hi))%N.
Definition alpha (c : ascii) : bool := between 65 90 c || between 97 122 c.
Definition digit (c : ascii) : bool := between 48 57 c.

(** One match: where it starts, the matched text, the groups, the rest. *)
Record rmatched := { m_index : nat; m_text : string; m_groups : list (option string); m_rest : list ascii }.

Definition groupStr (c : caps) (n : nat) : option string :=
  match c !! n with Some (Some w) => Some (str w) | _ => None end.

(** The match of [r] that starts at the front of [s], the rest of an input
    of length [whole]. *)
Definition matchHere (ngroups : nat) (whole : nat) (r : regex) (s : list ascii) : mresult :=
  rmatch whole r (fun s' c' => Some (s', c')) s (replicate (S ngroups) None).

(** [RegExp.prototype.exec] from a position: the leftmost match. *)
Fixpoint execFrom (ngroups whole : nat) (r : regex) (s : list ascii) : option rmatched :=
  match matchHere ngroups whole r s with
  | Some (s', c) =>
      Some {| m_index := whole - length s;
              m_text := str (take (length s - length s') s);
              m_groups := map (fun w => str <$> w) (drop 1 c);
              m_rest := s' |}
  | None =>
      match s with
      | [] => None
      | _ :: s' => execFrom ngroups whole r s'
      end
  end.

(** [s.match(r)] for a regular expression without the [g] flag. *)
Definition exec (ngroups : nat) (r : regex) (s : string) : option rmatched :=
  execFrom ngroups (String.length s) r (chars s).

(** [r.test(s)]. *)
Definition test (r : regex) (s : string) : bool :=
  match exec 0 r s with Some _ => true | None => false end.

(** The [n]-th group of a match as the source reads it, [None] for an
    unmatched group. *)
Definition group (m : rmatched) (n : nat) : option string :=
  match n with
  | O => Some (m_text m)
  | S n' => match m_groups m !! n' with Some g => g | None => None end
  end.

(** The pieces of [s.replace(r, f)] with the [g] flag: the text before each
    match with the match, and the text after the last one. An empty match
    moves on by one character. *)
Fixpoint matchAllFrom (fuel : nat) (ngroups whole : nat) (r : regex) (s : list ascii)
  : list (string * rmatched) * string :=
  match fuel with
  | O => ([], str s)
  | S fuel' =>
      match execFrom ngroups whole r s with
      | None => ([], str s)
      | Some m =>
          let before := str (take (m_index m - (whole - length s)) s) in
          match m_text m, m_rest m with
          | EmptyString, [] => ([(before, m)], "")
          | EmptyString, a :: rest' =>
              let (ms, tl) := matchAllFrom fuel' ngroups whole r rest' in
              match ms with
              | [] => ([(before, m)], String a tl)
              | (b, m') :: ms' => ((before, m) :: (String a b, m') :: ms', tl)
              end
          | _, rest =>
              let (ms, tl) := matchAllFrom fuel' ngroups whole r rest in
              ((before, m) :: ms, tl)
          end
      end
  end.

Definition matchAll (ngroups : nat) (r : regex) (s : string) : list (string * rmatched) * string :=
  matchAllFrom (S (String.length s)) ngroups (String.length s) r (chars s).

(** [s.replace(r, f)] without the [g] flag, [f] a function of the match. *)
Definition replaceFirst (ngroups : nat) (r : regex) (s : string) (f : rmatched -> string) : string :=
  match exec ngroups r s with
  | None => s
  | Some m => str (take (m_index m) (chars s)) +:+ f m +:+ str (m_rest m)
  end.

End Regex.
Import Regex.

Arguments isChar : simpl never.

(** [s.replace(pat, '')] for a string pattern: the first occurrence goes. *)
Fixpoint removeFirstL (pat l : list ascii) : list ascii :=
  if prefixL pat l then drop (length pat) l
  else match l with
       | [] => []
       | a :: l' => a :: removeFirstL pat l'
       end.

Definition removeFirst (s pat : string) : string := str (removeFirstL (chars pat) (chars s)).

(** ** Values, the store and the host runtime *)

(** A value as a tree: the form in which a configuration tree is handed to the
    constructor, in which [JSON.parse] produces one and [JSON.stringify] reads
    one. *)
Inductive jsval (num : Type) : Type :=
| JUndef
| JNull
| JBool (b : bool)
| JNum (n : num)
| JStr (s : string)
| JArr (items : list (jsval num))
| JObj (fields : list (string * jsval num)).

Arguments JUndef {num}.
Arguments JNull {num}.
Arguments JBool {num} b.
Arguments JNum {num} n.
Arguments JStr {num} s.
Arguments JArr {num} items.
Arguments JObj {num} fields.

(** What the code takes from the host: numbers, JSON, the hash function and
    the process environment. *)
Class Runtime : Type := {
  num : Type;
  num_of_Z : Z -> num;                      (* an integer as a number *)
  num_nan : num;                            (* NaN *)
  Number_of_string : string -> num;         (* Number(s) *)
  num_to_string : num -> string;            (* String(n) *)
  num_isFinite : num -> bool;               (* Number.isFinite(n) *)
  num_eqb : num -> num -> bool;             (* a == b on numbers *)
  num_ltb : num -> num -> bool;             (* a < b *)
  num_leb : num -> num -> bool;             (* a <= b *)
  num_truthy : num -> bool;                 (* neither 0 nor NaN *)
  JSON_parse : string -> option (jsval num);    (* None: it throws *)
  JSON_stringify : jsval num -> string;     (* JSON.stringify(v, undefined, 2) *)
  Bun_hash : string -> N;                   (* Bun.hash(s) *)
  Bun_env : string -> option string         (* Bun.env[name] *)
}.

(** [n.toString(16)] of a non-negative integer. *)
Module Hex.
Definition digit (d : N) : ascii :=
  ascii_of_N (if (d <? 10)%N then 48 + d else 87 + d).


End Hex.

(** ** Errors: [lib/Throwable.ts] and the errors of the language *)

Record Throwable : Type := { name : string; message : string; hint : option string }.

(** [new Throwable(name, message, hint)]: a hint that is empty or blank is
    deleted. *)
Definition mkThrowable (name message : string) (hint : option string) : Throwable :=
  {| name := name;
     message := message;
     hint := match hint with
             | Some h => if String.eqb (trim h) "" then None else Some h
             | None => None
             end |}.

Inductive exn : Type :=
| EThrowable (t : Throwable)
| ETypeError (what : string)      (* a TypeError of the language *)
| EUnmodelled (what : string).    (* a write this model has no account of *)

Inductive outcome (A : Type) : Type :=
| Ret (a : A)
| Throw (e : exn)
| OutOfFuel.

Arguments Ret {A} a.
Arguments Throw {A} e.
Arguments OutOfFuel {A}.

Definition obind {A B : Type} (m : outcome A) (f : A -> outcome B) : outcome B :=
  match m with
  | Ret a => f a
  | Throw e => Throw e
  | OutOfFuel => OutOfFuel
  end.

Section Config.
Context {rt : Runtime}.

Abbreviation loc := nat.

(** A value as the program holds it: objects and arrays are references. *)
Inductive value : Type :=
| VUndef
| VNull
| VBool (b : bool)
| VNum (n : num)
| VStr (s : string)
| VRef (l : loc).

Inductive cell : Type :=
| CObj (fields : list (string * value))
| CArr (items : list value).

Abbreviation heap := (list cell).

Definition alloc (h : heap) (c : cell) : value * heap := (VRef (length h), h ++ [c]).

(** *** Properties *)

Fixpoint assoc (k : string) (fields : list (string * value)) : option value :=
  match fields with
  | [] => None
  | (k', v) :: fields' => if String.eqb k k' then Some v else assoc k fields'
  end.

Fixpoint assocSet (k : string) (v : value) (fields : list (string * value)) : list (string * value) :=
  match fields with
  | [] => [(k, v)]
  | (k', v') :: fields' =>
      if String.eqb k k' then (k', v) :: fields' else (k', v') :: assocSet k v fields'
  end.

(** A canonical array index: decimal digits with no leading zero. *)
Fixpoint digitsL (l : list ascii) (acc : nat) : option nat :=
  match l with
  | [] => Some acc
  | c :: l' => if digit c then digitsL l' (10 * acc + (N.to_nat (code c) - 48))%nat else None
  end.

Definition arrayIndex (k : string) : option nat :=
  match chars k with
  | [] => None
  | [c] => digitsL [c] 0
  | c :: l => if (code c =? 48)%N then None else digitsL (c :: l) 0
  end.

(** [obj?.[key]] and [obj[key]]. *)
Definition getProp (h : heap) (obj : value) (key : string) : value :=
  match obj with
  | VRef l =>
      match h !! l with
      | Some (CObj fields) => default VUndef (assoc key fields)
      | Some (CArr items) =>
          if String.eqb key "length" then VNum (num_of_Z (Z.of_nat (length items)))
          else match arrayIndex key with
               | Some i => default VUndef (items !! i)
               | None => VUndef
               end
      | None => VUndef
      end
  | _ => VUndef
  end.

(** [obj[key] = v] in strict mode. *)
Definition setProp (h : heap) (obj : value) (key : string) (v : value) : outcome heap :=
  match obj with
  | VRef l =>
      match h !! l with
      | Some (CObj fields) => Ret (<[l := CObj (assocSet key v fields)]> h)
      | Some (CArr items) =>
          match arrayIndex key with
          | Some i =>
              if (i <? length items)%nat then Ret (<[l := CArr (<[i := v]> items)]> h)
              else if (i =? length items)%nat then Ret (<[l := CArr (items ++ [v])]> h)
              else Throw (EUnmodelled "array write past the end")
          | None => Throw (EUnmodelled "named property of an array")
          end
      | None => Throw (EUnmodelled "dangling reference")
      end
  | _ => Throw (ETypeError "cannot create a property on a primitive")
  end.

(** [!v] is [negb (truthy v)]. *)
Definition truthy (v : value) : bool :=
  match v with
  | VUndef | VNull => false
  | VBool b => b
  | VNum n => num_truthy n
  | VStr s => negb (String.eqb s "")
  | VRef _ => true
  end.

(** *** Trees in and out of the store *)

Fixpoint store (t : jsval num) (h : heap) {struct t} : value * heap :=
  match t with
  | JUndef => (VUndef, h)
  | JNull => (VNull, h)
  | JBool b => (VBool b, h)
  | JNum n => (VNum n, h)
  | JStr s => (VStr s, h)
  | JArr items =>
      let '(vs, h') :=
        (fix go (l : list (jsval num)) (h : heap) : list value * heap :=
           match l with
           | [] => ([], h)
           | t' :: l' =>
               let '(v, h1) := store t' h in
               let '(vs, h2) := go l' h1 in
               (v :: vs, h2)
           end) items h in
      alloc h' (CArr vs)
  | JObj fields =>
      let '(fs, h') :=
        (fix go (l : list (string * jsval num)) (h : heap) : list (string * value) * heap :=
           match l with
           | [] => ([], h)
           | (k, t') :: l' =>
               let '(v, h1) := store t' h in
               let '(fs, h2) := go l' h1 in
               ((k, v) :: fs, h2)
           end) fields h in
      alloc h' (CObj fs)
  end.


(** *** Conversions of the language *)

(** [String(v)]; an element of an array that is [null] or [undefined]
    prints as nothing. *)
Fixpoint toStr (fuel : nat) (h : heap) (v : value) : string :=
  match v with
  | VUndef => "undefined"
  | VNull => "null"
  | VBool b => if b then "true" else "false"
  | VNum n => num_to_string n
  | VStr s => s
  | VRef l =>
      match fuel with
      | O => ""
      | S fuel' =>
          match h !! l with
          | Some (CArr items) =>
              join "," (map (fun v => match v with
                                      | VUndef | VNull => ""
                                      | _ => toStr fuel' h v
                                      end) items)
          | _ => "[object Object]"
          end
      end
  end.

Definition String_ (h : heap) (v : value) : string := toStr (S (length h)) h v.

(** [Number(v)]. *)
Definition Number_ (h : heap) (v : value) : num :=
  match v with
  | VUndef => num_nan
  | VNull => num_of_Z 0
  | VBool b => num_of_Z (if b then 1 else 0)
  | VNum n => n
  | VStr s => Number_of_string s
  | VRef _ => Number_of_string (String_ h v)
  end.

(** [a == b]. *)
Definition looseEq (h : heap) (a b : value) : bool :=
  match a, b with
  | VUndef, (VUndef | VNull) | VNull, (VUndef | VNull) => true
  | VUndef, _ | VNull, _ | _, VUndef | _, VNull => false
  | VStr x, VStr y => String.eqb x y
  | VRef x, VRef y => (x =? y)%nat
  | VBool x, VBool y => Bool.eqb x y
  | VStr x, VRef _ => String.eqb x (String_ h b)
  | VRef _, VStr y => String.eqb (String_ h a) y
  | _, _ => num_eqb (Number_ h a) (Number_ h b)
  end.

(** ** Utils *)

(** [Utils.ensureObject(val, fallback)]. *)
Definition ensureObject (val fallback : value) : value :=
  match val with
  | VRef _ => val
  | _ => fallback
  end.

(** The regular expressions of the source are quoted in comments with
    [{0,}] for the star, [Q] for the class of the apostrophe and the double
    quote.

    [/^\((.{0,})\)$/] *)
Definition re_parens : regex :=
  rseq [RBegin; lit "("; RGroup 1 (RStar true (RChar dot)); lit ")"; REnd].

(** [/^([Q])(.{0,})\1$/] *)
Definition re_quotes : regex :=
  rseq [RBegin; RGroup 1 (RChar (fun c => isChar apostrophe c || isChar quote c));
        RGroup 2 (RStar true (RChar dot)); RBackref 1; REnd].

(** The replacement patterns ['$1'] and ['$2']. *)
Definition dollar (n : nat) (m : rmatched) : string := default "" (group m n).

(** [Utils.trimParens] on a string. *)
Definition trimParensS (s : string) : string := trim (replaceFirst 1 re_parens s (dollar 1)).

(** [Utils.trimQuotes] on a string. *)
Definition trimQuotesS (s : string) : string := trim (replaceFirst 2 re_quotes s (dollar 2)).

(** [Utils.trimParens(str)]: anything but a string is returned as it is. *)
Definition trimParens (v : value) : value :=
  match v with
  | VStr s => VStr (trimParensS s)
  | _ => v
  end.

(** [Utils.trimQuotes(str)]: anything but a string is returned as it is. *)
Definition trimQuotes (v : value) : value :=
  match v with
  | VStr s => VStr (trimQuotesS s)
  | _ => v
  end.

(** The loop of [Utils.findBalancedParenBlock], at index [i] with the rest
    of the string from there. [block] is kept in reverse. *)
Fixpoint scanBlock (rest : list ascii) (i : nat) (depth : Z) (started : bool)
         (block : list ascii) : list ascii * nat :=
  match rest with
  | [] => (rev block, S i)
  | char :: rest' =>
      let depth1 := if isChar "(" char then depth + 1 else depth in
      let started1 := if isChar "(" char then true else started in
      let depth2 := if isChar ")" char then depth1 - 1 else depth1 in
      let block1 := char :: block in
      if started1 && (depth2 =? 0) then (rev block1, S i)
      else scanBlock rest' (S i) depth2 started1 block1
  end.

(** [Utils.findBalancedParenBlock(str, startIdx)], for a start index that
    is a natural number (the callers pass a length and 0). *)
Definition findBalancedParenBlock (s : string) (startIdx : nat) : string * nat :=
  let '(block, next) := scanBlock (drop startIdx (chars s)) startIdx 0 false [] in
  (str block, next).

(** ** The Config instance *)

(** The private state of an instance: the store its objects live in, the
    configuration tree [#config], the memo cache [#bank] (a key bound to
    [VUndef] holds the sentinel) and [#dependencies]. [resolutions] is a
    ghost field: the paths for which [#resolveVariableChain] ran the
    underlying resolution, in the order it did. *)
Record Config : Type := {
  mem : heap;
  config : value;
  bank : gmap string value;
  dependencies : gmap string (gset string);
  resolutions : list string
}.

(** [new Config(tree)]: a tree that is no object is replaced by [{}]. *)
Definition newConfig (tree : jsval num) : Config :=
  let '(v, h) := store tree [] in
  let '(root, h') := match ensureObject v VUndef with
                     | VUndef => alloc h (CObj [])
                     | r => (r, h)
                     end in
  {| mem := h'; config := root; bank := ∅; dependencies := ∅; resolutions := [] |}.

(** [#resolveConfigPath(path)]. *)
Definition resolveConfigPath (this : Config) (path : string) : value :=
  if String.eqb (trim path) "" then VUndef
  else foldl (fun obj key => getProp (mem this) obj key) (config this) (split "." path).

(** ** The logic evaluator *)

Definition ConditionOperators : list string :=
  ["equals"; "startswith"; "endswith"; "contains"; ">"; ">="; "<"; "<="].

(** [/^(?!if\s+)\s{0,}(?<left>[\s\S]+?)\s{0,}\?\?\s{0,}(?<right>[\s\S]+?)\s{0,}$/] *)
Definition re_nullishCoalesce : regex :=
  rseq [RBegin; RNotAhead (rseq [lits "if"; rplus true (RChar space)]);
        RStar true (RChar space); RGroup 1 (rplus false (RChar any));
        RStar true (RChar space); lits "??"; RStar true (RChar space);
        RGroup 2 (rplus false (RChar any)); RStar true (RChar space); REnd].

(** [/^if\s+\(([\s\S]+?)\)\s+then\s+\(/i] *)
Definition re_ifThenElse : regex :=
  rseq [RBegin; litsi "if"; rplus true (RChar space); lit "(";
        RGroup 1 (rplus false (RChar any)); lit ")"; rplus true (RChar space);
        litsi "then"; rplus true (RChar space); lit "("].

(** [opRegex]: [^\s{0,}([^\s]+|\([^\)]+\))\s{0,}(OPS)\s{0,}([Q].{0,}?[Q]|[^\s]+)\s{0,}$],
    [OPS] the alternation of [ConditionOperators], each escaped. *)
Definition re_op : regex :=
  let quoteChar := RChar (fun c => isChar apostrophe c || isChar quote c) in
  rseq [RBegin; RStar true (RChar space);
        RGroup 1 (RAlt (rplus true (RChar nonspace))
                       (rseq [lit "("; rplus true (RChar (fun c => negb (isChar ")" c))); lit ")"]));
        RStar true (RChar space);
        RGroup 2 (ralt (map lits ConditionOperators));
        RStar true (RChar space);
        RGroup 3 (RAlt (rseq [quoteChar; RStar false (RChar dot); quoteChar])
                       (rplus true (RChar nonspace)));
        RStar true (RChar space); REnd].

(** [/^[<>]/] *)
Definition re_ordering : regex :=
  rseq [RBegin; RChar (fun c => isChar "<" c || isChar ">" c)].

(** [/^not\s+/i] *)
Definition re_not : regex := rseq [RBegin; litsi "not"; rplus true (RChar space)].

(** [/\s/.test(c || '')] for a character that may be [undefined]. *)
Definition spaceAt (s : string) (i : Z) : bool :=
  match charAt s i with
  | Some c => isSpace c
  | None => false
  end.

Definition push (tokens : list string) (current : string) : list string :=
  if String.eqb (trim current) "" then tokens else tokens ++ [trim current].

(** The [while] loop of [tokenizeCondition]; [fuel] bounds its turns, each
    of which moves [i] forward. *)
Fixpoint tokenizeLoop (fuel : nat) (s : string) (i : Z) (current : string)
         (depth : Z) (tokens : list string) : list string :=
  match fuel with
  | O => push tokens current
  | S fuel' =>
      if negb (i <? len s) then push tokens current
      else
        let c := default "000"%char (charAt s i) in
        let add := current +:+ String c EmptyString in
        if isChar "(" c then tokenizeLoop fuel' s (i + 1) add (depth + 1) tokens
        else if isChar ")" c then tokenizeLoop fuel' s (i + 1) add (depth - 1) tokens
        else if depth =? 0 then
          let token := trimEnd (toLowerCase (slice s i (i + 3))) in
          if String.eqb token "and" && spaceAt s (i - 1) && spaceAt s (i + 3) then
            tokenizeLoop fuel' s (i + 2 + 1) "" depth (push tokens current ++ [token])
          else if String.eqb token "or" && spaceAt s (i - 1) && spaceAt s (i + 2) then
            tokenizeLoop fuel' s (i + 1 + 1) "" depth (push tokens current ++ [token])
          else tokenizeLoop fuel' s (i + 1) add depth tokens
        else tokenizeLoop fuel' s (i + 1) add depth tokens
  end.

(** [tokenizeCondition(str)]. *)
Definition tokenizeCondition (s : string) : list string :=
  tokenizeLoop (String.length s) s 0 "" 0 [].

(** The [for] loop of [evalLogical] that decides whether the parentheses
    around the whole condition match each other. *)
Fixpoint balancedLoop (rest : list ascii) (i n : Z) (depth : Z) : bool :=
  match rest with
  | [] => true
  | c :: rest' =>
      let depth1 := if isChar "(" c then depth + 1 else depth in
      let depth2 := if isChar ")" c then depth1 - 1 else depth1 in
      if (depth2 =? 0) && (i <? n - 1) then false
      else balancedLoop rest' (i + 1) n depth2
  end.

Definition isOp (op : option string) (which : string) : bool :=
  match op with
  | Some o => String.eqb o which
  | None => false
  end.

(** The [for] loop of [evalLogical] over the tokens, [ev] being
    [evalLogical] itself. [result] and [op] start as [undefined]. *)
Fixpoint combineTokens (ev : string -> outcome bool) (tokens : list string)
         (result : option bool) (op : option string) : outcome bool :=
  match tokens with
  | [] => Ret (default false result)
  | token :: rest =>
      if String.eqb token "and" || String.eqb token "or" then
        combineTokens ev rest result (Some token)
      else
        let res := default false result in
        if negb res then
          obind (ev token) (fun r => combineTokens ev rest (Some r) None)
        else if isOp op "and" && res then
          if negb res then Ret false
          else obind (if res then ev token else Ret res)
                     (fun r => combineTokens ev rest (Some r) None)
        else if isOp op "or" then
          if res then Ret true
          else obind (if res then Ret res else ev token)
                     (fun r => combineTokens ev rest (Some r) None)
        else combineTokens ev rest result None
  end.

(** The closure [evaluate] of [evalComparison], over the two methods it
    calls. *)
Definition evaluateWith (block : string -> outcome value) (resolve : value -> outcome value)
           (s : string) : outcome value :=
  obind (block ("{{ " +:+ trimParensS s +:+ " }}")) (fun b => resolve (trimQuotes b)).

(** The [switch] of [evalComparison] on values already resolved. *)
Definition compareValues (h : heap) (operator : string) (left right : value) : bool :=
  let ordering := test re_ordering operator in
  let left := if ordering then VNum (Number_ h left) else left in
  let right := if ordering then VNum (Number_ h right) else right in
  let isNumeric :=
    match left, right with
    | VNum a, VNum b => num_isFinite a && num_isFinite b
    | _, _ => false
    end in
  let a := Number_ h left in
  let b := Number_ h right in
  if String.eqb operator "equals" then looseEq h left right
  else if String.eqb operator "startswith" then startsWith (String_ h left) (String_ h right)
  else if String.eqb operator "endswith" then endsWith (String_ h left) (String_ h right)
  else if String.eqb operator "contains" then includes (String_ h left) (String_ h right)
  else if String.eqb operator ">" then isNumeric && num_ltb b a
  else if String.eqb operator ">=" then isNumeric && num_leb b a
  else if String.eqb operator "<" then isNumeric && num_ltb a b
  else if String.eqb operator "<=" then isNumeric && num_leb a b
  else false.

(** [x ?? ''] *)
Definition orEmpty (v : value) : value :=
  match v with
  | VUndef | VNull => VStr ""
  | _ => v
  end.

Definition isUndef (v : value) : bool :=
  match v with
  | VUndef => true
  | _ => false
  end.

(** A string that is a directive block once trimmed. *)
Definition isBlock (s : string) : bool :=
  startsWith (trim s) "{{" && endsWith (trim s) "}}".

(** The methods of the evaluator call each other; [fuel] bounds the depth of
    their calls. *)
Fixpoint evaluateLogicBlock (fuel : nat) (this : Config) (input : string) {struct fuel}
  : outcome value :=
  let trimmed := join " " (map trim (splitLines (trim input))) in
  if negb (startsWith trimmed "{{") || negb (endsWith trimmed "}}") then Ret (VStr input)
  else
    let content := trim (slice trimmed 2 (-2)) in
    match fuel with
    | O => OutOfFuel
    | S fuel' =>
        obind (evaluateNullishCoalesce fuel' this content) (fun nullish =>
        if negb (isUndef nullish) then Ret (trimQuotes nullish)
        else
          obind (evaluateIfElseLogic fuel' this content) (fun ifElse =>
          if negb (isUndef ifElse) then Ret (trimQuotes ifElse)
          else Ret (VStr content)))
    end

with resolveVariable (fuel : nat) (this : Config) (variable : value) {struct fuel}
  : outcome value :=
  match variable with
  | VStr variable =>
      if negb (startsWith variable "$") then Ret (VStr variable)
      else
        let variable := sliceFrom variable 1 in
        if String.eqb (trim variable) "" then Ret VUndef
        else
          let value := resolveConfigPath this variable in
          let value := if isUndef value
                       then match Bun_env variable with
                            | Some e => VStr (trim e)
                            | None => VUndef
                            end
                       else value in
          match value with
          | VStr s =>
              if isBlock s then
                match fuel with
                | O => OutOfFuel
                | S fuel' => evaluateLogicBlock fuel' this (trim s)
                end
              else Ret value
          | _ => Ret value
          end
  | _ => Throw (ETypeError "variable.startsWith is not a function")
  end

with evaluateNullishCoalesce (fuel : nat) (this : Config) (content : string) {struct fuel}
  : outcome value :=
  match exec 2 re_nullishCoalesce content with
  | Some nullishMatch =>
      match fuel with
      | O => OutOfFuel
      | S fuel' =>
          let left := default "" (group nullishMatch 1) in
          let right := default "" (group nullishMatch 2) in
          let left := trimParensS left in
          obind (resolveVariable fuel' this (VStr (trimParensS left))) (fun left =>
          let left := orEmpty left in
          if negb (looseEq (mem this) left (VStr "")) then Ret left
          else
            let right := trimParensS right in
            obind (resolveVariable fuel' this (VStr (trimParensS right))) (fun right =>
            let right := orEmpty right in
            if negb (looseEq (mem this) right (VStr "")) then Ret right
            else Ret VUndef))
      end
  | None => Ret VUndef
  end

with evaluateIfElseLogic (fuel : nat) (this : Config) (content : string) {struct fuel}
  : outcome value :=
  match exec 1 re_ifThenElse content with
  | None => Ret VUndef
  | Some ifThenElse =>
      let condEnd := (String.length (m_text ifThenElse) - 1)%nat in
      let '(trueBlockWithParens, afterTrueIdx) := findBalancedParenBlock content condEnd in
      let afterTrue := trim (sliceFrom content (Z.of_nat afterTrueIdx)) in
      if negb (startsWith afterTrue "else") then Ret VUndef
      else
        let elseBlock := trim (sliceFrom afterTrue 4) in
        if startsWith elseBlock "if" then
          match fuel with
          | O => OutOfFuel
          | S fuel' => evaluateIfElseLogic fuel' this elseBlock
          end
        else if negb (startsWith elseBlock "(") then Ret VUndef
        else
          let '(falseBlockWithParens, _) := findBalancedParenBlock elseBlock 0 in
          let condition := default "" (group ifThenElse 1) in
          let trueBlock := slice trueBlockWithParens 1 (-1) in
          let falseBlock := slice falseBlockWithParens 1 (-1) in
          match fuel with
          | O => OutOfFuel
          | S fuel' =>
              obind (evalLogical fuel' this condition) (fun conditionResult =>
              obind (evaluateLogicBlock fuel' this
                       ("{{ " +:+ trim (if conditionResult then trueBlock else falseBlock) +:+ " }}"))
                    (fun v => Ret (trimQuotes v)))
          end
  end

with evalLogical (fuel : nat) (this : Config) (cond : string) {struct fuel} : outcome bool :=
  let cond := trim cond in
  match fuel with
  | O => OutOfFuel
  | S fuel' =>
      if startsWith cond "(" && endsWith cond ")" && balancedLoop (chars cond) 0 (len cond) 0
      then evalLogical fuel' this (slice cond 1 (-1))
      else if test re_not cond then
        obind (evalLogical fuel' this (replaceFirst 0 re_not cond (fun _ => "")))
              (fun b => Ret (negb b))
      else
        let tokens := tokenizeCondition cond in
        match tokens with
        | [token] => evalComparison fuel' this token
        | _ => combineTokens (evalLogical fuel' this) tokens None None
        end
  end

with evalComparison (fuel : nat) (this : Config) (cond : string) {struct fuel} : outcome bool :=
  match exec 3 re_op (trimParensS cond) with
  | None => Ret false
  | Some condMatch =>
      let left := trimQuotesS (default "" (group condMatch 1)) in
      let operator := default "" (group condMatch 2) in
      let right := trimQuotesS (default "" (group condMatch 3)) in
      if (String.eqb (trim left) "" && negb (String.eqb (trim right) ""))
         || (negb (String.eqb (trim left) "") && String.eqb (trim right) "")
      then Ret false
      else
        match fuel with
        | O => OutOfFuel
        | S fuel' =>
            let evaluate := evaluateWith (evaluateLogicBlock fuel' this) (resolveVariable fuel' this) in
            obind (evaluate left) (fun left =>
            obind (evaluate right) (fun right =>
            Ret (compareValues (mem this) operator left right)))
        end
  end.

(** The closure [evaluate] of [evalComparison] on an instance: what a side
    of a comparison resolves to. *)
Definition evaluate (fuel : nat) (this : Config) (s : string) : outcome value :=
  evaluateWith (evaluateLogicBlock fuel this) (resolveVariable fuel this) s.

(** ** The variable resolver and the memo cache

    The methods below change the instance: they run in a state monad over
    [Config] whose result is an [outcome]; the state an exception leaves
    behind is kept. *)

Definition M (A : Type) : Type := Config -> outcome A * Config.

Definition ret {A : Type} (a : A) : M A := fun this => (Ret a, this).
Definition throw {A : Type} (e : exn) : M A := fun this => (Throw e, this).
Definition lift {A : Type} (o : outcome A) : M A := fun this => (o, this).
Definition bind {A B : Type} (m : M A) (f : A -> M B) : M B :=
  fun this =>
    match m this with
    | (Ret a, this') => f a this'
    | (Throw e, this') => (Throw e, this')
    | (OutOfFuel, this') => (OutOfFuel, this')
    end.
Definition read {A : Type} (f : Config -> A) : M A := fun this => (Ret (f this), this).
Definition update (f : Config -> Config) : M unit := fun this => (Ret tt, f this).

Notation "'let!' x ':=' m 'in' k" := (bind m (fun x => k))
  (at level 10, x pattern, m at level 100, k at level 200).

(** The type of a method that returns a value. *)
Abbreviation returnsValue := (M value).

Definition setMem (h : heap) (this : Config) : Config :=
  {| mem := h; config := config this; bank := bank this;
     dependencies := dependencies this; resolutions := resolutions this |}.

Definition setBank (variable : string) (v : value) (this : Config) : Config :=
  {| mem := mem this; config := config this; bank := <[variable := v]> (bank this);
     dependencies := dependencies this; resolutions := resolutions this |}.

Definition setDependencies (variable : string) (deps : gset string) (this : Config) : Config :=
  {| mem := mem this; config := config this; bank := bank this;
     dependencies := <[variable := deps]> (dependencies this);
     resolutions := resolutions this |}.

Definition noteResolution (variable : string) (this : Config) : Config :=
  {| mem := mem this; config := config this; bank := bank this;
     dependencies := dependencies this; resolutions := resolutions this ++ [variable] |}.

(** A new object or array in the store. *)
Definition new (c : cell) : M value :=
  fun this => let '(v, h) := alloc (mem this) c in (Ret v, setMem h this).

(** [Utils.parsePrimitiveValue(value)]. *)
Definition parsePrimitiveValue (value : value) : returnsValue :=
  match value with
  | VStr s =>
      if negb (String.eqb (trim s) "") then
        let lower := toLowerCase (trim s) in
        if String.eqb lower "true" || String.eqb lower "false"
        then ret (VBool (String.eqb lower "true"))
        else
          let num := Number_of_string s in
          if num_isFinite num then ret (VNum num)
          else match JSON_parse s with
               | Some parsed =>
                   fun this =>
                     let '(v, h) := store parsed (mem this) in
                     (Ret (ensureObject v value), setMem h this)
               | None => ret value
               end
      else ret value
  | _ => ret value
  end.

Definition nameStart (c : ascii) : bool := alpha c || isChar "_" c.
Definition nameChar (c : ascii) : bool := alpha c || digit c || isChar "_" c || isChar "." c.

(** [regex.source.slice(1, -1)]: [\$([a-zA-Z_][a-zA-Z0-9_\.]{0,})] *)
Definition re_referenceBody : regex :=
  rseq [lit "$"; RGroup 1 (rseq [RChar nameStart; RStar true (RChar nameChar)])].

(** [regex]: [/^\$([a-zA-Z_][a-zA-Z0-9_\.]{0,})$/] *)
Definition re_reference : regex := rseq [RBegin; re_referenceBody; REnd].

(** [/(\{\{[\s\S]+?\}\})/mg] *)
Definition re_block : regex :=
  RGroup 1 (rseq [lits "{{"; rplus false (RChar any); lits "}}"]).

(** [s.replace(r, f)] with the [g] flag, the matches found beforehand: [f]
    is called on each match from left to right and its result is turned
    into a string. *)
Fixpoint replaceAll (pieces : list (string * rmatched)) (tail : string)
         (f : rmatched -> M value) : M string :=
  match pieces with
  | [] => ret tail
  | (before, m) :: pieces' =>
      let! v := f m in
      let! h := read mem in
      let replacement := String_ h v in
      let! rest := replaceAll pieces' tail f in
      ret (before +:+ replacement +:+ rest)
  end.

Fixpoint mapValues (f : value -> M value) (items : list value) : M (list value) :=
  match items with
  | [] => ret []
  | val :: items' =>
      let! v := f val in
      let! vs := mapValues f items' in
      ret (v :: vs)
  end.

(** [chain.forEach(dep => deps.add(dep))] *)
Definition addAll (chain : list string) (deps : gset string) : gset string :=
  foldl (fun deps dep => deps ∪ {[dep]}) deps chain.

Definition circular (nextChain : list string) : exn :=
  EThrowable (mkThrowable "ReferenceError" "Circular dependency detected"
                          (Some (join " -> " nextChain))).

(** [#resolveVariableChain(str, variable, chain)] and
    [#translateVariables(value, chain)]; [fuel] bounds the depth of their
    calls and is handed to the evaluator. *)
Fixpoint resolveVariableChain (fuel : nat) (s : string) (variable : string)
         (chain : list string) {struct fuel} : returnsValue :=
  if String.eqb variable "" then ret (VStr s)
  else
    let nextChain := chain ++ [variable] in
    if bool_decide (variable ∈ chain) then throw (circular nextChain)
    else
      let finish : returnsValue :=
        let! cached := read (fun this => default VUndef (bank this !! variable)) in
        let! _ :=
          if (0 <? length chain)%nat then
            let! deps := read (fun this => default ∅ (dependencies this !! variable)) in
            update (setDependencies variable (addAll chain deps))
          else ret tt in
        if isUndef cached then ret (VStr s) else ret cached in
      let! has := read (fun this => bool_decide (is_Some (bank this !! variable))) in
      if negb has then
        let! _ := update (setBank variable VUndef) in
        let! _ := update (noteResolution variable) in
        match fuel with
        | O => lift OutOfFuel
        | S fuel' =>
            let! configValue := (fun this => (resolveVariable fuel' this (VStr ("$" +:+ variable)), this)) in
            if isUndef configValue then ret (VStr s)
            else
              let! formatted := translateVariables fuel' configValue nextChain in
              let! _ := update (setBank variable formatted) in
              finish
        end
      else finish

with translateVariables (fuel : nat) (value : value) (chain : list string) {struct fuel}
  : returnsValue :=
  match fuel with
  | O => lift OutOfFuel
  | S fuel' =>
      match value with
      | VStr value =>
          let fullMatch := exec 1 re_reference value in
          let! value :=
            replaceAll (fst (matchAll 1 re_block value)) (snd (matchAll 1 re_block value))
              (fun m this => (evaluateLogicBlock fuel' this (m_text m), this)) in
          let continue : returnsValue :=
            let! value :=
              replaceAll (fst (matchAll 1 re_referenceBody value))
                         (snd (matchAll 1 re_referenceBody value))
                (fun m => resolveVariableChain fuel' (m_text m) (default "" (group m 1)) chain) in
            parsePrimitiveValue (VStr value) in
          match fullMatch with
          | Some fullMatch =>
              if (String.length (trim (removeFirst value (m_text fullMatch))) =? 0)%nat
              then resolveVariableChain fuel' (m_text fullMatch)
                                        (default "" (group fullMatch 1)) chain
              else continue
          | None => continue
          end
      | VRef l =>
          let! h := read mem in
          match h !! l with
          | Some (CArr items) =>
              let! vs := mapValues (fun val => translateVariables fuel' val chain) items in
              new (CArr vs)
          | _ => parsePrimitiveValue value
          end
      | _ => parsePrimitiveValue value
      end
  end.

(** ** The facade *)

(** Lines 314 to 321 of [get] (336 to 343 of [raw]): walk down [result]
    along the parts of the key, making the objects that are missing, and
    write the value at the last part. *)
Fixpoint assign (parts : list string) (current : value) (value : value) : M unit :=
  match parts with
  | [] => ret tt
  | [last] =>
      let! h := read mem in
      let! h' := lift (setProp h current last value) in
      update (setMem h')
  | part :: rest =>
      let! h := read mem in
      let! _ :=
        if negb (truthy (getProp h current part)) then
          let! fresh := new (CObj []) in
          let! h1 := read mem in
          let! h2 := lift (setProp h1 current part fresh) in
          update (setMem h2)
        else ret tt in
      let! h3 := read mem in
      assign rest (getProp h3 current part) value
  end.

(** The body of the loop of [get] for one key. *)
Definition getKey (fuel : nat) (result : value) (key : string) : M unit :=
  let parts := split "." key in
  let! raw := read (fun this => resolveConfigPath this key) in
  let! value := translateVariables fuel raw [] in
  if isUndef value then ret tt
  else assign parts result value.

(** The body of the loop of [raw] for one key. *)
Definition rawKey (result : value) (key : string) : M unit :=
  let parts := split "." key in
  let! value := read (fun this => resolveConfigPath this key) in
  if isUndef value then ret tt
  else assign parts result value.

Fixpoint forEach (f : string -> M unit) (keys : list string) : M unit :=
  match keys with
  | [] => ret tt
  | key :: keys' => let! _ := f key in forEach f keys'
  end.

(** [get(...keys)]: the reference of the result object. *)
Definition get (fuel : nat) (keys : list string) : M value :=
  let! result := new (CObj []) in
  let! _ := forEach (getKey fuel result) keys in
  ret result.

(** [raw(...keys)]. *)
Definition raw (keys : list string) : M value :=
  let! result := new (CObj []) in
  let! _ := forEach (rawKey result) keys in
  ret result.



End Config.

Abbreviation loc := nat.
Abbreviation heap := (list cell).

(** ** A runtime to run the examples with

    Numbers are the integers and NaN; [Number] reads a decimal integer with an
    optional sign and takes blank text as 0; [JSON.parse] refuses every text.
    This agrees with the host on the texts of the examples below, none of
    which is a number with a fraction or an exponent, or JSON text. *)

Module Example.

Inductive znum : Type := NaN | Int (z : Z).

Fixpoint digitsZ (l : list ascii) (acc : Z) : option Z :=
  match l with
  | [] => Some acc
  | c :: l' => if digit c then digitsZ l' (10 * acc + (Z.of_N (code c) - 48)) else None
  end.

Definition parseNumber (s : string) : znum :=
  match trimL (chars s) with
  | [] => Int 0
  | c :: l =>
      let '(sign, ds) := if isChar "-" c then (-1, l)
                         else if isChar "+" c then (1, l) else (1, c :: l) in
      match ds with
      | [] => NaN
      | _ => match digitsZ ds 0 with
             | Some z => Int (sign * z)
             | None => NaN
             end
      end
  end.

Fixpoint printNat (fuel : nat) (n : N) (acc : string) : string :=
  match fuel with
  | O => acc
  | S fuel' =>
      let acc' := String (ascii_of_N (48 + n mod 10)) acc in
      if (n / 10 =? 0)%N then acc' else printNat fuel' (n / 10) acc'
  end.

Definition printNumber (n : znum) : string :=
  match n with
  | NaN => "NaN"
  | Int z =>
      let digits := printNat (S (N.to_nat (N.log2 (Z.to_N (Z.abs z))))) (Z.to_N (Z.abs z)) "" in
      if z <? 0 then "-" +:+ digits else digits
  end.

Definition cmp (f : Z -> Z -> bool) (a b : znum) : bool :=
  match a, b with
  | Int x, Int y => f x y
  | _, _ => false
  end.

Definition indentation (n : nat) : string := str (replicate (2 * n) " "%char).
Definition newline : string := String (ascii_of_N 10) EmptyString.

Definition escape (s : string) : string :=
  str (flat_map (fun c => if isChar quote c || isChar "\" c then ["\"%char; c] else [c]) (chars s)).

(** [JSON.stringify(v, undefined, 2)] on trees of these numbers. *)
Fixpoint stringify (depth : nat) (v : jsval znum) {struct v} : string :=
  match v with
  | JUndef | JNull => "null"
  | JBool b => if b then "true" else "false"
  | JNum n => match n with NaN => "null" | Int _ => printNumber n end
  | JStr s => q +:+ escape s +:+ q
  | JArr items =>
      match map (fun x => indentation (S depth) +:+ stringify (S depth) x) items with
      | [] => "[]"
      | shown => "[" +:+ newline +:+ join ("," +:+ newline) shown
                 +:+ newline +:+ indentation depth +:+ "]"
      end
  | JObj fields =>
      let entry (k : string) (x : jsval znum) : list string :=
        match x with
        | JUndef => []
        | _ => [indentation (S depth) +:+ q +:+ escape k +:+ q +:+ ": " +:+ stringify (S depth) x]
        end in
      match (fix go (l : list (string * jsval znum)) : list string :=
               match l with
               | [] => []
               | (k, x) :: l' => entry k x ++ go l'
               end) fields with
      | [] => "{}"
      | shown => "{" +:+ newline +:+ join ("," +:+ newline) shown
                 +:+ newline +:+ indentation depth +:+ "}"
      end
  end.

(** A stand-in for the hash function of the host. *)
Definition hashString (s : string) : N :=
  foldl (fun h c => ((h * 1099511628211 + code c) mod 2 ^ 64)%N) 14695981039346656037%N (chars s).

(** The environment of the examples: one variable. *)
Definition environment (name : string) : option string :=
  if String.eqb name "HOME" then Some "/root" else None.

#[export] Instance runtime : Runtime := {|
  num := znum;
  num_of_Z := Int;
  num_nan := NaN;
  Number_of_string := parseNumber;
  num_to_string := printNumber;
  num_isFinite := fun n => match n with Int _ => true | NaN => false end;
  num_eqb := cmp Z.eqb;
  num_ltb := cmp Z.ltb;
  num_leb := cmp Z.leb;
  num_truthy := fun n => match n with Int z => negb (z =? 0) | NaN => false end;
  JSON_parse := fun _ => None;
  JSON_stringify := stringify 0;
  Bun_hash := hashString;
  Bun_env := environment
|}.

Definition obj (fields : list (string * jsval znum)) : jsval znum := JObj fields.
Definition int (z : Z) : jsval znum := JNum (Int z).

(** The instance made from a tree, under this runtime. *)
Definition instance (tree : jsval znum) : @Config runtime := @newConfig runtime tree.

End Example.

(** * Properties *)

(** ** The block scanner *)

Definition isParen (c : ascii) : bool := isChar "(" c || isChar ")" c.

(** Text in which every parenthesis is matched. *)
Inductive balanced : list ascii -> Prop :=
| balanced_nil : balanced []
| balanced_char c l : isParen c = false -> balanced l -> balanced (c :: l)
| balanced_nest l1 l2 :
    balanced l1 -> balanced l2 -> balanced ("("%char :: l1 ++ ")"%char :: l2).

Lemma chars_str l : chars (str l) = l.
Proof. apply list_ascii_of_string_of_list_ascii. Qed.

Lemma str_chars s : str (chars s) = s.
Proof. apply string_of_list_ascii_of_string. Qed.

(** Before any opening parenthesis the scanner only collects. *)
Lemma scanBlock_unopened l : forall i depth block,
  forallb (fun c => negb (isChar "(" c)) l = true ->
  scanBlock l i depth false block = (rev block ++ l, S (i + length l))%nat.
Proof.
  induction l as [|c l IH]; intros i depth block Hl; simpl in *.
  - rewrite app_nil_r. repeat f_equal. lia.
  - apply andb_prop in Hl as [Hc Hl].
    apply negb_true_iff in Hc. rewrite Hc. simpl.
    rewrite IH by assumption. simpl. rewrite <- app_assoc. simpl.
    repeat f_equal. lia.
Qed.

Lemma scanBlock_prefix pre : forall rest i block,
  forallb (fun c => negb (isParen c)) pre = true ->
  scanBlock (pre ++ rest) i 0 false block
  = scanBlock rest (i + length pre) 0 false (rev pre ++ block).
Proof.
  induction pre as [|c pre IH]; intros rest i block Hpre; simpl in *.
  - f_equal; lia.
  - apply andb_prop in Hpre as [Hc Hpre].
    apply negb_true_iff in Hc. unfold isParen in Hc.
    apply orb_false_iff in Hc as [Ho Hcl]. rewrite Ho, Hcl. simpl.
    rewrite IH by assumption. f_equal; [lia|]. rewrite <- app_assoc. reflexivity.
Qed.

Lemma scanBlock_balanced body : balanced body ->
  forall rest i depth block, 0 < depth ->
  scanBlock (body ++ rest) i depth true block
  = scanBlock rest (i + length body) depth true (rev body ++ block).
Proof.
  induction 1 as [|c l Hc Hl IH|l1 l2 H1 IH1 H2 IH2]; intros rest i depth block Hd.
  - simpl. f_equal. lia.
  - simpl. unfold isParen in Hc. apply orb_false_iff in Hc as [Ho Hcl].
    rewrite Ho, Hcl. simpl.
    replace (depth =? 0) with false by (symmetry; apply Z.eqb_neq; lia).
    rewrite IH by assumption. f_equal; [lia|]. rewrite <- app_assoc. reflexivity.
  - cbn [app scanBlock].
    change (isChar "(" "(") with true. change (isChar ")" "(") with false. cbn iota.
    replace (depth + 1 =? 0) with false by (symmetry; apply Z.eqb_neq; lia).
    cbn [andb]. rewrite <- app_assoc. rewrite IH1 by lia.
    cbn [app scanBlock].
    change (isChar "(" ")") with false. change (isChar ")" ")") with true. cbn iota.
    replace (depth + 1 - 1 =? 0) with false by (symmetry; apply Z.eqb_neq; lia).
    cbn [andb]. rewrite IH2 by lia.
    f_equal; try lia.
    + simpl. rewrite length_app. simpl. lia.
    + simpl. rewrite rev_app_distr. simpl.
      repeat rewrite <- app_assoc. simpl. reflexivity.
Qed.

(** C6, as amended. The scanner returns the text from the start offset, not
    from the first opening parenthesis: where that text is a run of characters
    other than parentheses followed by a parenthesised block whose inside
    is balanced, it returns the run with the block, and the offset just after
    the closing parenthesis of the block; where the text has no opening
    parenthesis, it returns all of it. *)
Theorem findBalancedParenBlock_scans (s : string) (startIdx : nat) :
  (forall pre body rest,
      drop startIdx (chars s) = pre ++ "("%char :: body ++ ")"%char :: rest ->
      forallb (fun c => negb (isParen c)) pre = true ->
      balanced body ->
      findBalancedParenBlock s startIdx
      = (str (pre ++ "("%char :: body ++ [")"%char]),
         (startIdx + length pre + length body + 2)%nat))
  /\ (forallb (fun c => negb (isChar "(" c)) (drop startIdx (chars s)) = true ->
      fst (findBalancedParenBlock s startIdx) = str (drop startIdx (chars s))).
Proof.
  split.
  - intros pre body rest Hl Hpre Hbody.
    unfold findBalancedParenBlock. rewrite Hl.
    rewrite scanBlock_prefix by assumption.
    cbn [scanBlock].
    change (isChar "(" "(") with true. change (isChar ")" "(") with false. cbn iota.
    change (0 + 1 =? 0) with false. cbn [andb].
    rewrite scanBlock_balanced by (assumption || lia).
    cbn [scanBlock].
    change (isChar "(" ")") with false. change (isChar ")" ")") with true. cbn iota.
    change (0 + 1 - 1 =? 0) with true. cbn [andb].
    f_equal.
    + f_equal. simpl. rewrite rev_app_distr. simpl. rewrite rev_app_distr.
      rewrite !rev_involutive. simpl. repeat rewrite <- app_assoc. simpl. reflexivity.
    + lia.
  - intros Hl. unfold findBalancedParenBlock.
    rewrite scanBlock_unopened by assumption. reflexivity.
Qed.

Lemma findBalancedParenBlock_scans_witness :
  findBalancedParenBlock "ab(c(d))e" 0 = ("ab(c(d))", 8%nat)
  /\ fst (findBalancedParenBlock "a)b" 1) = ")b".
Proof.
  split.
  - apply (proj1 (findBalancedParenBlock_scans "ab(c(d))e" 0)
             (chars "ab") (chars "c(d)") (chars "e")).
    + reflexivity.
    + reflexivity.
    + apply balanced_char; [reflexivity|].
      apply (balanced_nest (chars "d") []); [|apply balanced_nil].
      apply balanced_char; [reflexivity|apply balanced_nil].
  - apply (proj2 (findBalancedParenBlock_scans "a)b" 1)). reflexivity.
Defined.

(** C6, as stated, fails where the start offset is before the first opening
    parenthesis: the block returned begins at the offset. *)
Lemma findBalancedParenBlock_keeps_prefix :
  findBalancedParenBlock "ab(c)d" 0 = ("ab(c)", 5%nat)
  /\ String.eqb (fst (findBalancedParenBlock "ab(c)d" 0)) "(c)" = false.
Proof. split; reflexivity. Qed.

(** ** The logic evaluator *)

Section Evaluator.
Context {rt : Runtime}.

(** The text a block is read as, and what is between its braces. *)
Definition lineJoined (input : string) : string :=
  join " " (map trim (splitLines (trim input))).

Definition wrapped (input : string) : bool :=
  startsWith (lineJoined input) "{{" && endsWith (lineJoined input) "}}".

Definition innerContent (input : string) : string :=
  trim (slice (lineJoined input) 2 (-2)).

(** The equations of the methods, one call deep. *)

Lemma evaluateLogicBlock_eq fuel this input :
  evaluateLogicBlock fuel this input
  = if negb (wrapped input) then Ret (VStr input)
    else match fuel with
         | O => OutOfFuel
         | S fuel' =>
             obind (evaluateNullishCoalesce fuel' this (innerContent input)) (fun nullish =>
             if negb (isUndef nullish) then Ret (trimQuotes nullish)
             else obind (evaluateIfElseLogic fuel' this (innerContent input)) (fun ifElse =>
                  if negb (isUndef ifElse) then Ret (trimQuotes ifElse)
                  else Ret (VStr (innerContent input))))
         end.
Proof.
  unfold wrapped, innerContent, lineJoined. rewrite negb_andb.
  destruct fuel; reflexivity.
Qed.

Lemma resolveVariable_eq fuel this s :
  resolveVariable fuel this (VStr s)
  = if negb (startsWith s "$") then Ret (VStr s)
    else if String.eqb (trim (sliceFrom s 1)) "" then Ret VUndef
    else
      let value := resolveConfigPath this (sliceFrom s 1) in
      let value := if isUndef value
                   then match Bun_env (sliceFrom s 1) with
                        | Some e => VStr (trim e)
                        | None => VUndef
                        end
                   else value in
      match value with
      | VStr b =>
          if isBlock b then
            match fuel with
            | O => OutOfFuel
            | S fuel' => evaluateLogicBlock fuel' this (trim b)
            end
          else Ret value
      | _ => Ret value
      end.
Proof. destruct fuel; reflexivity. Qed.

Lemma evaluateNullishCoalesce_eq fuel this content :
  evaluateNullishCoalesce fuel this content
  = match exec 2 re_nullishCoalesce content with
    | Some m =>
        match fuel with
        | O => OutOfFuel
        | S fuel' =>
            obind (resolveVariable fuel' this
                     (VStr (trimParensS (trimParensS (default "" (group m 1)))))) (fun left =>
            if negb (looseEq (mem this) (orEmpty left) (VStr "")) then Ret (orEmpty left)
            else obind (resolveVariable fuel' this
                          (VStr (trimParensS (trimParensS (default "" (group m 2)))))) (fun right =>
                 if negb (looseEq (mem this) (orEmpty right) (VStr "")) then Ret (orEmpty right)
                 else Ret VUndef))
        end
    | None => Ret VUndef
    end.
Proof. destruct fuel; reflexivity. Qed.

Lemma evaluateIfElseLogic_eq fuel this content :
  evaluateIfElseLogic fuel this content
  = match exec 1 re_ifThenElse content with
    | None => Ret VUndef
    | Some ifThenElse =>
        let condEnd := (String.length (m_text ifThenElse) - 1)%nat in
        let '(trueBlockWithParens, afterTrueIdx) := findBalancedParenBlock content condEnd in
        let afterTrue := trim (sliceFrom content (Z.of_nat afterTrueIdx)) in
        if negb (startsWith afterTrue "else") then Ret VUndef
        else
          let elseBlock := trim (sliceFrom afterTrue 4) in
          if startsWith elseBlock "if" then
            match fuel with
            | O => OutOfFuel
            | S fuel' => evaluateIfElseLogic fuel' this elseBlock
            end
          else if negb (startsWith elseBlock "(") then Ret VUndef
          else
            let '(falseBlockWithParens, _) := findBalancedParenBlock elseBlock 0 in
            let condition := default "" (group ifThenElse 1) in
            let trueBlock := slice trueBlockWithParens 1 (-1) in
            let falseBlock := slice falseBlockWithParens 1 (-1) in
            match fuel with
            | O => OutOfFuel
            | S fuel' =>
                obind (evalLogical fuel' this condition) (fun conditionResult =>
                obind (evaluateLogicBlock fuel' this
                         ("{{ " +:+ trim (if conditionResult then trueBlock else falseBlock) +:+ " }}"))
                      (fun v => Ret (trimQuotes v)))
            end
    end.
Proof. destruct fuel; reflexivity. Qed.

Lemma evalLogical_eq fuel this cond :
  evalLogical (S fuel) this cond
  = let cond := trim cond in
    if startsWith cond "(" && endsWith cond ")" && balancedLoop (chars cond) 0 (len cond) 0
    then evalLogical fuel this (slice cond 1 (-1))
    else if test re_not cond then
      obind (evalLogical fuel this (replaceFirst 0 re_not cond (fun _ => "")))
            (fun b => Ret (negb b))
    else
      match tokenizeCondition cond with
      | [token] => evalComparison fuel this token
      | tokens => combineTokens (evalLogical fuel this) tokens None None
      end.
Proof.
  cbv zeta. simpl evalLogical.
  destruct (tokenizeCondition (trim cond)) as [|? [|? ?]]; reflexivity.
Qed.

Lemma evalComparison_eq fuel this cond :
  evalComparison fuel this cond
  = match exec 3 re_op (trimParensS cond) with
    | None => Ret false
    | Some condMatch =>
        let left := trimQuotesS (default "" (group condMatch 1)) in
        let operator := default "" (group condMatch 2) in
        let right := trimQuotesS (default "" (group condMatch 3)) in
        if (String.eqb (trim left) "" && negb (String.eqb (trim right) ""))
           || (negb (String.eqb (trim left) "") && String.eqb (trim right) "")
        then Ret false
        else
          match fuel with
          | O => OutOfFuel
          | S fuel' =>
              obind (evaluate fuel' this left) (fun left =>
              obind (evaluate fuel' this right) (fun right =>
              Ret (compareValues (mem this) operator left right)))
          end
    end.
Proof. destruct fuel; reflexivity. Qed.


(** *** Nullish coalescing *)

Definition emptyOrFallback : string :=
  "{{ " +:+ q +:+ q +:+ " ?? " +:+ q +:+ "fallback" +:+ q +:+ " }}".
Definition xOrFallback : string :=
  "{{ " +:+ q +:+ "x" +:+ q +:+ " ?? " +:+ q +:+ "fallback" +:+ q +:+ " }}".
Definition missingOrFallback : string :=
  "$missing ?? " +:+ q +:+ "fallback" +:+ q.

(** The operand of [??] that is in group [n], as it is handed to
    [#resolveVariable]. *)
Definition operand (m : rmatched) (n : nat) : value :=
  VStr (trimParensS (trimParensS (default "" (group m n)))).

(** C3, as amended. The strategy returns the left side when what it
    resolves to, quotes included, is not empty, and otherwise the right
    side, or nothing when that is empty too. The quotes of a literal are
    stripped after the choice: the block with the empty literal on the left
    yields the empty string, the block with the literal x yields x. *)
Theorem nullish_coalesce_chooses_before_unquoting (this : Config) (fuel : nat) :
  (forall content m left,
      exec 2 re_nullishCoalesce content = Some m ->
      resolveVariable fuel this (operand m 1) = Ret left ->
      looseEq (mem this) (orEmpty left) (VStr "") = false ->
      evaluateNullishCoalesce (S fuel) this content = Ret (orEmpty left))
  /\ (forall content m left right,
      exec 2 re_nullishCoalesce content = Some m ->
      resolveVariable fuel this (operand m 1) = Ret left ->
      looseEq (mem this) (orEmpty left) (VStr "") = true ->
      resolveVariable fuel this (operand m 2) = Ret right ->
      evaluateNullishCoalesce (S fuel) this content
      = Ret (if looseEq (mem this) (orEmpty right) (VStr "") then VUndef else orEmpty right))
  /\ evaluateLogicBlock (S (S fuel)) this emptyOrFallback = Ret (VStr "")
  /\ evaluateLogicBlock (S (S fuel)) this xOrFallback = Ret (VStr "x").
Proof.
  repeat split.
  - intros content m left Hm Hl He.
    rewrite evaluateNullishCoalesce_eq, Hm. unfold operand in Hl.
    rewrite Hl. cbn [obind]. rewrite He. reflexivity.
  - intros content m left right Hm Hl He Hr.
    rewrite evaluateNullishCoalesce_eq, Hm. unfold operand in Hl, Hr.
    rewrite Hl. cbn [obind]. rewrite He. cbn [negb]. rewrite Hr. cbn [obind].
    destruct (looseEq (mem this) (orEmpty right) (VStr "")); reflexivity.
  - destruct fuel; vm_compute; reflexivity.
  - destruct fuel; vm_compute; reflexivity.
Qed.

(** *** Conditions *)

(** A chain whose first operand is false and is joined by [and] to a second
    one takes the value of the second: the loop of [evalLogical] seeds
    [result] again whenever it is false, whatever the operator. *)
Lemma combineTokens_and_after_false (ev : string -> outcome bool) (x y : string) :
  String.eqb x "and" || String.eqb x "or" = false ->
  String.eqb y "and" || String.eqb y "or" = false ->
  ev x = Ret false ->
  combineTokens ev [x; "and"; y] None None = obind (ev y) (fun r => Ret r).
Proof.
  intros Hx Hy Hev. simpl. rewrite Hx, Hy, Hev. simpl.
  destruct (ev y); reflexivity.
Qed.

(** C1 at the condition [a equals b and c equals c]: the first operand is
    false, the second is true, and the chain evaluates to true, so that the
    conditional takes its first branch. *)
Theorem evalLogical_and_after_false (this : Config) (fuel : nat) :
  evalLogical (S (S (S (S fuel)))) this "a equals b" = Ret false
  /\ evalLogical (S (S (S (S fuel)))) this "c equals c" = Ret true
  /\ evalLogical (S (S (S (S (S fuel))))) this "a equals b and c equals c" = Ret true
  /\ evaluateLogicBlock (S (S (S (S (S (S (S fuel))))))) this
       "{{ if (a equals b and c equals c) then (yes) else (no) }}" = Ret (VStr "yes").
Proof. repeat split; destruct fuel; vm_compute; reflexivity. Qed.

(** C5, as amended. The test for one empty side is made on the two sides
    as written, once their quotes are stripped and before they are
    resolved: if exactly one of them is blank then, the comparison is
    false. *)
Theorem evalComparison_blank_side_as_written (this : Config) (fuel : nat)
        (cond : string) (m : rmatched) :
  exec 3 re_op (trimParensS cond) = Some m ->
  xorb (String.eqb (trim (trimQuotesS (default "" (group m 1)))) "")
       (String.eqb (trim (trimQuotesS (default "" (group m 3)))) "") = true ->
  evalComparison fuel this cond = Ret false.
Proof.
  intros Hm Hx. rewrite evalComparison_eq, Hm. cbv zeta.
  destruct (String.eqb (trim (trimQuotesS (default "" (group m 1)))) "");
    destruct (String.eqb (trim (trimQuotesS (default "" (group m 3)))) "");
    simpl in *; congruence.
Qed.

(** *** Blocks that are not evaluated *)

(** What follows the block after [then], and what follows [else]. *)
Definition afterTrue (content : string) (m : rmatched) : string :=
  trim (sliceFrom content
          (Z.of_nat (snd (findBalancedParenBlock content (String.length (m_text m) - 1))))).

Definition elseBlock (content : string) (m : rmatched) : string :=
  trim (sliceFrom (afterTrue content m) 4).

(** C7. Text that is not wrapped in braces is returned as it is; a block
    for which neither strategy yields a result is returned as its inner
    content, and no error is raised. A conditional yields no result when it
    does not match the pattern of a conditional (as when the parentheses are
    missing), when no [else] follows the first branch, and when [else] is
    followed by neither [if] nor a parenthesis. *)
Theorem evaluateLogicBlock_degrades_to_text (this : Config) (fuel : nat) :
  (forall input, wrapped input = false ->
      evaluateLogicBlock fuel this input = Ret (VStr input))
  /\ (forall input, wrapped input = true ->
      evaluateNullishCoalesce fuel this (innerContent input) = Ret VUndef ->
      evaluateIfElseLogic fuel this (innerContent input) = Ret VUndef ->
      evaluateLogicBlock (S fuel) this input = Ret (VStr (innerContent input)))
  /\ (forall content, exec 2 re_nullishCoalesce content = None ->
      evaluateNullishCoalesce fuel this content = Ret VUndef)
  /\ (forall content, exec 1 re_ifThenElse content = None ->
      evaluateIfElseLogic fuel this content = Ret VUndef)
  /\ (forall content m, exec 1 re_ifThenElse content = Some m ->
      startsWith (afterTrue content m) "else" = false ->
      evaluateIfElseLogic fuel this content = Ret VUndef)
  /\ (forall content m, exec 1 re_ifThenElse content = Some m ->
      startsWith (afterTrue content m) "else" = true ->
      startsWith (elseBlock content m) "if" = false ->
      startsWith (elseBlock content m) "(" = false ->
      evaluateIfElseLogic fuel this content = Ret VUndef)
  /\ evaluateLogicBlock (S fuel) this "{{ if (a equals a) then (yes) }}"
     = Ret (VStr "if (a equals a) then (yes)")
  /\ evaluateLogicBlock (S fuel) this "{{ if (a equals a) then (yes) else no }}"
     = Ret (VStr "if (a equals a) then (yes) else no")
  /\ evaluateLogicBlock (S fuel) this "{{ if a equals a then yes else no }}"
     = Ret (VStr "if a equals a then yes else no").
Proof.
  split; [|split; [|split; [|split; [|split; [|split; [|split; [|split]]]]]]].
  - intros input H. rewrite evaluateLogicBlock_eq, H. reflexivity.
  - intros input H Hn Hi. rewrite evaluateLogicBlock_eq, H, Hn. simpl.
    rewrite Hi. reflexivity.
  - intros content H. rewrite evaluateNullishCoalesce_eq, H. reflexivity.
  - intros content H. rewrite evaluateIfElseLogic_eq, H. reflexivity.
  - intros content m H He. rewrite evaluateIfElseLogic_eq, H. cbv zeta.
    unfold afterTrue in He.
    destruct (findBalancedParenBlock content (String.length (m_text m) - 1)) as [b i].
    simpl in He. rewrite He. reflexivity.
  - intros content m H He Hi Hp. rewrite evaluateIfElseLogic_eq, H. cbv zeta.
    unfold elseBlock, afterTrue in *.
    destruct (findBalancedParenBlock content (String.length (m_text m) - 1)) as [b i].
    simpl in He, Hi, Hp. rewrite He, Hi, Hp. reflexivity.
  - destruct fuel; vm_compute; reflexivity.
  - destruct fuel; vm_compute; reflexivity.
  - destruct fuel; vm_compute; reflexivity.
Qed.

End Evaluator.

Import Example.

(** [by_computation] closes a goal with no variable in it by running it. *)
Ltac by_computation := reflexivity.

(** [run_as e m H] runs [e], an expression that yields [Some _], and names
    its result [m], with [H : e = Some m]. *)
Ltac run_as e m H :=
  destruct e as [m|] eqn:H; [|lazy in H; discriminate H];
  generalize H; lazy in H;
  injection H as <-; intros H.

Lemma nullish_coalesce_chooses_before_unquoting_witness :
  evaluateNullishCoalesce 2 (instance (obj [])) (q +:+ "x" +:+ q +:+ " ?? y")
  = Ret (VStr (q +:+ "x" +:+ q))
  /\ evaluateNullishCoalesce 2 (instance (obj [])) missingOrFallback
     = Ret (VStr (q +:+ "fallback" +:+ q)).
Proof.
  split.
  - run_as (exec 2 re_nullishCoalesce (q +:+ "x" +:+ q +:+ " ?? y")) m Hm.
    apply (proj1 (nullish_coalesce_chooses_before_unquoting (instance (obj [])) 1)
             _ _ (VStr (q +:+ "x" +:+ q)) Hm); by_computation.
  - run_as (exec 2 re_nullishCoalesce missingOrFallback) m Hm.
    apply (proj1 (proj2 (nullish_coalesce_chooses_before_unquoting (instance (obj [])) 1))
             _ _ VUndef (VStr (q +:+ "fallback" +:+ q)) Hm); by_computation.
Defined.

(** C3, as stated, fails on its first block: the empty literal is chosen and
    the block yields the empty string. *)
Lemma nullish_coalesce_empty_literal_wins :
  evaluateLogicBlock 3 (instance (obj [])) emptyOrFallback = Ret (VStr "")
  /\ String.eqb "" "fallback" = false.
Proof. split; by_computation. Qed.

Lemma evalComparison_blank_side_as_written_witness :
  evalComparison 0 (instance (obj [])) (q +:+ q +:+ " equals x") = Ret false.
Proof.
  run_as (exec 3 re_op (trimParensS (q +:+ q +:+ " equals x"))) m Hm.
  apply (evalComparison_blank_side_as_written (instance (obj [])) 0 _ _ Hm).
  by_computation.
Defined.

(** C5, as stated, fails: with the empty string at path [e], the right side
    of [abc contains $e] resolves to the empty string, the left side to
    [abc], and the comparison is true. *)
Lemma evalComparison_empty_after_resolution :
  evaluate 2 (instance (obj [("e", JStr "")])) "abc" = Ret (VStr "abc")
  /\ evaluate 2 (instance (obj [("e", JStr "")])) "$e" = Ret (VStr "")
  /\ evalComparison 3 (instance (obj [("e", JStr "")])) "abc contains $e" = Ret true.
Proof. repeat split; by_computation. Qed.

Lemma evaluateLogicBlock_degrades_to_text_witness :
  evaluateLogicBlock 0 (instance (obj [])) "plain text" = Ret (VStr "plain text")
  /\ evaluateLogicBlock 1 (instance (obj [])) "{{ plain text }}" = Ret (VStr "plain text")
  /\ evaluateIfElseLogic 0 (instance (obj [])) "if (a equals a) then (yes)" = Ret VUndef
  /\ evaluateIfElseLogic 0 (instance (obj [])) "if (a equals a) then (yes) else no" = Ret VUndef.
Proof.
  pose proof (evaluateLogicBlock_degrades_to_text (instance (obj [])) 0)
    as (H1 & H2 & H3 & H4 & H5 & H6 & _).
  split; [|split; [|split]].
  - apply H1. by_computation.
  - apply (H2 "{{ plain text }}").
    + by_computation.
    + apply H3. by_computation.
    + apply H4. by_computation.
  - run_as (exec 1 re_ifThenElse "if (a equals a) then (yes)") m Hm.
    apply (H5 _ _ Hm). by_computation.
  - run_as (exec 1 re_ifThenElse "if (a equals a) then (yes) else no") m Hm.
    apply (H6 _ _ Hm); by_computation.
Defined.

(** ** The variable resolver *)

Lemma chars_append a b : chars (a +:+ b) = chars a ++ chars b.
Proof. induction a as [|c a IH]; simpl; [reflexivity|]. f_equal. exact IH. Qed.

Lemma str_nil l : str l = "" -> l = [].
Proof. destruct l; [reflexivity|discriminate]. Qed.

Lemma trimStartL_keeps c l : In c l -> isSpace c = false -> In c (trimStartL l).
Proof.
  induction l as [|a l IH]; intros Hin Hc; [destruct Hin|].
  simpl. destruct (isSpace a) eqn:Ha.
  - destruct Hin as [->|Hin]; [congruence|]. apply IH; assumption.
  - exact Hin.
Qed.

(** Trimming keeps every character that is not white space. *)
Lemma trim_not_blank s c :
  In c (chars s) -> isSpace c = false -> String.eqb (trim s) "" = false.
Proof.
  intros Hin Hc. apply String.eqb_neq. intros E. apply str_nil in E.
  unfold trimL, trimEndL in E.
  assert (H : In c (rev (trimStartL (rev (trimStartL (chars s)))))).
  { apply in_rev. rewrite rev_involutive.
    apply trimStartL_keeps; [|assumption].
    apply in_rev. rewrite rev_involutive.
    apply trimStartL_keeps; assumption. }
  rewrite E in H. destruct H.
Qed.

Lemma join_arrow_not_blank x y rest :
  String.eqb (trim (join " -> " (x :: y :: rest))) "" = false.
Proof.
  apply (trim_not_blank _ "-"%char); [|reflexivity].
  change (join " -> " (x :: y :: rest)) with (x +:+ " -> " +:+ join " -> " (y :: rest)).
  rewrite !chars_append. apply in_or_app. right. apply in_or_app. left.
  simpl. auto.
Qed.

Section Resolver.
Context {rt : Runtime}.

(** What [#resolveVariableChain] does once the entry of the path is in the
    cache: lines 274 to 282. *)
Definition readCached (s variable : string) (chain : list string) : M value :=
  bind (read (fun this => default VUndef (bank this !! variable))) (fun cached =>
  bind (if (0 <? length chain)%nat then
          bind (read (fun this => default ∅ (dependencies this !! variable))) (fun deps =>
          update (setDependencies variable (addAll chain deps)))
        else ret tt) (fun _ =>
  if isUndef cached then ret (VStr s) else ret cached)).

Lemma resolveVariableChain_eq fuel s variable chain :
  resolveVariableChain fuel s variable chain
  = if String.eqb variable "" then ret (VStr s)
    else if bool_decide (variable ∈ chain) then throw (circular (chain ++ [variable]))
    else
      bind (read (fun this => bool_decide (is_Some (bank this !! variable)))) (fun has =>
      if negb has then
        bind (update (setBank variable VUndef)) (fun _ =>
        bind (update (noteResolution variable)) (fun _ =>
        match fuel with
        | O => lift OutOfFuel
        | S fuel' =>
            bind (fun this => (resolveVariable fuel' this (VStr ("$" +:+ variable)), this))
              (fun configValue =>
            if isUndef configValue then ret (VStr s)
            else
              bind (translateVariables fuel' configValue (chain ++ [variable])) (fun formatted =>
              bind (update (setBank variable formatted)) (fun _ =>
              readCached s variable chain)))
        end))
      else readCached s variable chain).
Proof. destruct fuel; reflexivity. Qed.

(** C2, as amended. Resolving a path that is not empty and is already in
    the chain fails at once, the instance unchanged, with a [ReferenceError]
    whose message is the fixed text [Circular dependency detected] and whose
    hint is the chain with the path appended, joined by [ -> ]. *)
Theorem resolveVariableChain_cycle_hint (fuel : nat) (s variable : string)
        (chain : list string) (this : Config) :
  variable <> "" ->
  variable ∈ chain ->
  resolveVariableChain fuel s variable chain this
  = (Throw (EThrowable {| name := "ReferenceError";
                          message := "Circular dependency detected";
                          hint := Some (join " -> " (chain ++ [variable])) |}),
     this).
Proof.
  intros Hne Hin. rewrite resolveVariableChain_eq.
  apply String.eqb_neq in Hne. rewrite Hne.
  rewrite bool_decide_eq_true_2 by assumption.
  unfold throw, circular, mkThrowable.
  destruct chain as [|x chain]; [inversion Hin|].
  assert (E : String.eqb (trim (join " -> " ((x :: chain) ++ [variable]))) "" = false).
  { destruct chain; apply join_arrow_not_blank. }
  rewrite E. reflexivity.
Qed.

End Resolver.

Lemma resolveVariableChain_cycle_hint_witness :
  fst (resolveVariableChain 0 "$a" "a" ["b"; "a"] (instance (obj [])))
  = Throw (EThrowable {| name := "ReferenceError";
                         message := "Circular dependency detected";
                         hint := Some "b -> a -> a" |}).
Proof.
  rewrite (resolveVariableChain_cycle_hint 0 "$a" "a" ["b"; "a"] (instance (obj []))).
  - reflexivity.
  - discriminate.
  - apply list_elem_of_In. simpl. auto.
Defined.

(** C2, as stated, fails: the message of the error raised for the
    self-reference at path [a] is the fixed text, which does not contain
    [a -> a]; the chain is in the hint. *)
Lemma cycle_message_is_fixed_text :
  fst (get 3 ["a"] (instance (obj [("a", JStr "$a")])))
  = Throw (EThrowable {| name := "ReferenceError";
                         message := "Circular dependency detected";
                         hint := Some "a -> a" |})
  /\ includes "Circular dependency detected" "a -> a" = false.
Proof. split; by_computation. Qed.

(** ** The matcher on the patterns of variable translation *)

Lemma length_chars s : length (chars s) = String.length s.
Proof. induction s as [|c s IH]; simpl; [reflexivity|]. f_equal. exact IH. Qed.

(** One turn of a star over a character class: [rmatch whole (RChar p)]. *)
Definition classStep (p : ascii -> bool) : cont -> cont :=
  fun k s c =>
    match s with
    | a :: s' => if p a then k s' c else None
    | [] => None
    end.

(** A greedy star of a class, before a continuation that accepts only at the
    end of the input, takes everything or fails. *)
Lemma starLoop_class_to_end p (step : cont -> cont) (k : cont) :
  (forall k' s c, step k' s c = classStep p k' s c) ->
  (forall a s c, k (a :: s) c = None) ->
  forall s n c, (length s <= n)%nat ->
  starLoop step k true n s c
  = if forallb p s then k [] c else None.
Proof.
  intros Hstep Hk. induction s as [|a s IH]; intros n c Hn.
  - destruct n; simpl; rewrite ?Hstep; reflexivity.
  - destruct n as [|n]; [simpl in Hn; lia|].
    simpl starLoop. rewrite Hstep. simpl forallb. unfold classStep.
    destruct (p a); simpl.
    + replace (length s <? S (length s))%nat with true
        by (symmetry; apply Nat.ltb_lt; lia).
      rewrite IH by (simpl in Hn; lia).
      rewrite Hk. destruct (forallb p s); [destruct (k [] c)|]; reflexivity.
    + apply Hk.
Qed.

(** A greedy star of a class, before a continuation that accepts anywhere,
    takes the longest run of the class. *)
Fixpoint afterRun (p : ascii -> bool) (s : list ascii) : list ascii :=
  match s with
  | a :: s' => if p a then afterRun p s' else s
  | [] => []
  end.

Lemma starLoop_class_longest p (step : cont -> cont) (k : cont) :
  (forall k' s c, step k' s c = classStep p k' s c) ->
  (forall s c, k s c <> None) ->
  forall s n c, (length s <= n)%nat ->
  starLoop step k true n s c = k (afterRun p s) c.
Proof.
  intros Hstep Hk. induction s as [|a s IH]; intros n c Hn.
  - destruct n; simpl; rewrite ?Hstep; reflexivity.
  - destruct n as [|n]; [simpl in Hn; lia|].
    simpl starLoop. rewrite Hstep. simpl afterRun. unfold classStep.
    destruct (p a); simpl.
    + replace (length s <? S (length s))%nat with true
        by (symmetry; apply Nat.ltb_lt; lia).
      rewrite IH by (simpl in Hn; lia).
      destruct (k (afterRun p s) c) eqn:E; [reflexivity|]. destruct (Hk _ _ E).
    + reflexivity.
Qed.

(** A pattern that starts with [^] matches nowhere but at the start. *)
Lemma execFrom_begin_later ngroups whole r s :
  (length s < whole)%nat -> execFrom ngroups whole (RSeq RBegin r) s = None.
Proof.
  induction s as [|a s IH]; intros Hl.
  - cbn [execFrom]. unfold matchHere. cbn [rmatch].
    replace (length [] =? whole)%nat with false by (symmetry; apply Nat.eqb_neq; lia).
    reflexivity.
  - cbn [execFrom]. unfold matchHere. cbn [rmatch].
    replace (length (a :: s) =? whole)%nat with false
      by (symmetry; apply Nat.eqb_neq; lia).
    apply IH. simpl in Hl. lia.
Qed.

Lemma exec_begin ngroups r s :
  exec ngroups (RSeq RBegin r) s
  = match matchHere ngroups (String.length s) (RSeq RBegin r) (chars s) with
    | Some (s', c) =>
        Some {| m_index := 0;
                m_text := str (take (String.length s - length s') (chars s));
                m_groups := map (fun w => str <$> w) (drop 1 c);
                m_rest := s' |}
    | None => None
    end.
Proof.
  unfold exec. destruct (chars s) as [|a l] eqn:E.
  - cbn [execFrom]. rewrite <- length_chars, E.
    destruct (matchHere ngroups (length []) (RSeq RBegin r) []) as [[s' c]|]; reflexivity.
  - cbn [execFrom]. rewrite <- length_chars, E.
    destruct (matchHere ngroups (length (a :: l)) (RSeq RBegin r) (a :: l)) as [[s' c]|].
    + rewrite Nat.sub_diag. reflexivity.
    + apply execFrom_begin_later. simpl. lia.
Qed.

(** What the code takes for a reference: a dollar, a letter or an
    underscore, then letters, digits, underscores and dots only. The name is
    what follows the dollar. *)
Definition referenceName (s : string) : option string :=
  match chars s with
  | d :: c :: rest =>
      if isChar "$" d && nameStart c && forallb nameChar rest then Some (str (c :: rest))
      else None
  | _ => None
  end.

Lemma exec_reference s :
  exec 1 re_reference s
  = match referenceName s with
    | Some name => Some {| m_index := 0; m_text := s; m_groups := [Some name]; m_rest := [] |}
    | None => None
    end.
Proof.
  unfold re_reference, rseq. cbn [foldr]. rewrite exec_begin.
  unfold matchHere, referenceName.
  cbn [rmatch]. rewrite length_chars, Nat.eqb_refl.
  unfold re_referenceBody, rseq, lit. cbn [foldr rmatch].
  destruct (chars s) as [|d [|c rest]] eqn:E.
  - reflexivity.
  - destruct (isChar "$" d); reflexivity.
  - destruct (isChar "$" d); [|reflexivity]. cbn [andb].
    destruct (nameStart c); [|reflexivity]. cbn [andb].
    rewrite (starLoop_class_to_end nameChar);
      [|intros; reflexivity|intros; reflexivity|lia].
    destruct (forallb nameChar rest); [|reflexivity].
    cbn [length Nat.sub]. rewrite Nat.sub_0_r.
    rewrite <- length_chars, E. cbn [length Nat.sub]. 
    rewrite !take_ge by (simpl; lia). 
    rewrite <- E, str_chars. reflexivity.
Qed.

Lemma execFrom_nowhere ngroups whole r s :
  (forall n, matchHere ngroups whole r (drop n s) = None) ->
  execFrom ngroups whole r s = None.
Proof.
  induction s as [|a s IH]; intros H.
  - pose proof (H 0%nat) as H0. rewrite drop_0 in H0.
    cbn [execFrom]. rewrite H0. reflexivity.
  - pose proof (H 0%nat) as H0. rewrite drop_0 in H0.
    cbn [execFrom]. rewrite H0. apply IH. intros n. apply (H (S n)).
Qed.

Lemma matchAll_nowhere ngroups r s :
  (forall n, matchHere ngroups (String.length s) r (drop n (chars s)) = None) ->
  matchAll ngroups r s = ([], s).
Proof.
  intros H. unfold matchAll. cbn [matchAllFrom].
  rewrite execFrom_nowhere by assumption. rewrite str_chars. reflexivity.
Qed.

(** Text with no opening brace holds no directive block. *)
Definition noBrace (s : string) : bool := forallb (fun c => negb (isChar "{" c)) (chars s).

Lemma forallb_drop {A} (p : A -> bool) l n : forallb p l = true -> forallb p (drop n l) = true.
Proof.
  revert n. induction l as [|a l IH]; intros n H; destruct n; simpl in *; auto.
  apply andb_prop in H as [_ H]. apply IH. exact H.
Qed.

Lemma matchAll_block_none s : noBrace s = true -> matchAll 1 re_block s = ([], s).
Proof.
  intros H. apply matchAll_nowhere. intros n.
  unfold noBrace in H. apply (forallb_drop _ _ n) in H.
  unfold matchHere, re_block, lits, lit, rseq.
  cbn [chars list_ascii_of_string map foldr rmatch].
  destruct (drop n (chars s)) as [|a l]; [reflexivity|].
  simpl in H. apply andb_prop in H as [Ha _]. apply negb_true_iff in Ha.
  rewrite Ha. reflexivity.
Qed.

(** Text in which no dollar is followed by a letter or an underscore. *)
Fixpoint noReferenceL (l : list ascii) : bool :=
  match l with
  | d :: l' =>
      negb (isChar "$" d && match l' with c :: _ => nameStart c | [] => false end)
      && noReferenceL l'
  | [] => true
  end.

Lemma noReferenceL_drop l n : noReferenceL l = true -> noReferenceL (drop n l) = true.
Proof.
  revert n. induction l as [|a l IH]; intros n H; destruct n; simpl in *; auto.
  apply andb_prop in H as [_ H]. apply IH. exact H.
Qed.

Lemma matchAll_reference_none s :
  noReferenceL (chars s) = true -> matchAll 1 re_referenceBody s = ([], s).
Proof.
  intros H. apply matchAll_nowhere. intros n.
  apply (noReferenceL_drop _ n) in H.
  unfold matchHere, re_referenceBody, rseq, lit. cbn [foldr rmatch].
  destruct (drop n (chars s)) as [|d [|c l]]; [reflexivity| |].
  - destruct (isChar "$" d); reflexivity.
  - simpl in H. apply andb_prop in H as [Hd _]. apply negb_true_iff in Hd.
    destruct (isChar "$" d); [|reflexivity]. simpl in Hd. rewrite Hd. reflexivity.
Qed.

Lemma nameChar_noBrace c : nameChar c = true -> negb (isChar "{" c) = true.
Proof.
  intros H. apply negb_true_iff. destruct (isChar "{" c) eqn:E; [|reflexivity].
  apply Ascii.eqb_eq in E. subst c. discriminate H.
Qed.

Lemma referenceName_noBrace s name : referenceName s = Some name -> noBrace s = true.
Proof.
  unfold referenceName, noBrace. destruct (chars s) as [|d [|c rest]]; try discriminate.
  destruct (isChar "$" d) eqn:Hd; [|discriminate].
  destruct (nameStart c) eqn:Hc; [|discriminate].
  destruct (forallb nameChar rest) eqn:Hr; [|discriminate]. intros _.
  simpl. apply Ascii.eqb_eq in Hd. subst d.
  change (negb (isChar "{" "$")) with true. cbn [andb].
  rewrite nameChar_noBrace by (unfold nameChar, nameStart in *;
    apply orb_true_iff in Hc as [Hc|Hc]; rewrite Hc; reflexivity || (rewrite ?orb_true_r; reflexivity)).
  cbn [andb]. clear -Hr. induction rest as [|a rest IH]; [reflexivity|].
  simpl in *. apply andb_prop in Hr as [Ha Hr]. rewrite nameChar_noBrace by assumption.
  apply IH. exact Hr.
Qed.

Lemma prefixL_refl l : prefixL l l = true.
Proof. induction l as [|a l IH]; simpl; [reflexivity|]. rewrite Ascii.eqb_refl. exact IH. Qed.

Lemma removeFirst_self s : removeFirst s s = "".
Proof.
  unfold removeFirst.
  destruct (chars s) as [|a l] eqn:E; [reflexivity|].
  cbn [removeFirstL]. rewrite prefixL_refl. rewrite drop_all. reflexivity.
Qed.

Section Translation.
Context {rt : Runtime}.

Lemma translateVariables_string fuel s chain :
  translateVariables (S fuel) (VStr s) chain
  = bind (replaceAll (fst (matchAll 1 re_block s)) (snd (matchAll 1 re_block s))
            (fun m this => (evaluateLogicBlock fuel this (m_text m), this))) (fun value =>
    let continue :=
      bind (replaceAll (fst (matchAll 1 re_referenceBody value))
                       (snd (matchAll 1 re_referenceBody value))
              (fun m => resolveVariableChain fuel (m_text m) (default "" (group m 1)) chain))
           (fun value => parsePrimitiveValue (VStr value)) in
    match exec 1 re_reference s with
    | Some fullMatch =>
        if (String.length (trim (removeFirst value (m_text fullMatch))) =? 0)%nat
        then resolveVariableChain fuel (m_text fullMatch) (default "" (group fullMatch 1)) chain
        else continue
    | None => continue
    end).
Proof. reflexivity. Qed.



End Translation.



(** ** Induction on trees *)

Section JsvalInduction.
Context {num : Type} (P : jsval num -> Prop).
Hypothesis case_undef : P JUndef.
Hypothesis case_null : P JNull.
Hypothesis case_bool : forall b, P (JBool b).
Hypothesis case_num : forall n, P (JNum n).
Hypothesis case_str : forall s, P (JStr s).
Hypothesis case_arr : forall items, Forall P items -> P (JArr items).
Hypothesis case_obj : forall fields, Forall (fun kv => P (snd kv)) fields -> P (JObj fields).

Fixpoint jsval_nested_ind (t : jsval num) : P t :=
  match t with
  | JUndef => case_undef
  | JNull => case_null
  | JBool b => case_bool b
  | JNum n => case_num n
  | JStr s => case_str s
  | JArr items =>
      case_arr items
        ((fix go (l : list (jsval num)) : Forall P l :=
            match l with
            | [] => @List.Forall_nil _ P
            | t' :: l' => @List.Forall_cons _ P t' l' (jsval_nested_ind t') (go l')
            end) items)
  | JObj fields =>
      case_obj fields
        ((fix go (l : list (string * jsval num)) : Forall (fun kv => P (snd kv)) l :=
            match l with
            | [] => @List.Forall_nil _ (fun kv => P (snd kv))
            | kv :: l' =>
                @List.Forall_cons _ (fun kv => P (snd kv)) kv l'
                  (match kv return P (snd kv) with (k, t') => jsval_nested_ind t' end) (go l')
            end) fields)
  end.
End JsvalInduction.

(** ** The memo cache *)

Section Memo.
Context {rt : Runtime}.

(** [grows this this']: what a method may do to an instance. The tree is the
    same object, the store has only grown, every entry of the cache is as it
    was, and the paths resolved since were not in the cache before, are in it
    now, and were resolved once each. *)
Definition grows (this this' : Config) : Prop :=
  config this' = config this
  /\ mem this `prefix_of` mem this'
  /\ bank this ⊆ bank this'
  /\ exists l, resolutions this' = resolutions this ++ l
               /\ NoDup l
               /\ forall p, p ∈ l -> bank this !! p = None /\ is_Some (bank this' !! p).

Lemma nothing_resolved (this this' : Config) :
  resolutions this' = resolutions this ->
  exists l, resolutions this' = resolutions this ++ l
            /\ NoDup l
            /\ forall p, p ∈ l -> bank this !! p = None /\ is_Some (bank this' !! p).
Proof.
  intros E. exists []. rewrite app_nil_r. split; [exact E|]. split; [apply NoDup_nil_2|].
  intros p Hp. inversion Hp.
Qed.

Lemma grows_refl this : grows this this.
Proof.
  split; [reflexivity|]. split; [reflexivity|]. split; [reflexivity|].
  apply nothing_resolved. reflexivity.
Qed.

Lemma bank_absent_before (b b' : gmap string value) p :
  b ⊆ b' -> b' !! p = None -> b !! p = None.
Proof.
  intros Hsub Hn. destruct (b !! p) as [x|] eqn:E; [|reflexivity].
  eapply lookup_weaken in E; [|exact Hsub]. congruence.
Qed.

Lemma bank_present_after (b b' : gmap string value) p :
  b ⊆ b' -> is_Some (b !! p) -> is_Some (b' !! p).
Proof. intros Hsub [x E]. exists x. eapply lookup_weaken; eassumption. Qed.

Lemma grows_trans a b c : grows a b -> grows b c -> grows a c.
Proof.
  intros (Hc1 & Hm1 & Hb1 & l1 & Hr1 & Hd1 & Hl1) (Hc2 & Hm2 & Hb2 & l2 & Hr2 & Hd2 & Hl2).
  split; [congruence|]. split; [etrans; eassumption|]. split; [etrans; eassumption|].
  exists (l1 ++ l2). split; [|split].
  - rewrite Hr2, Hr1, app_assoc. reflexivity.
  - apply NoDup_app. split; [assumption|]. split; [|assumption].
    intros p Hp1 Hp2. destruct (Hl1 p Hp1) as [_ [x Hx]].
    destruct (Hl2 p Hp2) as [Hn _]. congruence.
  - intros p Hp. apply elem_of_app in Hp as [Hp|Hp].
    + split; [apply Hl1, Hp|]. eapply bank_present_after; [exact Hb2|]. apply Hl1, Hp.
    + split; [|apply Hl2, Hp]. eapply bank_absent_before; [exact Hb1|]. apply Hl2, Hp.
Qed.

(** A computation that lets the instance grow, whatever its outcome. *)
Definition growing {A : Type} (m : M A) : Prop :=
  forall this r this', m this = (r, this') -> grows this this'.

Lemma growing_ret {A} (a : A) : growing (ret a).
Proof. intros this r this' E. injection E as <- <-. apply grows_refl. Qed.

Lemma growing_throw {A} e : growing (@throw _ A e).
Proof. intros this r this' E. injection E as <- <-. apply grows_refl. Qed.

Lemma growing_lift {A} (o : outcome A) : growing (lift o).
Proof. intros this r this' E. injection E as <- <-. apply grows_refl. Qed.

Lemma growing_read {A} (f : Config -> A) : growing (read f).
Proof. intros this r this' E. injection E as <- <-. apply grows_refl. Qed.

Lemma growing_pure {A} (f : Config -> outcome A) : growing (fun this => (f this, this)).
Proof. intros this r this' E. injection E as <- <-. apply grows_refl. Qed.

Lemma growing_bind {A B} (m : M A) (f : A -> M B) :
  growing m -> (forall a, growing (f a)) -> growing (bind m f).
Proof.
  intros Hm Hf this r this' E. unfold bind in E.
  destruct (m this) as [[a|e|] this1] eqn:Em.
  - eapply grows_trans; [eapply Hm; exact Em|eapply Hf; exact E].
  - injection E as <- <-. eapply Hm; exact Em.
  - injection E as <- <-. eapply Hm; exact Em.
Qed.

Lemma grows_setMem this h : mem this `prefix_of` h -> grows this (setMem h this).
Proof.
  intros Hp. split; [reflexivity|]. split; [exact Hp|]. split; [reflexivity|].
  apply nothing_resolved. reflexivity.
Qed.

Lemma grows_setDependencies this variable deps :
  grows this (setDependencies variable deps this).
Proof.
  split; [reflexivity|]. split; [reflexivity|]. split; [reflexivity|].
  apply nothing_resolved. reflexivity.
Qed.

Lemma store_prefix (t : jsval num) : forall h v h', store t h = (v, h') -> h `prefix_of` h'.
Proof.
  induction t as [| | | | |items IH|fields IH] using jsval_nested_ind; intros h v h' E.
  1-5: simpl in E; injection E as <- <-; reflexivity.
  - cbn [store] in E.
    match type of E with
    | (let '(vs, h') := ?go items h in _) = _ => 
        assert (Hgo : forall h vs h1, go items h = (vs, h1) -> h `prefix_of` h1)
    end.
    { clear E. induction IH as [|t items Ht Hitems IHl]; intros h0 vs h1 E.
      - injection E as <- <-. reflexivity.
      - destruct (store t h0) as [v0 h2] eqn:E1.
        match type of E with
        | (let '(vs, h2) := ?g in _) = _ => destruct g as [vs' h3] eqn:E2
        end.
        injection E as <- <-. etrans; [eapply Ht; exact E1|]. eapply IHl. exact E2. }
    match type of E with
    | (let '(vs, h') := ?g in _) = _ => destruct g as [vs h1] eqn:E1
    end.
    injection E as <- <-. etrans; [eapply Hgo; exact E1|]. apply prefix_app_r. reflexivity.
  - cbn [store] in E.
    match type of E with
    | (let '(vs, h') := ?go fields h in _) = _ => 
        assert (Hgo : forall h vs h1, go fields h = (vs, h1) -> h `prefix_of` h1)
    end.
    { clear E. induction IH as [|[k t] fields Ht Hfields IHl]; intros h0 vs h1 E.
      - injection E as <- <-. reflexivity.
      - simpl in Ht. destruct (store t h0) as [v0 h2] eqn:E1.
        match type of E with
        | (let '(vs, h2) := ?g in _) = _ => destruct g as [vs' h3] eqn:E2
        end.
        injection E as <- <-. etrans; [eapply Ht; exact E1|]. eapply IHl. exact E2. }
    match type of E with
    | (let '(vs, h') := ?g in _) = _ => destruct g as [vs h1] eqn:E1
    end.
    injection E as <- <-. etrans; [eapply Hgo; exact E1|]. apply prefix_app_r. reflexivity.
Qed.

Lemma growing_new c : growing (new c).
Proof.
  intros this r this' E. unfold new, alloc in E. injection E as <- <-.
  apply grows_setMem. apply prefix_app_r. reflexivity.
Qed.

Lemma growing_parsePrimitiveValue v : growing (parsePrimitiveValue v).
Proof.
  unfold parsePrimitiveValue. destruct v; try apply growing_ret.
  destruct (negb (String.eqb (trim s) "")); [|apply growing_ret].
  destruct (String.eqb (toLowerCase (trim s)) "true" || String.eqb (toLowerCase (trim s)) "false");
    [apply growing_ret|].
  destruct (num_isFinite (Number_of_string s)); [apply growing_ret|].
  destruct (JSON_parse s) as [parsed|]; [|apply growing_ret].
  intros this r this' E. destruct (store parsed (mem this)) as [v h] eqn:Es.
  injection E as <- <-. apply grows_setMem. eapply store_prefix. exact Es.
Qed.

Lemma growing_replaceAll pieces tail (f : rmatched -> M value) :
  (forall m, growing (f m)) -> growing (replaceAll pieces tail f).
Proof.
  intros Hf. induction pieces as [|[before m] pieces IH]; cbn [replaceAll].
  - apply growing_ret.
  - apply growing_bind; [apply Hf|]. intros v.
    apply growing_bind; [apply growing_read|]. intros h.
    apply growing_bind; [exact IH|]. intros rest. apply growing_ret.
Qed.

Lemma growing_mapValues (f : value -> M value) items :
  (forall v, growing (f v)) -> growing (mapValues f items).
Proof.
  intros Hf. induction items as [|v items IH]; cbn [mapValues].
  - apply growing_ret.
  - apply growing_bind; [apply Hf|]. intros v'.
    apply growing_bind; [exact IH|]. intros vs. apply growing_ret.
Qed.

Lemma growing_update_dependencies variable deps :
  growing (update (setDependencies variable deps)).
Proof. intros this r this' E. injection E as <- <-. apply grows_setDependencies. Qed.

Lemma growing_readCached s variable chain : growing (readCached s variable chain).
Proof.
  unfold readCached. apply growing_bind; [apply growing_read|]. intros cached.
  apply growing_bind.
  - destruct (0 <? length chain)%nat; [|apply growing_ret].
    apply growing_bind; [apply growing_read|]. intros deps.
    apply growing_update_dependencies.
  - intros _. destruct (isUndef cached); apply growing_ret.
Qed.

(** The cache and the list of resolutions are left alone by [readCached]. *)
Lemma readCached_keeps s variable chain this r this' :
  readCached s variable chain this = (r, this') ->
  mem this' = mem this /\ config this' = config this
  /\ bank this' = bank this /\ resolutions this' = resolutions this
  /\ r = Ret (if isUndef (default VUndef (bank this !! variable)) then VStr s
              else default VUndef (bank this !! variable)).
Proof.
  unfold readCached, bind, read, update, ret.
  destruct (0 <? length chain)%nat; cbn;
    destruct (isUndef (default VUndef (bank this !! variable)));
    intros E; injection E as <- <-; repeat split; reflexivity.
Qed.

(** The entry of a path is made once: from an instance whose cache has no
    entry for [variable], marking the entry, noting the resolution, letting
    the instance grow and then storing the result gives an instance that has
    grown. *)
Lemma grows_memo this this2 variable formatted :
  bank this !! variable = None ->
  grows (noteResolution variable (setBank variable VUndef this)) this2 ->
  grows this (setBank variable formatted this2).
Proof.
  intros Hn (Hc & Hm & Hb & l & Hr & Hd & Hl). cbn in Hc, Hm, Hb, Hr, Hl.
  split; [exact Hc|]. split; [exact Hm|]. split.
  - cbn. apply map_subseteq_spec. intros p x Hp.
    assert (p <> variable) by congruence.
    rewrite lookup_insert_ne by congruence.
    eapply lookup_weaken; [|exact Hb]. rewrite lookup_insert_ne by congruence. exact Hp.
  - exists (variable :: l). cbn. split; [|split].
    + rewrite Hr, <- app_assoc. reflexivity.
    + apply NoDup_cons. split; [|exact Hd].
      intros Hin. destruct (Hl _ Hin) as [Hx _]. rewrite lookup_insert_eq in Hx. discriminate.
    + intros p Hp. apply elem_of_cons in Hp as [->|Hp].
      * split; [exact Hn|]. rewrite lookup_insert_eq. eauto.
      * destruct (Hl _ Hp) as [Hx [y Hy]].
        assert (p <> variable) by (intros ->; rewrite lookup_insert_eq in Hx; discriminate).
        rewrite lookup_insert_ne in Hx by congruence.
        split; [exact Hx|]. rewrite lookup_insert_ne by congruence. eauto.
Qed.

Lemma grows_marked this variable :
  bank this !! variable = None ->
  grows this (noteResolution variable (setBank variable VUndef this)).
Proof.
  intros Hn. split; [reflexivity|]. split; [reflexivity|]. split.
  - cbn. apply insert_subseteq. exact Hn.
  - exists [variable]. cbn. split; [reflexivity|]. split.
    + apply NoDup_singleton.
    + intros p Hp. apply list_elem_of_singleton in Hp as ->.
      split; [exact Hn|]. rewrite lookup_insert_eq. eauto.
Qed.

(** Every call of the two methods lets the instance grow. *)
Lemma growing_translation fuel :
  (forall s variable chain, growing (resolveVariableChain fuel s variable chain))
  /\ (forall value chain, growing (translateVariables fuel value chain)).
Proof.
  induction fuel as [|fuel [IHr IHt]].
  - split.
    + intros s variable chain. rewrite resolveVariableChain_eq.
      destruct (String.eqb variable ""); [apply growing_ret|].
      destruct (bool_decide (variable ∈ chain)); [apply growing_throw|].
      intros this r this' E. unfold bind at 1 in E. unfold read at 1 in E.
      destruct (bool_decide (is_Some (bank this !! variable))) eqn:Eh; cbn [negb] in E.
      * eapply growing_readCached. exact E.
      * injection E as <- <-. apply grows_marked.
        apply bool_decide_eq_false_1 in Eh. apply eq_None_not_Some. exact Eh.
    + intros value chain. apply growing_lift.
  - split.
    + intros s variable chain. rewrite resolveVariableChain_eq.
      destruct (String.eqb variable ""); [apply growing_ret|].
      destruct (bool_decide (variable ∈ chain)); [apply growing_throw|].
      intros this r this' E. unfold bind at 1 in E. unfold read at 1 in E.
      destruct (bool_decide (is_Some (bank this !! variable))) eqn:Eh; cbn [negb] in E.
      * eapply growing_readCached. exact E.
      * apply bool_decide_eq_false_1 in Eh. apply eq_None_not_Some in Eh.
        pose proof (grows_marked this variable Eh) as Hmark.
        unfold bind at 1 2 3 in E. unfold update at 1 2 in E.
        destruct (resolveVariable fuel (noteResolution variable (setBank variable VUndef this))
                    (VStr ("$" +:+ variable))) as [configValue|e|];
          [|injection E as <- <-; exact Hmark..].
        destruct (isUndef configValue); [injection E as <- <-; exact Hmark|].
        unfold bind at 1 in E.
        destruct (translateVariables fuel configValue (chain ++ [variable])
                    (noteResolution variable (setBank variable VUndef this)))
          as [[formatted|e|] this2] eqn:Et.
        -- unfold bind at 1 in E. unfold update at 1 in E.
           eapply grows_trans; [|eapply growing_readCached; exact E].
           apply grows_memo; [exact Eh|]. eapply IHt. exact Et.
        -- injection E as <- <-. eapply grows_trans; [exact Hmark|]. eapply IHt. exact Et.
        -- injection E as <- <-. eapply grows_trans; [exact Hmark|]. eapply IHt. exact Et.
    + intros value chain. destruct value as [| | | |s|l].
      5: { rewrite translateVariables_string.
           apply growing_bind.
           - apply growing_replaceAll. intros m. apply (growing_pure (fun this => evaluateLogicBlock fuel this (m_text m))).
           - intros value. cbv zeta.
             assert (Hc : growing (bind (replaceAll (fst (matchAll 1 re_referenceBody value))
                                           (snd (matchAll 1 re_referenceBody value))
                                           (fun m => resolveVariableChain fuel (m_text m)
                                                       (default "" (group m 1)) chain))
                                        (fun value => parsePrimitiveValue (VStr value)))).
             { apply growing_bind.
               - apply growing_replaceAll. intros m. apply IHr.
               - intros v. apply growing_parsePrimitiveValue. }
             destruct (exec 1 re_reference s) as [fullMatch|]; [|exact Hc].
             destruct (String.length (trim (removeFirst value (m_text fullMatch))) =? 0)%nat;
               [apply IHr|exact Hc]. }
      1-4: apply (growing_parsePrimitiveValue _).
      change (translateVariables (S fuel) (VRef l) chain)
        with (bind (read mem) (fun h =>
              match h !! l with
              | Some (CArr items) =>
                  bind (mapValues (fun val => translateVariables fuel val chain) items)
                       (fun vs => new (CArr vs))
              | _ => parsePrimitiveValue (VRef l)
              end)).
      apply growing_bind; [apply growing_read|]. intros h.
      destruct (h !! l) as [[fields|items]|]; try apply growing_parsePrimitiveValue.
      apply growing_bind; [apply growing_mapValues; intros v; apply IHt|].
      intros vs. apply growing_new.
Qed.






Lemma readCached_total s variable chain this :
  exists this', readCached s variable chain this
                = (Ret (if isUndef (default VUndef (bank this !! variable)) then VStr s
                        else default VUndef (bank this !! variable)), this').
Proof.
  unfold readCached, bind, read, update, ret.
  destruct (0 <? length chain)%nat; cbn;
    destruct (isUndef (default VUndef (bank this !! variable))); eauto.
Qed.


(** *** The cache over the calls of [get] *)












End Memo.



(** ** The facade: [get] *)

Section Facade.
Context {rt : Runtime}.








End Facade.


(** ** The fingerprint *)

Section Fingerprint.
Context {rt : Runtime}.





(** How deep a tree nests objects and arrays. *)
Fixpoint depth (t : jsval num) : nat :=
  match t with
  | JArr items =>
      S ((fix go (l : list (jsval num)) : nat :=
            match l with
            | [] => O
            | t' :: l' => Nat.max (depth t') (go l')
            end) items)
  | JObj fields =>
      S ((fix go (l : list (string * jsval num)) : nat :=
            match l with
            | [] => O
            | (_, t') :: l' => Nat.max (depth t') (go l')
            end) fields)
  | _ => O
  end.





(** *** What [get] and [raw] write

    The result of a call is a new object. A key is written by walking down
    the result along the parts of the key. As long as no key continues the
    path of an earlier key of the call, the walk only meets objects that the
    call made itself. *)






























End Fingerprint.


(** A tree with a reference under an object: [{a: {b: "$x"}, x: "hi"}]. *)
Definition referenceUnderObject : jsval znum :=
  obj [("a", obj [("b", JStr "$x")]); ("x", JStr "hi")].



(** * Further properties *)

(** ** Stars of a character class *)

(** What a greedy star of the class [p] does before the continuation [k]:
    it runs as far as the class goes and hands to [k] the longest rest that
    [k] accepts. *)
Fixpoint greedyRun (p : ascii -> bool) (k : cont) (s : list ascii) (c : caps) : mresult :=
  match s with
  | a :: s' => if p a then orElse (greedyRun p k s' c) (fun _ => k s c) else k s c
  | [] => k s c
  end.

(** A lazy star hands to [k] the shortest rest that [k] accepts. *)
Fixpoint lazyRun (p : ascii -> bool) (k : cont) (s : list ascii) (c : caps) : mresult :=
  orElse (k s c) (fun _ =>
    match s with
    | a :: s' => if p a then lazyRun p k s' c else None
    | [] => None
    end).

Lemma starLoop_class_greedy p (step : cont -> cont) (k : cont) :
  (forall k' s c, step k' s c = classStep p k' s c) ->
  forall s n c, (length s <= n)%nat ->
  starLoop step k true n s c = greedyRun p k s c.
Proof.
  intros Hstep. induction s as [|a s IH]; intros n c Hn.
  - destruct n; cbn [starLoop greedyRun]; rewrite ?Hstep; reflexivity.
  - destruct n as [|n]; [simpl in Hn; lia|].
    cbn [starLoop greedyRun]. rewrite Hstep. unfold classStep.
    destruct (p a); [|reflexivity].
    replace (length s <? length (a :: s))%nat with true
      by (symmetry; apply Nat.ltb_lt; simpl; lia).
    rewrite IH by (simpl in Hn; lia). reflexivity.
Qed.

Lemma starLoop_class_lazy p (step : cont -> cont) (k : cont) :
  (forall k' s c, step k' s c = classStep p k' s c) ->
  forall s n c, (length s <= n)%nat ->
  starLoop step k false n s c = lazyRun p k s c.
Proof.
  intros Hstep. induction s as [|a s IH]; intros n c Hn.
  - destruct n; cbn [starLoop lazyRun]; rewrite ?Hstep; unfold classStep;
      destruct (k [] c); reflexivity.
  - destruct n as [|n]; [simpl in Hn; lia|].
    cbn [starLoop lazyRun]. rewrite Hstep. unfold classStep.
    destruct (k (a :: s) c); [reflexivity|]. cbn [orElse].
    destruct (p a); [|reflexivity].
    replace (length s <? length (a :: s))%nat with true
      by (symmetry; apply Nat.ltb_lt; simpl; lia).
    rewrite IH by (simpl in Hn; lia). reflexivity.
Qed.

(** Before a continuation that accepts one last character only, a greedy
    star must take all that is before that character. *)
Lemma greedyRun_before_last p (k : cont) c :
  (forall s, length s <> 1%nat -> k s c = None) ->
  forall s,
    greedyRun p k s c
    = match rev s with
      | z :: ydob => if forallb p ydob then k [z] c else None
      | [] => None
      end.
Proof.
  intros Hk. induction s as [|a s IH].
  - cbn. apply Hk. cbn. lia.
  - destruct s as [|b s].
    + cbn. rewrite (Hk []) by (cbn; lia). destruct (p a); [|reflexivity].
      destruct (k [a] c); reflexivity.
    + cbn [greedyRun] in *. rewrite (Hk (a :: b :: s)) by (cbn; lia).
      assert (E : (if p a then orElse (if p b then orElse (greedyRun p k s c) (fun _ => k (b :: s) c)
                                       else k (b :: s) c) (fun _ => None)
                   else None)
                  = if p a then (if p b then orElse (greedyRun p k s c) (fun _ => k (b :: s) c)
                                 else k (b :: s) c)
                    else None).
      { destruct (p a); [|reflexivity].
        destruct (if p b then _ else _); reflexivity. }
      rewrite E, IH. clear E IH.
      change (rev (a :: b :: s)) with (rev (b :: s) ++ [a]).
      destruct (rev (b :: s)) as [|z ydob] eqn:Er.
      * apply (f_equal (@length _)) in Er. rewrite length_rev in Er. discriminate Er.
      * cbn [app]. rewrite forallb_app. cbn [forallb]. rewrite andb_true_r.
        destruct (p a); [rewrite andb_true_r|rewrite andb_false_r]; reflexivity.
Qed.

(** ** [Utils.trimParens] and [Utils.trimQuotes] *)

(** What is between the first character and the last, when the first is one
    that [open] accepts, the last one that [close] accepts after that first,
    and no line terminator is between them. *)
Definition wrappedBody (open : ascii -> bool) (close : ascii -> ascii -> bool) (s : string)
  : option (list ascii) :=
  match chars s with
  | a :: rest =>
      match rev rest with
      | z :: ydob =>
          if open a && close a z && forallb dot ydob then Some (rev ydob) else None
      | [] => None
      end
  | [] => None
  end.

Definition isQuote (c : ascii) : bool := isChar apostrophe c || isChar quote c.

Lemma exec_parens s :
  exec 1 re_parens s
  = match wrappedBody (isChar "(") (fun _ => isChar ")") s with
    | Some body =>
        Some {| m_index := 0; m_text := s; m_groups := [Some (str body)]; m_rest := [] |}
    | None => None
    end.
Proof.
  unfold re_parens, rseq. cbn [foldr]. rewrite exec_begin.
  unfold matchHere, wrappedBody, lit.
  cbn [rmatch]. rewrite length_chars, Nat.eqb_refl.
  destruct (chars s) as [|a rest] eqn:E; [reflexivity|].
  destruct (isChar "(" a); [|destruct (rev rest); reflexivity]. cbn [andb].
  rewrite (starLoop_class_greedy dot) by (intros; reflexivity || lia).
  rewrite greedyRun_before_last.
  2:{ intros [|x [|y t]] Hl; try reflexivity; [exfalso; apply Hl; reflexivity|].
      cbn. destruct (isChar ")" x); reflexivity. }
  destruct (rev rest) as [|z ydob] eqn:Er; [reflexivity|].
  destruct (forallb dot ydob); [|rewrite andb_false_r; reflexivity].
  rewrite andb_true_r. destruct (isChar ")" z); [|reflexivity].
  assert (Hrest : rest = rev ydob ++ [z]).
  { rewrite <- (rev_involutive rest), Er. reflexivity. }
  assert (Hlen : length rest = S (length ydob)).
  { rewrite Hrest, length_app, length_rev. simpl. lia. }
  cbn [length]. rewrite Hlen.
  replace (S (length ydob) - 1)%nat with (length ydob) by lia.
  rewrite <- length_chars, E. cbn [length]. rewrite Hlen.
  assert (Ht : take (length ydob) rest = rev ydob).
  { rewrite Hrest. rewrite take_app_le by (rewrite length_rev; lia).
    apply take_ge. rewrite length_rev. lia. }
  rewrite Ht.
  rewrite take_ge by (simpl; lia). rewrite <- E, str_chars. reflexivity.
Qed.

Lemma exec_quotes s :
  exec 2 re_quotes s
  = match wrappedBody isQuote Ascii.eqb s with
    | Some body =>
        Some {| m_index := 0; m_text := s;
                m_groups := [Some (str (take 1 (chars s))); Some (str body)];
                m_rest := [] |}
    | None => None
    end.
Proof.
  unfold re_quotes, rseq. cbn [foldr]. rewrite exec_begin.
  unfold matchHere, wrappedBody.
  cbn [rmatch]. rewrite length_chars, Nat.eqb_refl.
  destruct (chars s) as [|a rest] eqn:E; [reflexivity|].
  fold (isQuote a).
  destruct (isQuote a); [|destruct (rev rest); reflexivity]. cbn [andb].
  rewrite (starLoop_class_greedy dot) by (intros; reflexivity || lia).
  assert (Hs : String.length s = S (length rest)) by (rewrite <- length_chars, E; reflexivity).
  rewrite Hs.
  replace (S (length rest) - length rest)%nat with 1%nat by lia.
  cbn [take replicate]. rewrite !take_0. cbn [insert list_insert].
  rewrite greedyRun_before_last.
  2:{ intros [|x [|y t]] Hl; [reflexivity|exfalso; apply Hl; reflexivity|].
      cbn. destruct (Ascii.eqb a x); reflexivity. }
  destruct (rev rest) as [|z ydob] eqn:Er; [reflexivity|].
  destruct (forallb dot ydob); [|rewrite andb_false_r; reflexivity].
  rewrite andb_true_r.
  cbn [lookup list_lookup insert list_insert prefixL].
  destruct (Ascii.eqb a z); [|reflexivity]. cbn [andb length drop].
  assert (Hrest : rest = rev ydob ++ [z]).
  { rewrite <- (rev_involutive rest), Er. reflexivity. }
  assert (Hlen : length rest = S (length ydob)).
  { rewrite Hrest, length_app, length_rev. simpl. lia. }
  rewrite Hlen.
  replace (S (length ydob) - 1)%nat with (length ydob) by lia.
  assert (Ht : take (length ydob) rest = rev ydob).
  { rewrite Hrest. rewrite take_app_le by (rewrite length_rev; lia).
    apply take_ge. rewrite length_rev. lia. }
  rewrite Ht.
  rewrite take_ge by (simpl; lia). rewrite <- E, str_chars. reflexivity.
Qed.

Lemma append_empty_r s : s +:+ "" = s.
Proof.
  induction s as [|a s IH]; [reflexivity|].
  change (String a s +:+ "") with (String a (s +:+ "")). f_equal. exact IH.
Qed.

Lemma forallb_rev_true {A} (p : A -> bool) l : forallb p l = true -> forallb p (rev l) = true.
Proof.
  rewrite !forallb_forall. intros H x Hx. apply H. apply in_rev. exact Hx.
Qed.

Lemma wrappedBody_wrapped open close a body z :
  open a = true -> close a z = true -> forallb dot body = true ->
  wrappedBody open close (str (a :: body ++ [z])) = Some body.
Proof.
  intros Ha Hz Hb. unfold wrappedBody, chars, str.
  rewrite list_ascii_of_string_of_list_ascii.
  rewrite rev_app_distr. cbn [rev app]. rewrite Ha, Hz. cbn [andb].
  rewrite forallb_rev_true by exact Hb. rewrite rev_involutive. reflexivity.
Qed.

Section Trimming.
Context {rt : Runtime}.

(** X1. [Utils.trimParens] removes the pair of parentheses around a text of one
    line, whatever is between them, and trims what is left; any other text
    is only trimmed, and what is no string is returned as it is. *)
Theorem trimParens_strips_one_wrapping_pair :
  (forall s,
      trimParens (VStr s)
      = VStr (match wrappedBody (isChar "(") (fun _ => isChar ")") s with
              | Some body => trim (str body)
              | None => trim s
              end))
  /\ (forall body, forallb dot body = true ->
      trimParens (VStr (str ("("%char :: body ++ [")"%char]))) = VStr (trim (str body)))
  /\ (forall v, (forall s, v <> VStr s) -> trimParens v = v).
Proof.
  assert (H : forall s,
             trimParens (VStr s)
             = VStr (match wrappedBody (isChar "(") (fun _ => isChar ")") s with
                     | Some body => trim (str body)
                     | None => trim s
                     end)).
  { intros s. cbn [trimParens]. f_equal. unfold trimParensS, replaceFirst.
    rewrite exec_parens.
    destruct (wrappedBody (isChar "(") (fun _ => isChar ")") s) as [body|]; [|reflexivity].
    cbn [m_index take m_rest dollar group m_groups lookup list_lookup default from_option id].
    cbn [take str string_of_list_ascii].
    change ("" +:+ str body +:+ "") with (str body +:+ ""). rewrite append_empty_r.
    reflexivity. }
  split; [exact H|]. split.
  - intros body Hb. rewrite H, wrappedBody_wrapped by (reflexivity || exact Hb). reflexivity.
  - intros v Hv. destruct v; try reflexivity. destruct (Hv s eq_refl).
Qed.

(** X2. [Utils.trimQuotes] removes a pair of equal quote characters around a
    text of one line and trims what is left; a text whose first and last
    characters are not the same quote character is only trimmed, and what is
    no string is returned as it is. *)
Theorem trimQuotes_strips_one_matching_pair :
  (forall s,
      trimQuotes (VStr s)
      = VStr (match wrappedBody isQuote Ascii.eqb s with
              | Some body => trim (str body)
              | None => trim s
              end))
  /\ (forall a body, isQuote a = true -> forallb dot body = true ->
      trimQuotes (VStr (str (a :: body ++ [a]))) = VStr (trim (str body)))
  /\ (forall a body z, Ascii.eqb a z = false ->
      trimQuotes (VStr (str (a :: body ++ [z]))) = VStr (trim (str (a :: body ++ [z]))))
  /\ (forall v, (forall s, v <> VStr s) -> trimQuotes v = v).
Proof.
  assert (H : forall s,
             trimQuotes (VStr s)
             = VStr (match wrappedBody isQuote Ascii.eqb s with
                     | Some body => trim (str body)
                     | None => trim s
                     end)).
  { intros s. cbn [trimQuotes]. f_equal. unfold trimQuotesS, replaceFirst.
    rewrite exec_quotes.
    destruct (wrappedBody isQuote Ascii.eqb s) as [body|]; [|reflexivity].
    cbn [m_index take m_rest dollar group m_groups lookup list_lookup default from_option id].
    cbn [take str string_of_list_ascii].
    change ("" +:+ str body +:+ "") with (str body +:+ ""). rewrite append_empty_r.
    reflexivity. }
  split; [exact H|]. split; [|split].
  - intros a body Ha Hb.
    rewrite H, wrappedBody_wrapped by (assumption || apply Ascii.eqb_refl). reflexivity.
  - intros a body z Hz. rewrite H. unfold wrappedBody at 1, chars, str at 1.
    rewrite list_ascii_of_string_of_list_ascii.
    rewrite rev_app_distr. cbn [rev app]. rewrite Hz, andb_false_r. reflexivity.
  - intros v Hv. destruct v; try reflexivity. destruct (Hv s eq_refl).
Qed.

End Trimming.

(** ** [Utils.parsePrimitiveValue] *)

Section Coercion.
Context {rt : Runtime}.

Lemma store_reference (t : jsval num) (h : heap) l h' :
  store t h = (VRef l, h') -> (length h <= l < length h')%nat.
Proof.
  intros E. destruct t; try discriminate E.
  - cbn [store] in E.
    match type of E with
    | (let '(vs, h') := ?go items h in _) = _ =>
        assert (Hgo : forall items h vs h1, go items h = (vs, h1) -> h `prefix_of` h1);
        [|destruct (go items h) as [vs h1] eqn:Eg]
    end.
    { clear. induction items as [|t items IH]; intros h vs h1 E.
      - injection E as <- <-. reflexivity.
      - destruct (store t h) as [v0 h2] eqn:E1.
        match type of E with
        | (let '(vs, h') := ?g in _) = _ => destruct g as [vs' h3] eqn:E2
        end.
        injection E as <- <-. etrans; [eapply store_prefix; exact E1|eapply IH; exact E2]. }
    unfold alloc in E. injection E as <- <-.
    apply Hgo, prefix_length in Eg. rewrite length_app. simpl. lia.
  - cbn [store] in E.
    match type of E with
    | (let '(vs, h') := ?go fields h in _) = _ =>
        assert (Hgo : forall fields h vs h1, go fields h = (vs, h1) -> h `prefix_of` h1);
        [|destruct (go fields h) as [vs h1] eqn:Eg]
    end.
    { clear. induction fields as [|[k t] fields IH]; intros h vs h1 E.
      - injection E as <- <-. reflexivity.
      - destruct (store t h) as [v0 h2] eqn:E1.
        match type of E with
        | (let '(vs, h') := ?g in _) = _ => destruct g as [vs' h3] eqn:E2
        end.
        injection E as <- <-. etrans; [eapply store_prefix; exact E1|eapply IH; exact E2]. }
    unfold alloc in E. injection E as <- <-.
    apply Hgo, prefix_length in Eg. rewrite length_app. simpl. lia.
Qed.

(** X3. [Utils.parsePrimitiveValue] never throws. What is no string, and a
    blank string, is returned as it is. A string comes back as itself, as a
    boolean, as a finite number, or as a new object or array that
    [JSON.parse] made of it: never as another string, as [null] or as
    [undefined]. The words [true] and [false] are read in any case and with
    blanks around them. *)
Theorem parsePrimitiveValue_coerces_or_returns (v : value) (this : Config) :
  exists r this',
    parsePrimitiveValue v this = (Ret r, this')
    /\ grows this this'
    /\ match v with
       | VStr s =>
           (r = v /\ this' = this)
           \/ (exists b, r = VBool b /\ this' = this)
           \/ (exists n, r = VNum n /\ num_isFinite n = true /\ this' = this)
           \/ (exists l, r = VRef l /\ (length (mem this) <= l < length (mem this'))%nat)
       | _ => r = v /\ this' = this
       end
    /\ (forall s, v = VStr s -> String.eqb (trim s) "" = true -> r = v)
    /\ (forall s, v = VStr s -> toLowerCase (trim s) = "true" -> r = VBool true)
    /\ (forall s, v = VStr s -> toLowerCase (trim s) = "false" -> r = VBool false).
Proof.
  destruct (parsePrimitiveValue v this) as [o this'] eqn:E.
  pose proof (growing_parsePrimitiveValue v _ _ _ E) as Hg.
  destruct v as [| |b0|n0|s|l0];
    try (cbv [parsePrimitiveValue ret] in E; injection E as <- <-; eexists _, _;
         split; [reflexivity|]; split; [exact Hg|]; split; [split; reflexivity|];
         split; [|split]; intros s' Hs'; discriminate Hs').
  cbn [parsePrimitiveValue] in E. unfold ret in E.
  destruct (String.eqb (trim s) "") eqn:Eb; cbn [negb] in E.
  { injection E as <- <-. exists (VStr s), this. split; [reflexivity|]. split; [exact Hg|].
    split; [left; split; reflexivity|]. split; [reflexivity|].
    apply String.eqb_eq in Eb.
    split; intros s' Hs' Hl; injection Hs' as <-; rewrite Eb in Hl; discriminate Hl. }
  destruct (String.eqb (toLowerCase (trim s)) "true") eqn:Et.
  { cbn [orb] in E. injection E as <- <-. exists (VBool true), this.
    split; [reflexivity|]. split; [exact Hg|].
    split; [right; left; eauto|]. apply String.eqb_eq in Et.
    split; [intros s' Hs' Hb; injection Hs' as <-; congruence|].
    split; [reflexivity|]. intros s' Hs' Hl. injection Hs' as <-. congruence. }
  destruct (String.eqb (toLowerCase (trim s)) "false") eqn:Ef.
  { cbn [orb] in E. injection E as <- <-. exists (VBool false), this.
    split; [reflexivity|]. split; [exact Hg|].
    split; [right; left; eauto|]. apply String.eqb_eq in Ef.
    split; [intros s' Hs' Hb; injection Hs' as <-; congruence|].
    split; [|reflexivity]. intros s' Hs' Hl. injection Hs' as <-. congruence. }
  cbn [orb] in E.
  assert (Hrest : forall r,
             (forall s', VStr s = VStr s' -> String.eqb (trim s') "" = true -> r = VStr s)
             /\ (forall s', VStr s = VStr s' -> toLowerCase (trim s') = "true" -> r = VBool true)
             /\ (forall s', VStr s = VStr s' -> toLowerCase (trim s') = "false"
                            -> r = VBool false)).
  { intros r. split; [|split]; intros s' Hs' Hl; injection Hs' as <-.
    - congruence.
    - rewrite Hl in Et. discriminate Et.
    - rewrite Hl in Ef. discriminate Ef. }
  destruct (num_isFinite (Number_of_string s)) eqn:En.
  { injection E as <- <-. exists (VNum (Number_of_string s)), this.
    split; [reflexivity|]. split; [exact Hg|].
    split; [right; right; left; eauto|]. apply Hrest. }
  destruct (JSON_parse s) as [parsed|].
  - destruct (store parsed (mem this)) as [v h] eqn:Es.
    injection E as <- <-. exists (ensureObject v (VStr s)), (setMem h this).
    split; [reflexivity|]. split; [exact Hg|]. split; [|apply Hrest].
    destruct v; cbn [ensureObject].
    6:{ right; right; right. exists l. split; [reflexivity|]. cbn [mem setMem].
        eapply store_reference. exact Es. }
    all: left; split; [reflexivity|].
    all: destruct parsed; cbn [store] in Es; try discriminate Es;
      try (injection Es as Hh; subst h; destruct this; reflexivity).
    all: match type of Es with
         | (let '(vs, h') := ?g in _) = _ => destruct g as [vs h1]
         end; discriminate Es.
  - injection E as <- <-. exists (VStr s), this.
    split; [reflexivity|]. split; [exact Hg|]. split; [left; split; reflexivity|].
    apply Hrest.
Qed.

End Coercion.

(** ** [#resolveConfigPath] *)

Section PathLookup.
Context {rt : Runtime}.







End PathLookup.

(** ** [evalLogical]: chains of operands *)

Definition isKeyword (token : string) : bool :=
  String.eqb token "and" || String.eqb token "or".

(** The tokens of operands joined by one keyword. *)
Definition joined (op : string) (operands : list string) : list string :=
  match operands with
  | [] => []
  | x :: rest => x :: concat (map (fun y => [op; y]) rest)
  end.

(** Evaluate every operand in turn and keep the value of the last. *)
Fixpoint lastOf (ev : string -> outcome bool) (r : bool) (operands : list string)
  : outcome bool :=
  match operands with
  | [] => Ret r
  | x :: rest => obind (ev x) (fun r' => lastOf ev r' rest)
  end.

(** Evaluate the operands in turn up to the first that is true. *)
Fixpoint firstTrue (ev : string -> outcome bool) (operands : list string) : outcome bool :=
  match operands with
  | [] => Ret false
  | x :: rest => obind (ev x) (fun r => if r then Ret true else firstTrue ev rest)
  end.

Lemma combineTokens_and_rest ev rest : forall r,
  Forall (fun x => isKeyword x = false) rest ->
  combineTokens ev (concat (map (fun y => ["and"; y]) rest)) (Some r) None
  = lastOf ev r rest.
Proof.
  induction rest as [|x rest IH]; intros r Hk; [reflexivity|].
  apply Forall_cons in Hk as [Hx Hk]. unfold isKeyword in Hx.
  cbn [map concat app combineTokens lastOf].
  change (String.eqb "and" "and" || String.eqb "and" "or") with true. cbv iota.
  rewrite Hx. cbn [default from_option id isOp].
  change (String.eqb "and" "and") with true.
  destruct r; cbn [negb andb]; destruct (ev x) as [r'|e|]; cbn [obind];
    try reflexivity; apply IH; exact Hk.
Qed.

Lemma combineTokens_or_rest ev rest : forall r,
  Forall (fun x => isKeyword x = false) rest ->
  combineTokens ev (concat (map (fun y => ["or"; y]) rest)) (Some r) None
  = if r then Ret true else firstTrue ev rest.
Proof.
  induction rest as [|x rest IH]; intros r Hk; [destruct r; reflexivity|].
  apply Forall_cons in Hk as [Hx Hk]. unfold isKeyword in Hx.
  cbn [map concat app combineTokens firstTrue].
  change (String.eqb "or" "and" || String.eqb "or" "or") with true. cbv iota.
  rewrite Hx. cbn [default from_option id isOp].
  change (String.eqb "or" "and") with false. change (String.eqb "or" "or") with true.
  destruct r; cbn [negb andb]; [reflexivity|].
  destruct (ev x) as [r'|e|]; cbn [obind]; try reflexivity. apply IH. exact Hk.
Qed.

Section Chains.
Context {rt : Runtime}.

(** The condition is not one pair of parentheses around everything, and
    does not begin with [not]: [evalLogical] goes on to its tokens. *)
Definition plain (cond : string) : bool :=
  negb (startsWith (trim cond) "(" && endsWith (trim cond) ")"
        && balancedLoop (chars (trim cond)) 0 (len (trim cond)) 0)
  && negb (test re_not (trim cond)).

(** X5. In a chain of operands joined by [and], every operand is evaluated, from
    left to right, and an error of one is the error of the chain; the value
    of the chain is the value of its last operand, whatever the values of the
    operands before it. *)
Theorem evalLogical_and_chain_is_last_operand (this : Config) (fuel : nat) :
  (forall ev operands,
      Forall (fun x => isKeyword x = false) operands ->
      combineTokens ev (joined "and" operands) None None = lastOf ev false operands)
  /\ (forall cond operands,
      plain cond = true ->
      tokenizeCondition (trim cond) = joined "and" operands ->
      (2 <= length operands)%nat ->
      Forall (fun x => isKeyword x = false) operands ->
      evalLogical (S fuel) this cond = lastOf (evalLogical fuel this) false operands).
Proof.
  assert (H : forall ev operands,
             Forall (fun x => isKeyword x = false) operands ->
             combineTokens ev (joined "and" operands) None None = lastOf ev false operands).
  { intros ev [|x rest] Hk; [reflexivity|].
    apply Forall_cons in Hk as [Hx Hk]. unfold isKeyword in Hx.
    cbn [joined combineTokens lastOf]. rewrite Hx. cbn [default from_option id negb].
    destruct (ev x) as [r|e|]; cbn [obind]; try reflexivity.
    apply combineTokens_and_rest. exact Hk. }
  split; [exact H|].
  intros cond operands Hp Ht Hl Hk. rewrite evalLogical_eq. cbv zeta.
  unfold plain in Hp. apply andb_true_iff in Hp as [Hw Hn].
  apply negb_true_iff in Hw. apply negb_true_iff in Hn. rewrite Hw, Hn, Ht.
  destruct operands as [|x [|y rest]]; [simpl in Hl; lia..|].
  rewrite <- H by exact Hk. reflexivity.
Qed.

(** X6. In a chain of operands joined by [or], the operands are evaluated from
    left to right up to the first that is true, which makes the chain true;
    the operands after it are not evaluated. The chain is false when every
    operand is. *)
Theorem evalLogical_or_chain_short_circuits (this : Config) (fuel : nat) :
  (forall ev operands,
      Forall (fun x => isKeyword x = false) operands ->
      combineTokens ev (joined "or" operands) None None = firstTrue ev operands)
  /\ (forall cond operands,
      plain cond = true ->
      tokenizeCondition (trim cond) = joined "or" operands ->
      (2 <= length operands)%nat ->
      Forall (fun x => isKeyword x = false) operands ->
      evalLogical (S fuel) this cond = firstTrue (evalLogical fuel this) operands).
Proof.
  assert (H : forall ev operands,
             Forall (fun x => isKeyword x = false) operands ->
             combineTokens ev (joined "or" operands) None None = firstTrue ev operands).
  { intros ev [|x rest] Hk; [reflexivity|].
    apply Forall_cons in Hk as [Hx Hk]. unfold isKeyword in Hx.
    cbn [joined combineTokens firstTrue]. rewrite Hx. cbn [default from_option id negb].
    destruct (ev x) as [r|e|]; cbn [obind]; try reflexivity.
    apply combineTokens_or_rest. exact Hk. }
  split; [exact H|].
  intros cond operands Hp Ht Hl Hk. rewrite evalLogical_eq. cbv zeta.
  unfold plain in Hp. apply andb_true_iff in Hp as [Hw Hn].
  apply negb_true_iff in Hw. apply negb_true_iff in Hn. rewrite Hw, Hn, Ht.
  destruct operands as [|x [|y rest]]; [simpl in Hl; lia..|].
  rewrite <- H by exact Hk. reflexivity.
Qed.

End Chains.

(** ** [evalLogical]: negation *)

Definition sameLetter (a b : ascii) : bool := Ascii.eqb (lowerChar a) (lowerChar b).

(** What follows the word [not], in any case, and the blanks after it. *)
Definition afterNot (l : list ascii) : option (list ascii) :=
  match l with
  | a :: b :: c :: w :: rest =>
      if sameLetter a "n" && sameLetter b "o" && sameLetter c "t" && isSpace w
      then Some (trimStartL rest) else None
  | _ => None
  end.

Lemma afterRun_space l : afterRun space l = trimStartL l.
Proof.
  induction l as [|a l IH]; [reflexivity|]. cbn [afterRun trimStartL]. unfold space at 1.
  destruct (isSpace a); [exact IH|reflexivity].
Qed.

Lemma exec_not s rest :
  afterNot (chars s) = Some rest ->
  exists text groups,
    exec 0 re_not s
    = Some {| m_index := 0; m_text := text; m_groups := groups; m_rest := rest |}.
Proof.
  unfold afterNot. intros H.
  destruct (chars s) as [|a [|b [|c [|w l]]]] eqn:E; try discriminate H.
  destruct (sameLetter a "n") eqn:Ha; [|discriminate H].
  destruct (sameLetter b "o") eqn:Hb; [|discriminate H].
  destruct (sameLetter c "t") eqn:Hc; [|discriminate H].
  destruct (isSpace w) eqn:Hw; [|discriminate H].
  injection H as <-.
  unfold re_not, rseq. cbn [foldr]. rewrite exec_begin.
  unfold matchHere, litsi, liti, rseq, rplus.
  cbn [chars list_ascii_of_string map foldr rmatch].
  rewrite length_chars, Nat.eqb_refl. rewrite E.
  unfold sameLetter in Ha, Hb, Hc. rewrite Ha, Hb, Hc. unfold space at 1. rewrite Hw.
  rewrite (starLoop_class_longest space) by (intros; reflexivity || discriminate || lia).
  rewrite afterRun_space. eauto.
Qed.

Section Negation.
Context {rt : Runtime}.

(** X7. A condition that begins with [not] and a blank is the negation of all
    that follows, chains of [and] and [or] included: [not] binds less
    tightly than they do. *)
Theorem evalLogical_not_negates_the_remainder (this : Config) (fuel : nat)
        (cond : string) (rest : list ascii) :
  afterNot (chars (trim cond)) = Some rest ->
  evalLogical (S fuel) this cond
  = obind (evalLogical fuel this (str rest)) (fun b => Ret (negb b)).
Proof.
  intros H. rewrite evalLogical_eq. cbv zeta.
  destruct (exec_not _ _ H) as (text & groups & Ex).
  assert (Hw : startsWith (trim cond) "(" = false).
  { unfold startsWith, afterNot in *.
    destruct (chars (trim cond)) as [|a l]; [discriminate H|].
    cbn [chars list_ascii_of_string prefixL]. rewrite andb_true_r.
    destruct (Ascii.eqb "(" a) eqn:Ea; [|reflexivity].
    apply Ascii.eqb_eq in Ea as <-. destruct l as [|b [|c [|w l]]]; discriminate H. }
  rewrite Hw. cbn [andb]. unfold test, replaceFirst. rewrite Ex.
  cbn [m_index m_rest take str string_of_list_ascii]. reflexivity.
Qed.

End Negation.

(** ** [#translateVariables] on what is no string *)

Section Containers.
Context {rt : Runtime}.

Lemma mapValues_length (f : value -> M value) items : forall this vs this',
  mapValues f items this = (Ret vs, this') -> length vs = length items.
Proof.
  induction items as [|v items IH]; intros this vs this' E.
  - injection E as <- <-. reflexivity.
  - cbn [mapValues] in E. unfold bind at 1 in E.
    destruct (f v this) as [[v'|e|] this1]; [|discriminate E..].
    unfold bind at 1 in E.
    destruct (mapValues f items this1) as [[vs'|e|] this2] eqn:Em; [|discriminate E..].
    injection E as <- <-. cbn [length]. f_equal. eapply IH. exact Em.
Qed.

(** X8. [#translateVariables] returns a number, a boolean, [null] and
    [undefined] as they are, and an object as the same object: what is
    inside an object is not translated. Of an array it makes a new array of
    the same length, and leaves the array it was given as it was. *)
Theorem translateVariables_keeps_objects_and_copies_arrays (fuel : nat)
        (chain : list string) (this : Config) :
  (forall v, (forall s, v <> VStr s) -> (forall l, v <> VRef l) ->
      translateVariables (S fuel) v chain this = (Ret v, this))
  /\ (forall l fields, mem this !! l = Some (CObj fields) ->
      translateVariables (S fuel) (VRef l) chain this = (Ret (VRef l), this))
  /\ (forall l items r this',
      mem this !! l = Some (CArr items) ->
      translateVariables (S fuel) (VRef l) chain this = (Ret r, this') ->
      exists l' vs,
        r = VRef l'
        /\ (length (mem this) <= l')%nat
        /\ mem this' !! l' = Some (CArr vs)
        /\ length vs = length items
        /\ mem this' !! l = Some (CArr items)).
Proof.
  split; [|split].
  - intros v Hs Hl. destruct v; try reflexivity.
    + destruct (Hs s eq_refl).
    + destruct (Hl l eq_refl).
  - intros l fields Hl. cbn [translateVariables]. unfold bind at 1. unfold read at 1.
    rewrite Hl. reflexivity.
  - intros l items r this' Hl E.
    cbn [translateVariables] in E. unfold bind at 1 in E. unfold read at 1 in E.
    rewrite Hl in E. unfold bind at 1 in E.
    destruct (mapValues (fun val => translateVariables fuel val chain) items this)
      as [[vs|e|] this1] eqn:Em; [|discriminate E..].
    unfold new, alloc in E. injection E as <- <-.
    assert (Hg : grows this this1).
    { eapply growing_mapValues; [|exact Em]. intros v.
      apply (proj2 (growing_translation fuel)). }
    destruct Hg as (_ & Hp & _).
    exists (length (mem this1)), vs. cbn [mem setMem].
    split; [reflexivity|]. split; [apply prefix_length; exact Hp|].
    split; [rewrite lookup_app_r by lia; rewrite Nat.sub_diag; reflexivity|].
    split; [eapply mapValues_length; exact Em|].
    rewrite lookup_app_l by (eapply Nat.lt_le_trans;
      [eapply lookup_lt_Some; exact Hl|apply prefix_length; exact Hp]).
    eapply prefix_lookup_Some; eassumption.
Qed.

End Containers.

(** ** [raw] *)

Section Raw.
Context {rt : Runtime}.












End Raw.

(** ** [Utils.findBalancedParenBlock]: the offset it returns *)

Lemma scanBlock_taken rest : forall i depth started block b n,
  scanBlock rest i depth started block = (b, n) ->
  exists taken,
    b = rev block ++ taken
    /\ taken `prefix_of` rest
    /\ ((n = (i + length taken)%nat /\ taken <> [])
        \/ (n = S (i + length taken) /\ taken = rest)).
Proof.
  induction rest as [|c rest IH]; intros i depth started block b n E.
  - injection E as <- <-. exists []. rewrite app_nil_r. split; [reflexivity|].
    split; [reflexivity|]. right. split; [simpl; lia|reflexivity].
  - cbn [scanBlock] in E.
    destruct ((if isChar "(" c then true else started)
              && ((if isChar ")" c
                   then (if isChar "(" c then depth + 1 else depth) - 1
                   else if isChar "(" c then depth + 1 else depth) =? 0)).
    + injection E as <- <-. exists [c]. split; [reflexivity|].
      split; [exists rest; reflexivity|]. left. split; [simpl; lia|discriminate].
    + apply IH in E as (taken & -> & Hp & Hn). exists (c :: taken).
      split; [cbn [rev]; rewrite <- app_assoc; reflexivity|].
      split; [apply prefix_cons; exact Hp|].
      destruct Hn as [[-> Hne]|[-> ->]]; [left|right]; (split; [simpl; lia|]);
        [discriminate|reflexivity].
Qed.

(** X10. The block that [Utils.findBalancedParenBlock] returns is the beginning
    of the text from the start offset. The offset it returns is the one
    just after the block when the scan ended at a closing parenthesis; when the
    scan came to the end of the text it is one more than that, so one past the
    length of the text for a start offset within it. It is always after the
    start offset. *)
Theorem findBalancedParenBlock_offset (s : string) (startIdx : nat) :
  chars (fst (findBalancedParenBlock s startIdx)) `prefix_of` drop startIdx (chars s)
  /\ (startIdx < snd (findBalancedParenBlock s startIdx))%nat
  /\ ((snd (findBalancedParenBlock s startIdx)
       = (startIdx + String.length (fst (findBalancedParenBlock s startIdx)))%nat
       /\ fst (findBalancedParenBlock s startIdx) <> "")
      \/ (snd (findBalancedParenBlock s startIdx)
          = S (startIdx + String.length (fst (findBalancedParenBlock s startIdx)))
          /\ chars (fst (findBalancedParenBlock s startIdx)) = drop startIdx (chars s)))
  /\ ((startIdx <= String.length s)%nat ->
      (snd (findBalancedParenBlock s startIdx) <= S (String.length s))%nat).
Proof.
  unfold findBalancedParenBlock.
  destruct (scanBlock (drop startIdx (chars s)) startIdx 0 false []) as [b n] eqn:E.
  apply scanBlock_taken in E as (taken & -> & Hp & Hn). cbn [rev app fst snd].
  rewrite chars_str, <- length_chars, chars_str.
  split; [exact Hp|]. split; [|split].
  - destruct Hn as [[-> Hne]|[-> _]]; [|lia]. destruct taken; [congruence|simpl; lia].
  - destruct Hn as [[-> Hne]|[-> ->]]; [left|right]; (split; [reflexivity|]).
    + intros Hs. apply str_nil in Hs. congruence.
    + reflexivity.
  - intros Hle. apply prefix_length in Hp. rewrite length_drop, length_chars in Hp.
    destruct Hn as [[-> _]|[-> _]]; lia.
Qed.

(** ** References through the cache *)

Lemma trimStartL_subset c l : In c (trimStartL l) -> In c l.
Proof.
  induction l as [|a l IH]; [intros []|]. cbn [trimStartL].
  destruct (isSpace a); [intros H; right; apply IH; exact H|intros H; exact H].
Qed.

Lemma trimL_subset c l : In c (trimL l) -> In c l.
Proof.
  unfold trimL, trimEndL. intros H. apply in_rev in H. apply trimStartL_subset in H.
  apply in_rev in H. apply trimStartL_subset in H. exact H.
Qed.

Lemma noBrace_not_block t : noBrace t = true -> isBlock t = false.
Proof.
  intros Hb. unfold isBlock. apply andb_false_iff. left.
  unfold startsWith. cbn [chars list_ascii_of_string].
  destruct (chars (trim t)) as [|a l] eqn:E; [reflexivity|].
  cbn [prefixL]. destruct (Ascii.eqb "{" a) eqn:Ea; [|reflexivity].
  apply Ascii.eqb_eq in Ea as <-. exfalso.
  assert (Hin : In "{"%char (chars t)).
  { apply trimL_subset. unfold trim in E. rewrite chars_str in E. rewrite E. left. reflexivity. }
  unfold noBrace in Hb. rewrite forallb_forall in Hb. specialize (Hb _ Hin). discriminate Hb.
Qed.

Lemma sliceFrom_one d s : sliceFrom (String d s) 1 = s.
Proof.
  unfold sliceFrom, sliceL. cbn [chars list_ascii_of_string length].
  unfold clampIndex. change (1 <? 0) with false. cbv iota.
  replace (Z.to_nat (Z.min 1 (Z.of_nat (S (length (list_ascii_of_string s)))))) with 1%nat by lia.
  cbn [drop]. rewrite drop_0. replace (S (length (list_ascii_of_string s)) - 1)%nat
    with (length (list_ascii_of_string s)) by lia.
  rewrite take_ge by lia. apply str_chars.
Qed.

Section Fallback.
Context {rt : Runtime}.

Lemma translateVariables_whole_reference fuel chain s name :
  referenceName s = Some name ->
  translateVariables (S fuel) (VStr s) chain = resolveVariableChain fuel s name chain.
Proof.
  intros Hn. rewrite translateVariables_string.
  rewrite matchAll_block_none by (eapply referenceName_noBrace; eassumption).
  cbn [fst snd replaceAll]. rewrite exec_reference, Hn.
  unfold bind at 1. unfold ret at 1. cbn [m_text group default].
  rewrite removeFirst_self. reflexivity.
Qed.

Lemma translateVariables_plain_text fuel chain s :
  noBrace s = true -> noReferenceL (chars s) = true ->
  translateVariables (S fuel) (VStr s) chain = parsePrimitiveValue (VStr s).
Proof.
  intros Hb Hr. rewrite translateVariables_string.
  rewrite matchAll_block_none by assumption. cbn [fst snd replaceAll].
  rewrite exec_reference.
  assert (E : referenceName s = None).
  { unfold referenceName. destruct (chars s) as [|d [|c rest]]; try reflexivity.
    simpl in Hr. apply andb_prop in Hr as [Hd _]. apply negb_true_iff in Hd.
    destruct (isChar "$" d); [|reflexivity]. simpl in Hd. rewrite Hd. reflexivity. }
  rewrite E. unfold bind at 1. unfold ret at 1. cbv zeta.
  rewrite matchAll_reference_none by assumption. reflexivity.
Qed.

(** What [Utils.parsePrimitiveValue] makes of a string depends on the store
    only, and is never [undefined]. *)
Lemma parsePrimitiveValue_of_string s this :
  exists r this',
    parsePrimitiveValue (VStr s) this = (Ret r, this')
    /\ isUndef r = false
    /\ bank this' = bank this /\ resolutions this' = resolutions this
    /\ forall this2, mem this2 = mem this -> fst (parsePrimitiveValue (VStr s) this2) = Ret r.
Proof.
  cbn [parsePrimitiveValue]. unfold ret.
  destruct (negb (String.eqb (trim s) "")); [|eexists _, _; repeat split].
  destruct (String.eqb (toLowerCase (trim s)) "true" || String.eqb (toLowerCase (trim s)) "false");
    [eexists _, _; repeat split|].
  destruct (num_isFinite (Number_of_string s)); [eexists _, _; repeat split|].
  destruct (JSON_parse s) as [parsed|]; [|eexists _, _; repeat split].
  destruct (store parsed (mem this)) as [v h] eqn:Es.
  exists (ensureObject v (VStr s)), (setMem h this).
  split; [reflexivity|]. split; [destruct v; reflexivity|]. split; [reflexivity|].
  split; [reflexivity|]. intros this2 Hm. rewrite Hm, Es. reflexivity.
Qed.

(** X11. A reference to a path that has no entry in the cache, and for which the
    tree or else the environment holds a text without braces and without
    references, is translated to that text as [Utils.parsePrimitiveValue]
    coerces it, and the result is the entry of the path in the cache from
    then on. When the tree has nothing at the path, the text is the value of
    the environment variable of that name, trimmed. *)
Theorem reference_is_coerced_and_cached (fuel : nat) (name : string) (this : Config) :
  (forall t,
      referenceName ("$" +:+ name) = Some name ->
      bank this !! name = None ->
      resolveVariable 0 this (VStr ("$" +:+ name)) = Ret (VStr t) ->
      noBrace t = true -> noReferenceL (chars t) = true ->
      exists r this',
        translateVariables (S (S (S fuel))) (VStr ("$" +:+ name)) [] this = (Ret r, this')
        /\ fst (parsePrimitiveValue (VStr t) this) = Ret r
        /\ bank this' !! name = Some r
        /\ resolutions this' = resolutions this ++ [name])
  /\ (forall e,
      referenceName ("$" +:+ name) = Some name ->
      resolveConfigPath this name = VUndef ->
      Bun_env name = Some e ->
      noBrace (trim e) = true ->
      resolveVariable 0 this (VStr ("$" +:+ name)) = Ret (VStr (trim e))).
Proof.
  assert (Hname : referenceName ("$" +:+ name) = Some name ->
                  String.eqb name "" = false /\ String.eqb (trim name) "" = false).
  { unfold referenceName. change (chars ("$" +:+ name)) with ("$"%char :: chars name).
    destruct (chars name) as [|c rest] eqn:E; [discriminate|].
    destruct (isChar "$" "$" && nameStart c && forallb nameChar rest) eqn:Hc; [|discriminate].
    intros _. apply andb_prop in Hc as [Hc _]. apply andb_prop in Hc as [_ Hc].
    split.
    - apply String.eqb_neq. intros ->. discriminate E.
    - apply (trim_not_blank _ c); [rewrite E; left; reflexivity|].
      unfold nameStart, alpha, between, isChar in Hc. unfold isSpace.
      destruct c as [[] [] [] [] [] [] [] []]; try reflexivity; discriminate Hc. }
  split.
  - intros t Hn Hb Hv Hbrace Href.
    destruct (Hname Hn) as [Hne Hnb].
    rewrite translateVariables_whole_reference with (name := name) by exact Hn.
    rewrite resolveVariableChain_eq, Hne.
    rewrite bool_decide_eq_false_2 by (intros Hin; inversion Hin).
    unfold bind at 1. unfold read at 1.
    rewrite bool_decide_eq_false_2 by (rewrite Hb; intros [x Hx]; discriminate Hx).
    cbn [negb]. unfold bind at 1. unfold update at 1. unfold bind at 1. unfold update at 1.
    unfold bind at 1.
    set (mid := noteResolution name (setBank name VUndef this)).
    assert (Hr : resolveVariable (S fuel) mid (VStr ("$" +:+ name)) = Ret (VStr t)).
    { rewrite resolveVariable_eq in Hv |- *.
      change (resolveConfigPath mid) with (resolveConfigPath this).
      destruct (negb (startsWith ("$" +:+ name) "$")); [exact Hv|].
      destruct (String.eqb (trim (sliceFrom ("$" +:+ name) 1)) ""); [exact Hv|].
      cbv zeta in Hv |- *.
      destruct (if isUndef (resolveConfigPath this (sliceFrom ("$" +:+ name) 1))
                then match Bun_env (sliceFrom ("$" +:+ name) 1) with
                     | Some e => VStr (trim e)
                     | None => VUndef
                     end
                else resolveConfigPath this (sliceFrom ("$" +:+ name) 1)) as [| |b|n|s|l];
        try exact Hv.
      destruct (isBlock s); [discriminate Hv|exact Hv]. }
    rewrite Hr. cbn [isUndef]. unfold bind at 1.
    rewrite translateVariables_plain_text by assumption.
    destruct (parsePrimitiveValue_of_string t mid) as (r & this2 & Ep & Hu & Hb2 & Hr2 & Hsame).
    rewrite Ep. unfold bind at 1. unfold update at 1.
    fold (readCached ("$" +:+ name) name [] (setBank name r this2)).
    destruct (readCached_total ("$" +:+ name) name [] (setBank name r this2)) as [this3 E3].
    pose proof (readCached_keeps _ _ _ _ _ _ E3) as (_ & _ & Hb3 & Hr3 & _).
    cbn [bank setBank] in E3. rewrite lookup_insert_eq in E3. cbn [default from_option id] in E3.
    rewrite Hu in E3. exists r, this3. split; [exact E3|]. split; [|split].
    + apply Hsame. reflexivity.
    + rewrite Hb3. cbn [bank setBank]. apply lookup_insert_eq.
    + rewrite Hr3. cbn [resolutions setBank]. rewrite Hr2. reflexivity.
  - intros e Hn Hc He Hbrace. destruct (Hname Hn) as [Hne Hnb].
    rewrite resolveVariable_eq.
    change ("$" +:+ name) with (String "$" name). rewrite sliceFrom_one.
    change (negb (startsWith (String "$" name) "$")) with false. cbv iota.
    rewrite Hnb, Hc. cbn [isUndef]. rewrite He. cbv zeta.
    rewrite noBrace_not_block by exact Hbrace. reflexivity.
Qed.

End Fallback.

(** ** [#evaluateIfElseLogic]: [else if] *)

(** A lazy star of the class of all characters passes over a text none of
    whose characters the continuation accepts as its first. *)
Lemma lazyRun_skip (k : cont) c pre : forall rest,
  (forall x s, In x pre -> k (x :: s) c = None) ->
  lazyRun any k (pre ++ rest) c = lazyRun any k rest c.
Proof.
  induction pre as [|x pre IH]; intros rest Hk; [reflexivity|].
  cbn [app lazyRun]. rewrite (Hk x) by (left; reflexivity). cbn [orElse].
  unfold any at 1. apply IH. intros y s Hy. apply Hk. right. exact Hy.
Qed.

Lemma lazyRun_accept p (k : cont) c s r : k s c = Some r -> lazyRun p k s c = Some r.
Proof. intros H. destruct s; cbn [lazyRun]; rewrite H; reflexivity. Qed.

(** The matcher, one construct at a time. *)

Lemma rmatch_seq whole r1 r2 k s c :
  rmatch whole (RSeq r1 r2) k s c = rmatch whole r1 (rmatch whole r2 k) s c.
Proof. reflexivity. Qed.

Lemma rmatch_lit whole a k s c : rmatch whole (lit a) k (a :: s) c = k s c.
Proof. cbn [lit rmatch]. unfold isChar. rewrite Ascii.eqb_refl. reflexivity. Qed.

Lemma rmatch_lit_other whole a k x s c :
  isChar a x = false -> rmatch whole (lit a) k (x :: s) c = None.
Proof. intros H. cbn [lit rmatch]. rewrite H. reflexivity. Qed.

Lemma rmatch_letters whole (l : list ascii) k s c :
  rmatch whole (rseq (map liti l)) k (l ++ s) c = k s c.
Proof.
  induction l as [|a l IH]; [reflexivity|].
  cbn [map rseq foldr app]. rewrite rmatch_seq. cbn [liti rmatch].
  rewrite Ascii.eqb_refl. exact IH.
Qed.

Lemma rmatch_blank whole k x s c :
  space x = false ->
  rmatch whole (rplus true (RChar space)) k (" "%char :: x :: s) c = k (x :: s) c.
Proof.
  intros Hx. unfold rplus. cbn [rmatch].
  change (space " ") with true. cbv iota.
  rewrite (starLoop_class_greedy space) by (intros; reflexivity || lia).
  cbn [greedyRun]. rewrite Hx. reflexivity.
Qed.

Lemma rmatch_lazy_any whole k s c :
  rmatch whole (RStar false (RChar any)) k s c = lazyRun any k s c.
Proof. cbn [rmatch]. apply (starLoop_class_lazy any); [intros; reflexivity|lia]. Qed.

Lemma matchHere_ifThenElse c0 c1 rest :
  forallb (fun x => negb (isChar ")" x)) c1 = true ->
  matchHere 1 (length (chars "if (" ++ c0 :: c1 ++ chars ") then (" ++ rest))
    re_ifThenElse (chars "if (" ++ c0 :: c1 ++ chars ") then (" ++ rest)
  = Some (rest, [None; Some (c0 :: c1)]).
Proof.
  intros Hc. unfold matchHere, re_ifThenElse, rseq. cbn [foldr].
  set (whole := length (chars "if (" ++ c0 :: c1 ++ chars ") then (" ++ rest)).
  cbn [rmatch]. unfold whole at 1. rewrite Nat.eqb_refl.
  unfold litsi at 1.
  change (chars "if (" ++ c0 :: c1 ++ chars ") then (" ++ rest)
    with (chars "if" ++ " "%char :: "("%char :: c0 :: c1 ++ chars ") then (" ++ rest).
  rewrite rmatch_letters.
  rewrite rmatch_blank by reflexivity.
  rewrite rmatch_lit.
  unfold rplus at 1. cbn [rmatch]. unfold any at 1. cbv iota.
  rewrite (starLoop_class_lazy any) by (intros; reflexivity || lia).
  rewrite lazyRun_skip.
  2:{ intros x s Hx. rewrite rmatch_lit_other; [reflexivity|].
      rewrite forallb_forall in Hc. apply negb_true_iff. apply Hc. exact Hx. }
  erewrite lazyRun_accept; [reflexivity|]. cbv beta.
  change (chars ") then (" ++ rest)
    with (")"%char :: " "%char :: chars "then" ++ " "%char :: "("%char :: rest).
  rewrite rmatch_lit. cbv beta.
  cbn [chars list_ascii_of_string app].
  rewrite rmatch_blank by reflexivity.
  change ("t"%char :: "h"%char :: "e"%char :: "n"%char :: " "%char :: "("%char :: rest)
    with (chars "then" ++ " "%char :: "("%char :: rest).
  unfold litsi. rewrite rmatch_letters.
  rewrite rmatch_blank by reflexivity.
  rewrite rmatch_lit.
  set (X := ")"%char :: " "%char :: chars "then" ++ " "%char :: "("%char :: rest).
  replace (length (c0 :: c1 ++ X) - length X)%nat with (length (c0 :: c1))
    by (cbn [length]; rewrite length_app; lia).
  change (c0 :: c1 ++ X) with ((c0 :: c1) ++ X). rewrite take_app_length. reflexivity.
Qed.

Lemma sliceFrom_nat s n : sliceFrom s (Z.of_nat n) = str (drop n (chars s)).
Proof.
  unfold sliceFrom, sliceL, clampIndex.
  replace (Z.of_nat n <? 0) with false by (symmetry; apply Z.ltb_ge; lia).
  f_equal. destruct (Nat.le_gt_cases n (length (chars s))) as [H|H].
  - replace (Z.to_nat (Z.min (Z.of_nat n) (Z.of_nat (length (chars s))))) with n by lia.
    apply take_ge. rewrite length_drop. lia.
  - replace (Z.to_nat (Z.min (Z.of_nat n) (Z.of_nat (length (chars s)))))
      with (length (chars s)) by lia.
    rewrite Nat.sub_diag. rewrite !drop_ge by lia. reflexivity.
Qed.

Lemma trimStartL_app_nonspace u z v :
  isSpace z = false -> trimStartL (u ++ z :: v) = trimStartL u ++ z :: v.
Proof.
  intros Hz. induction u as [|a u IH]; cbn [app trimStartL].
  - rewrite Hz. reflexivity.
  - destruct (isSpace a); [exact IH|reflexivity].
Qed.

Lemma trimEndL_app_nonspace x z l :
  isSpace z = false -> trimEndL (x ++ z :: l) = x ++ z :: trimEndL l.
Proof.
  intros Hz. unfold trimEndL. rewrite rev_app_distr. cbn [rev]. rewrite <- app_assoc.
  cbn [app]. rewrite trimStartL_app_nonspace by exact Hz.
  rewrite rev_app_distr. cbn [rev]. rewrite rev_involutive.
  rewrite <- app_assoc. reflexivity.
Qed.

Lemma trimStartL_idem l : trimStartL (trimStartL l) = trimStartL l.
Proof.
  induction l as [|a l IH]; [reflexivity|]. cbn [trimStartL].
  destruct (isSpace a) eqn:Ha; [exact IH|]. cbn [trimStartL]. rewrite Ha. reflexivity.
Qed.

Lemma trimEndL_idem l : trimEndL (trimEndL l) = trimEndL l.
Proof. unfold trimEndL. rewrite rev_involutive, trimStartL_idem. reflexivity. Qed.

Lemma scanBlock_open R i block :
  scanBlock ("("%char :: R) i 0 false block = scanBlock R (S i) 1 true ("("%char :: block).
Proof. reflexivity. Qed.

Lemma scanBlock_close R i block :
  scanBlock (")"%char :: R) i 1 true block = (rev (")"%char :: block), S i).
Proof. reflexivity. Qed.

Lemma trimEndL_if l :
  trimEndL ("i"%char :: "f"%char :: l) = "i"%char :: "f"%char :: trimEndL l.
Proof. apply (trimEndL_app_nonspace ["i"%char] "f"%char l). reflexivity. Qed.

Section ElseIf.
Context {rt : Runtime}.

(** X12. In a conditional whose [else] is followed by [if], only what follows
    that [else] is evaluated: the first condition and the first branch have no
    part in the result. Here for a condition without a closing parenthesis
    and a first branch with balanced parentheses. *)
Theorem evaluateIfElseLogic_else_if_drops_first_condition (this : Config) (fuel : nat)
        (c0 : ascii) (c1 a tail : list ascii) :
  forallb (fun x => negb (isChar ")" x)) c1 = true ->
  balanced a ->
  evaluateIfElseLogic (S fuel) this
    (str (chars "if (" ++ c0 :: c1 ++ chars ") then (" ++ a ++ chars ") else if" ++ tail))
  = evaluateIfElseLogic fuel this (trim (str (chars "if" ++ tail))).
Proof.
  intros Hc Ha.
  set (rest := a ++ chars ") else if" ++ tail).
  set (L := chars "if (" ++ c0 :: c1 ++ chars ") then (" ++ rest).
  rewrite evaluateIfElseLogic_eq.
  unfold re_ifThenElse at 1, rseq at 1. cbn [foldr]. rewrite exec_begin.
  fold (rseq [RBegin; litsi "if"; rplus true (RChar space); lit "(";
              RGroup 1 (rplus false (RChar any)); lit ")"; rplus true (RChar space);
              litsi "then"; rplus true (RChar space); lit "("]).
  fold re_ifThenElse.
  rewrite chars_str, <- length_chars, chars_str.
  unfold L at 1 2. rewrite matchHere_ifThenElse by exact Hc. fold L.
  cbn [m_text].
  set (P := chars "if (" ++ c0 :: c1 ++ chars ") then ").
  assert (HL : L = P ++ "("%char :: rest).
  { unfold L, P. cbn [chars list_ascii_of_string app]. do 5 f_equal.
    rewrite <- app_assoc. reflexivity. }
  assert (Hend : (String.length (str (take (length L - length rest) L)) - 1)%nat = length P).
  { rewrite <- length_chars, chars_str. rewrite length_take, HL, length_app. simpl. lia. }
  rewrite Hend.
  assert (Hfind : findBalancedParenBlock (str L) (length P)
                  = (str ("("%char :: a ++ [")"%char]), (length P + length a + 2)%nat)).
  { unfold findBalancedParenBlock. rewrite chars_str, HL, drop_app_length.
    unfold rest. rewrite scanBlock_open.
    rewrite scanBlock_balanced by (exact Ha || lia).
    change (chars ") else if" ++ tail) with (")"%char :: chars " else if" ++ tail).
    rewrite scanBlock_close.
    f_equal; [|lia]. f_equal. cbn [rev]. rewrite rev_app_distr, rev_involutive.
    reflexivity. }
  rewrite Hfind.
  assert (Hafter : trim (sliceFrom (str L) (Z.of_nat (length P + length a + 2)))
                   = str (chars "else if" ++ trimEndL tail)).
  { rewrite sliceFrom_nat, chars_str, HL.
    replace (length P + length a + 2)%nat with (length (P ++ "("%char :: a ++ [")"%char]))
      by (rewrite length_app; cbn [length]; rewrite length_app; simpl; lia).
    unfold rest.
    replace (P ++ "("%char :: a ++ chars ") else if" ++ tail)
      with ((P ++ "("%char :: a ++ [")"%char]) ++ chars " else if" ++ tail)
      by (rewrite <- !app_assoc; cbn [chars list_ascii_of_string app];
          rewrite <- !app_assoc; reflexivity).
    rewrite drop_app_length.
    unfold trim. rewrite chars_str. f_equal. unfold trimL.
    cbn [chars list_ascii_of_string app trimStartL].
    change (isSpace " ") with true. cbv iota. change (isSpace "e") with false. cbv iota.
    apply (trimEndL_app_nonspace (chars "else i") "f"%char tail). reflexivity. }
  rewrite Hafter.
  change (startsWith (str (chars "else if" ++ trimEndL tail)) "else") with true.
  cbn [negb].
  assert (Helse : trim (sliceFrom (str (chars "else if" ++ trimEndL tail)) 4)
                  = trim (str (chars "if" ++ tail))).
  { change 4 with (Z.of_nat 4). rewrite sliceFrom_nat, chars_str.
    unfold trim. rewrite !chars_str. f_equal. unfold trimL.
    cbn [chars list_ascii_of_string app drop trimStartL].
    change (isSpace " ") with true. cbv iota. change (isSpace "i") with false. cbv iota.
    rewrite !trimEndL_if, trimEndL_idem. reflexivity. }
  rewrite Helse.
  assert (Hif : startsWith (trim (str (chars "if" ++ tail))) "if" = true).
  { unfold trim. rewrite chars_str. unfold trimL.
    cbn [chars list_ascii_of_string app trimStartL].
    change (isSpace "i") with false. cbv iota.
    rewrite trimEndL_if. unfold startsWith. rewrite chars_str. reflexivity. }
  rewrite Hif. reflexivity.
Qed.

End ElseIf.

(** ** The cache over the calls of the facade *)

Section CacheOverCalls.
Context {rt : Runtime}.



End CacheOverCalls.

(** ** [evalComparison]: the ordering operators *)

Section Ordering.
Context {rt : Runtime}.

Definition isOrdering (operator : string) : bool :=
  String.eqb operator ">" || String.eqb operator ">=" || String.eqb operator "<"
  || String.eqb operator "<=".

(** The mirror image of an ordering operator. *)
Definition mirrored (operator : string) : string :=
  if String.eqb operator ">" then "<"
  else if String.eqb operator ">=" then "<="
  else if String.eqb operator "<" then ">"
  else if String.eqb operator "<=" then ">="
  else operator.

Lemma isOrdering_cases operator :
  isOrdering operator = true ->
  operator = ">" \/ operator = ">=" \/ operator = "<" \/ operator = "<=".
Proof.
  unfold isOrdering. intros H.
  apply orb_prop in H as [H|H]; [|right; right; right; apply String.eqb_eq; exact H].
  apply orb_prop in H as [H|H]; [|right; right; left; apply String.eqb_eq; exact H].
  apply orb_prop in H as [H|H]; [left|right; left]; apply String.eqb_eq; exact H.
Qed.

(** X14. An ordering operator compares its sides as numbers: the comparison is
    false as soon as one side does not convert to a finite number, whatever
    the other side is; otherwise it is the comparison of the two numbers. And
    an ordering comparison is the mirrored comparison of the swapped sides. *)
Theorem ordering_compares_finite_numbers (h : heap) (operator : string) (left right : value) :
  isOrdering operator = true ->
  (num_isFinite (Number_ h left) && num_isFinite (Number_ h right) = false ->
   compareValues h operator left right = false)
  /\ (num_isFinite (Number_ h left) && num_isFinite (Number_ h right) = true ->
      compareValues h operator left right
      = if String.eqb operator ">" then num_ltb (Number_ h right) (Number_ h left)
        else if String.eqb operator ">=" then num_leb (Number_ h right) (Number_ h left)
        else if String.eqb operator "<" then num_ltb (Number_ h left) (Number_ h right)
        else num_leb (Number_ h left) (Number_ h right))
  /\ compareValues h operator left right = compareValues h (mirrored operator) right left.
Proof.
  intros Ho. apply isOrdering_cases in Ho.
  destruct Ho as [-> | [-> | [-> | ->]]]; unfold compareValues, mirrored;
    repeat match goal with
           | |- context [test re_ordering ?o] =>
               let b := eval vm_compute in (test re_ordering o) in
               change (test re_ordering o) with b
           | |- context [String.eqb ?a ?b] =>
               let v := eval vm_compute in (String.eqb a b) in
               change (String.eqb a b) with v
           end; cbv iota zeta; cbn [Number_];
    (split; [intros ->; reflexivity|]);
    (split; [intros ->; reflexivity|]);
    rewrite (andb_comm (num_isFinite (Number_ h left))); reflexivity.
Qed.

End Ordering.

(** ** [tokenizeCondition] *)

(** The test that [tokenizeCondition] makes at index [i] outside
    parentheses: one of the two words is there, with white space before it
    and after it. *)
Definition splitsAt (s : string) (i : Z) : bool :=
  let token := trimEnd (toLowerCase (slice s i (i + 3))) in
  (String.eqb token "and" && spaceAt s (i - 1) && spaceAt s (i + 3))
  || (String.eqb token "or" && spaceAt s (i - 1) && spaceAt s (i + 2)).

Lemma str_app l1 l2 : str (l1 ++ l2) = str l1 +:+ str l2.
Proof.
  rewrite <- (str_chars (str l1 +:+ str l2)), chars_append, !chars_str. reflexivity.
Qed.

Lemma tokenizeLoop_no_split s :
  (forall i, 0 <= i < len s -> splitsAt s i = false) ->
  forall fuel n depth tokens,
    (String.length s - n <= fuel)%nat ->
    tokenizeLoop fuel s (Z.of_nat n) (str (take n (chars s))) depth tokens = push tokens s.
Proof.
  intros Hs. induction fuel as [|fuel IH]; intros n depth tokens Hf.
  - cbn [tokenizeLoop]. rewrite take_ge by (rewrite length_chars; lia).
    rewrite str_chars. reflexivity.
  - cbn [tokenizeLoop]. unfold len.
    destruct (Z.of_nat n <? Z.of_nat (String.length s)) eqn:Hlt; cbn [negb].
    2:{ apply Z.ltb_ge in Hlt. rewrite take_ge by (rewrite length_chars; lia).
        rewrite str_chars. reflexivity. }
    apply Z.ltb_lt in Hlt.
    assert (Hc : exists c, chars s !! n = Some c).
    { apply lookup_lt_is_Some. rewrite length_chars. lia. }
    destruct Hc as [c Hc].
    assert (Hat : charAt s (Z.of_nat n) = Some c).
    { unfold charAt. replace (Z.of_nat n <? 0) with false by (symmetry; apply Z.ltb_ge; lia).
      rewrite Nat2Z.id. exact Hc. }
    rewrite Hat. cbn [default from_option id].
    assert (Hadd : str (take n (chars s)) +:+ String c "" = str (take (S n) (chars s))).
    { rewrite (take_S_r _ _ _ Hc), str_app. reflexivity. }
    rewrite Hadd.
    assert (Hsplit : splitsAt s (Z.of_nat n) = false) by (apply Hs; unfold len; lia).
    unfold splitsAt in Hsplit. cbv zeta in Hsplit.
    apply orb_false_iff in Hsplit as [Hand Hor]. rewrite Hand, Hor.
    replace (Z.of_nat n + 1) with (Z.of_nat (S n)) by lia.
    destruct (isChar "(" c); [apply IH; lia|].
    destruct (isChar ")" c); [apply IH; lia|].
    destruct (depth =? 0); apply IH; lia.
Qed.

Lemma trimStartL_nonspace l : forallb nonspace l = true -> trimStartL l = l.
Proof.
  destruct l as [|a l]; [reflexivity|]. cbn [forallb trimStartL]. unfold nonspace at 1.
  intros H. apply andb_prop in H as [Ha _]. apply negb_true_iff in Ha. rewrite Ha.
  reflexivity.
Qed.

Lemma trim_nonspace s : forallb nonspace (chars s) = true -> trim s = s.
Proof.
  intros H. unfold trim, trimL, trimEndL. rewrite (trimStartL_nonspace (chars s)) by exact H.
  rewrite trimStartL_nonspace by (apply forallb_rev_true; exact H).
  rewrite rev_involutive. apply str_chars.
Qed.

Lemma trimStartL_head l :
  trimStartL l = [] \/ exists a m, trimStartL l = a :: m /\ isSpace a = false.
Proof.
  induction l as [|a l IH]; [left; reflexivity|]. cbn [trimStartL].
  destruct (isSpace a) eqn:Ha; [exact IH|right; eauto].
Qed.

Lemma trimEndL_cons_nonspace a m : isSpace a = false -> trimEndL (a :: m) = a :: trimEndL m.
Proof. apply (trimEndL_app_nonspace [] a m). Qed.

Lemma trimL_idem l : trimL (trimL l) = trimL l.
Proof.
  unfold trimL. destruct (trimStartL_head l) as [->|(a & m & -> & Ha)]; [reflexivity|].
  rewrite (trimEndL_cons_nonspace a m Ha). cbn [trimStartL]. rewrite Ha.
  rewrite (trimEndL_cons_nonspace a (trimEndL m) Ha).
  rewrite trimEndL_idem. reflexivity.
Qed.

Lemma trim_idem s : trim (trim s) = trim s.
Proof. unfold trim. rewrite chars_str, trimL_idem. reflexivity. Qed.

Section Tokens.
Context {rt : Runtime}.

(** X15. The words [and] and [or] divide a condition only where they stand
    between white space: a condition in which they stand nowhere so is one
    token, the whole of it trimmed, and is evaluated as one comparison. A
    condition without white space is such a one. *)
Theorem tokenizeCondition_splits_between_blanks_only :
  (forall s,
      (forall i, 0 <= i < len s -> splitsAt s i = false) ->
      tokenizeCondition s = if String.eqb (trim s) "" then [] else [trim s])
  /\ (forall s,
      forallb nonspace (chars s) = true -> s <> "" ->
      tokenizeCondition s = [s])
  /\ (forall this fuel cond,
      plain cond = true ->
      String.eqb (trim cond) "" = false ->
      (forall i, 0 <= i < len (trim cond) -> splitsAt (trim cond) i = false) ->
      evalLogical (S fuel) this cond = evalComparison fuel this (trim cond)).
Proof.
  assert (H : forall s,
             (forall i, 0 <= i < len s -> splitsAt s i = false) ->
             tokenizeCondition s = if String.eqb (trim s) "" then [] else [trim s]).
  { intros s Hs. unfold tokenizeCondition.
    apply (tokenizeLoop_no_split s Hs (String.length s) 0%nat 0 []). lia. }
  split; [exact H|]. split.
  - intros s Hn Hne. rewrite H.
    + rewrite trim_nonspace by exact Hn.
      destruct (String.eqb s "") eqn:E; [apply String.eqb_eq in E; congruence|reflexivity].
    + intros i Hi. unfold splitsAt. cbv zeta.
      assert (Hsp : forall j, spaceAt s j = false).
      { intros j. unfold spaceAt, charAt. destruct (j <? 0); [reflexivity|].
        destruct (chars s !! Z.to_nat j) as [c|] eqn:Ec; [|reflexivity].
        rewrite forallb_forall in Hn. apply list_elem_of_lookup_2 in Ec.
        apply list_elem_of_In in Ec. apply Hn in Ec. apply negb_true_iff in Ec. exact Ec. }
      rewrite !Hsp, !andb_false_r. reflexivity.
  - intros this fuel cond Hp Hb Hs. rewrite evalLogical_eq. cbv zeta.
    unfold plain in Hp. apply andb_true_iff in Hp as [Hw Hn].
    apply negb_true_iff in Hw. apply negb_true_iff in Hn. rewrite Hw, Hn.
    rewrite (H _ Hs). rewrite trim_idem, Hb. reflexivity.
Qed.

End Tokens.

(** * The version manager: [lib/VersionManager.ts]

    [convert] and [parse]; [resolve] reads a directory and asks the semver
    order of the host, and is not part of this development. *)

Module VersionManager.

(** The value of a run of decimal digits. *)
Fixpoint decimal (l : list ascii) (acc : Z) : Z :=
  match l with
  | [] => acc
  | c :: l' => decimal l' (10 * acc + (Z.of_N (code c) - 48))
  end.

(** The longest beginning of [l] in the class [p]. *)
Fixpoint leading (p : ascii -> bool) (l : list ascii) : list ascii :=
  match l with
  | a :: l' => if p a then a :: leading p l' else []
  | [] => []
  end.

Definition alnum (c : ascii) : bool := alpha c || digit c.

(** [/^v(\d+(?:\.\d+)?(?:\.\d+)?(?:-[a-z0-9]+)?)$/i] *)
Definition re_version : regex :=
  rseq [RBegin; liti "v";
        RGroup 1 (rseq [rplus true (RChar digit);
                        ropt (rseq [lit "."; rplus true (RChar digit)]);
                        ropt (rseq [lit "."; rplus true (RChar digit)]);
                        ropt (rseq [lit "-"; rplus true (RChar alnum)])]);
        REnd].

(** [versionRegex]: [/^v(\d+)(?:\.(\d+))?(?:\.(\d+))?(?:-([a-z0-9]+)?)?$/i] *)
Definition versionRegex : regex :=
  rseq [RBegin; liti "v";
        RGroup 1 (rplus true (RChar digit));
        ropt (rseq [lit "."; RGroup 2 (rplus true (RChar digit))]);
        ropt (rseq [lit "."; RGroup 3 (rplus true (RChar digit))]);
        ropt (rseq [lit "-"; ropt (RGroup 4 (rplus true (RChar alnum)))]);
        REnd].

Section Functions.
Context {rt : Runtime}.

(** [parseInt(n, 10)] of a string or [undefined]: white space, a sign, then
    the digits as far as they go; [NaN] when there is none. *)
Definition parseInt (n : option string) : num :=
  match n with
  | None => num_nan
  | Some s =>
      let l := trimStartL (chars s) in
      let '(sign, l) :=
        match l with
        | c :: l' => if isChar "-" c then (-1, l')
                     else if isChar "+" c then (1, l') else (1, l)
        | [] => (1, l)
        end in
      match leading digit l with
      | [] => num_nan
      | ds => num_of_Z (sign * decimal ds 0)
      end
  end.

(** [parseIntSafe(n, fallback)] *)
Definition parseIntSafe (n : option string) (fallback : option num) : num :=
  let number := parseInt n in
  if negb (num_isFinite number) then default (num_of_Z 0) fallback
  else number.

(** A version as the functions take it: a string or a number. *)
Inductive version : Type :=
| VersionString (s : string)
| VersionNumber (n : num).

Record VersionObject : Type := {
  major : num;
  minor : num;
  patch : num;
  label : option string
}.

Definition invalidSyntax (version : string) : exn :=
  EThrowable (mkThrowable "SyntaxError" ("'" +:+ version +:+ "' has invalid syntax.")
                (Some "Example of valid formats: v1, v1.2, v1.2.3, v1.2.3-beta")).

(** [convert(version)] *)
Definition convert (version : version) : outcome string :=
  match version with
  | VersionString s =>
      if negb (test re_version s) then Throw (invalidSyntax s) else Ret s
  | VersionNumber n =>
      if negb (num_isFinite n)
      then Throw (EThrowable (mkThrowable "RangeError" "Major is not finite"
                                (Some "Make sure to not pass NaN or Infinity values")))
      else Ret ("v" +:+ num_to_string n)
  end.

(** [parse(version)] *)
Definition parse (version : version) : outcome VersionObject :=
  obind (convert version) (fun version =>
  match exec 4 versionRegex version with
  | None => Throw (invalidSyntax version)
  | Some m =>
      Ret {| major := parseIntSafe (group m 1) (Some (num_of_Z 1));
             minor := parseIntSafe (group m 2) (Some (num_of_Z 0));
             patch := parseIntSafe (group m 3) (Some (num_of_Z 0));
             label := group m 4 |}
  end).

End Functions.

End VersionManager.

(** ** Versions that are well formed *)

(** The first character of [rest], if there is one, is not in the class. *)
Definition stopsAt (p : ascii -> bool) (rest : list ascii) : bool :=
  match rest with
  | x :: _ => negb (p x)
  | [] => true
  end.

Lemma greedyRun_all p (k : cont) c r ds : forall rest,
  forallb p ds = true -> stopsAt p rest = true -> k rest c = Some r ->
  greedyRun p k (ds ++ rest) c = Some r.
Proof.
  induction ds as [|a ds IH]; intros rest Hds Hrest Hk.
  - cbn [app]. destruct rest as [|x rest]; [exact Hk|].
    cbn [greedyRun]. cbn [stopsAt] in Hrest. apply negb_true_iff in Hrest.
    rewrite Hrest. exact Hk.
  - cbn [forallb] in Hds. apply andb_prop in Hds as [Ha Hds].
    cbn [app greedyRun]. rewrite Ha. rewrite (IH rest Hds Hrest Hk). reflexivity.
Qed.

(** One or more characters of a class, as many as there are, before a
    continuation that accepts what follows them. *)
Lemma rmatch_plus_all whole p (k : cont) c r d ds rest :
  p d = true -> forallb p ds = true -> stopsAt p rest = true ->
  k rest c = Some r ->
  rmatch whole (rplus true (RChar p)) k (d :: ds ++ rest) c = Some r.
Proof.
  intros Hd Hds Hrest Hk. unfold rplus. cbn [rmatch]. rewrite Hd.
  rewrite (starLoop_class_greedy p) by (intros; reflexivity || lia).
  apply greedyRun_all; assumption.
Qed.

Lemma rmatch_group_plus_all whole n p (k : cont) c r d ds rest :
  p d = true -> forallb p ds = true -> stopsAt p rest = true ->
  k rest (<[n := Some (d :: ds)]> c) = Some r ->
  rmatch whole (RGroup n (rplus true (RChar p))) k (d :: ds ++ rest) c = Some r.
Proof.
  intros Hd Hds Hrest Hk. cbn [rmatch].
  apply (rmatch_plus_all whole p _ c r d ds rest Hd Hds Hrest).
  replace (length (d :: ds ++ rest) - length rest)%nat with (length (d :: ds))
    by (cbn [length]; rewrite length_app; lia).
  change (d :: ds ++ rest) with ((d :: ds) ++ rest). rewrite take_app_length. exact Hk.
Qed.

Lemma rmatch_opt_taken whole r (k : cont) s c x :
  rmatch whole r k s c = Some x -> rmatch whole (ropt r) k s c = Some x.
Proof. intros H. unfold ropt. cbn [rmatch]. rewrite H. reflexivity. Qed.

Lemma rmatch_opt_skipped whole a r (k : cont) s c :
  stopsAt (isChar a) s = true ->
  rmatch whole (ropt (RSeq (lit a) r)) k s c = k s c.
Proof.
  intros H. unfold ropt, lit. cbn [rmatch].
  destruct s as [|x s]; [reflexivity|].
  cbn [stopsAt] in H. apply negb_true_iff in H. rewrite H. reflexivity.
Qed.

(** The parts of a version after the [v]: the digits of the major number,
    those of the minor number and of the patch number if they are given, and
    the label if there is one. *)
Definition dotted (part : option (list ascii)) : list ascii :=
  match part with
  | Some d => "."%char :: d
  | None => []
  end.

Definition dashed (label : option (list ascii)) : list ascii :=
  match label with
  | Some l => "-"%char :: l
  | None => []
  end.

Definition versionText (a : list ascii) (minor patch label : option (list ascii)) : string :=
  str ("v"%char :: a ++ dotted minor ++ dotted patch ++ dashed label).

Definition nonEmptyOf (p : ascii -> bool) (l : list ascii) : bool :=
  match l with
  | [] => false
  | _ => forallb p l
  end.

Definition optionOf (p : ascii -> bool) (o : option (list ascii)) : bool :=
  match o with
  | Some l => nonEmptyOf p l
  | None => true
  end.

(** A patch number is given only after a minor number. *)
Definition wellFormed (a : list ascii) (minor patch label : option (list ascii)) : bool :=
  nonEmptyOf digit a && optionOf digit minor && optionOf digit patch
  && optionOf VersionManager.alnum label
  && match minor, patch with
     | None, Some _ => false
     | _, _ => true
     end.

Lemma nonEmptyOf_cons p l :
  nonEmptyOf p l = true -> exists d ds, l = d :: ds /\ p d = true /\ forallb p ds = true.
Proof.
  destruct l as [|d ds]; [discriminate|]. cbn [nonEmptyOf forallb]. intros H.
  apply andb_prop in H as [Hd Hds]. eauto.
Qed.

Lemma stopsAt_digit_dotted part tail :
  stopsAt digit tail = true -> stopsAt digit (dotted part ++ tail) = true.
Proof. destruct part; [reflexivity|intros H; exact H]. Qed.

Lemma stopsAt_digit_dashed label : stopsAt digit (dashed label) = true.
Proof. destruct label; reflexivity. Qed.

Lemma stopsAt_dot_dashed label : stopsAt (isChar ".") (dashed label) = true.
Proof. destruct label; reflexivity. Qed.

Lemma rmatch_begin whole (k : cont) s c :
  rmatch whole RBegin k s c = if (length s =? whole)%nat then k s c else None.
Proof. reflexivity. Qed.

Lemma rmatch_liti whole a (k : cont) s c : rmatch whole (liti a) k (a :: s) c = k s c.
Proof. cbn [liti rmatch]. rewrite Ascii.eqb_refl. reflexivity. Qed.

Definition final : cont := fun s c => Some (s, c).

(** [$] *)
Lemma match_end whole c : rmatch whole (RSeq REnd REmpty) final [] c = Some ([], c).
Proof. reflexivity. Qed.

(** The label of [versionRegex] and [$]. *)
Lemma match_label whole label c :
  optionOf VersionManager.alnum label = true ->
  rmatch whole
    (RSeq (ropt (rseq [lit "-"; ropt (RGroup 4 (rplus true (RChar VersionManager.alnum)))]))
          (RSeq REnd REmpty)) final (dashed label) c
  = Some ([], match label with Some l => <[4%nat := Some l]> c | None => c end).
Proof.
  intros Hl. rewrite rmatch_seq. destruct label as [l|]; cbn [dashed].
  - apply nonEmptyOf_cons in Hl as (d & ds & -> & Hd & Hds).
    apply rmatch_opt_taken. unfold rseq. cbn [foldr]. rewrite rmatch_seq, rmatch_lit.
    rewrite rmatch_seq. apply rmatch_opt_taken.
    pose proof (rmatch_group_plus_all whole 4%nat VersionManager.alnum
                  (rmatch whole REmpty (rmatch whole (RSeq REnd REmpty) final)) c
                  ([], <[4%nat := Some (d :: ds)]> c) d ds [] Hd Hds eq_refl eq_refl) as E.
    rewrite app_nil_r in E. exact E.
  - unfold rseq. cbn [foldr]. rewrite rmatch_opt_skipped by reflexivity. reflexivity.
Qed.

(** An optional part of [versionRegex] with its group, before what follows. *)
Lemma match_part whole n (k : cont) part tail c r :
  optionOf digit part = true ->
  match part with
  | Some _ => stopsAt digit tail
  | None => stopsAt (isChar ".") tail
  end = true ->
  k tail (match part with Some d => <[n := Some d]> c | None => c end) = Some r ->
  rmatch whole (ropt (rseq [lit "."; RGroup n (rplus true (RChar digit))])) k
    (dotted part ++ tail) c
  = Some r.
Proof.
  intros Hp Hstop Hk. destruct part as [l|]; cbn [dotted app].
  - apply nonEmptyOf_cons in Hp as (d & ds & -> & Hd & Hds).
    apply rmatch_opt_taken. unfold rseq. cbn [foldr]. rewrite rmatch_seq, rmatch_lit.
    rewrite rmatch_seq.
    apply rmatch_group_plus_all; [exact Hd|exact Hds|exact Hstop|exact Hk].
  - unfold rseq. cbn [foldr]. rewrite rmatch_opt_skipped by exact Hstop. exact Hk.
Qed.

Definition captured (a : list ascii) (minor patch label : option (list ascii)) : caps :=
  [None; Some a; minor; patch; label].

Lemma matchHere_versionRegex a minor patch label :
  wellFormed a minor patch label = true ->
  matchHere 4 (String.length (versionText a minor patch label)) VersionManager.versionRegex
    (chars (versionText a minor patch label))
  = Some ([], captured a minor patch label).
Proof.
  unfold wellFormed. intros H.
  apply andb_prop in H as [H Hmp]. apply andb_prop in H as [H Hl].
  apply andb_prop in H as [H Hp]. apply andb_prop in H as [Ha Hm].
  unfold matchHere, VersionManager.versionRegex.
  unfold rseq at 1. cbn [foldr]. rewrite rmatch_seq, rmatch_begin.
  rewrite <- length_chars, Nat.eqb_refl. unfold versionText. rewrite chars_str.
  rewrite rmatch_seq, rmatch_liti.
  apply nonEmptyOf_cons in Ha as (d & ds & -> & Hd & Hds).
  rewrite rmatch_seq. change ((d :: ds) ++ dotted minor ++ dotted patch ++ dashed label)
    with (d :: ds ++ dotted minor ++ dotted patch ++ dashed label).
  apply rmatch_group_plus_all; [exact Hd|exact Hds| |].
  { apply stopsAt_digit_dotted, stopsAt_digit_dotted, stopsAt_digit_dashed. }
  rewrite rmatch_seq.
  apply (match_part _ 2%nat _ minor); [exact Hm| |].
  { destruct minor; [apply stopsAt_digit_dotted, stopsAt_digit_dashed|].
    destruct patch; [discriminate Hmp|apply stopsAt_dot_dashed]. }
  rewrite rmatch_seq.
  apply (match_part _ 3%nat _ patch); [exact Hp| |].
  { destruct patch; [apply stopsAt_digit_dashed|apply stopsAt_dot_dashed]. }
  rewrite (match_label _ label) by exact Hl.
  unfold captured. destruct minor, patch, label; reflexivity.
Qed.

Lemma match_plain_part whole (k : cont) part tail c r :
  optionOf digit part = true ->
  match part with
  | Some _ => stopsAt digit tail
  | None => stopsAt (isChar ".") tail
  end = true ->
  k tail c = Some r ->
  rmatch whole (ropt (rseq [lit "."; rplus true (RChar digit)])) k (dotted part ++ tail) c
  = Some r.
Proof.
  intros Hp Hstop Hk. destruct part as [l|]; cbn [dotted app].
  - apply nonEmptyOf_cons in Hp as (d & ds & -> & Hd & Hds).
    apply rmatch_opt_taken. unfold rseq. cbn [foldr]. rewrite rmatch_seq, rmatch_lit.
    rewrite rmatch_seq.
    apply rmatch_plus_all; [exact Hd|exact Hds|exact Hstop|exact Hk].
  - unfold rseq. cbn [foldr]. rewrite rmatch_opt_skipped by exact Hstop. exact Hk.
Qed.

Lemma match_plain_label whole (k : cont) label c r :
  optionOf VersionManager.alnum label = true ->
  k [] c = Some r ->
  rmatch whole (ropt (rseq [lit "-"; rplus true (RChar VersionManager.alnum)])) k
    (dashed label) c
  = Some r.
Proof.
  intros Hl Hk. destruct label as [l|]; cbn [dashed].
  - apply nonEmptyOf_cons in Hl as (d & ds & -> & Hd & Hds).
    apply rmatch_opt_taken. unfold rseq. cbn [foldr]. rewrite rmatch_seq, rmatch_lit.
    rewrite rmatch_seq.
    pose proof (rmatch_plus_all whole VersionManager.alnum (rmatch whole REmpty k) c r
                  d ds [] Hd Hds eq_refl Hk) as E.
    rewrite app_nil_r in E. exact E.
  - unfold rseq. cbn [foldr]. rewrite rmatch_opt_skipped by reflexivity. exact Hk.
Qed.

Lemma test_re_version a minor patch label :
  wellFormed a minor patch label = true ->
  test VersionManager.re_version (versionText a minor patch label) = true.
Proof.
  unfold wellFormed. intros H.
  apply andb_prop in H as [H Hmp]. apply andb_prop in H as [H Hl].
  apply andb_prop in H as [H Hp]. apply andb_prop in H as [Ha Hm].
  unfold test, VersionManager.re_version.
  unfold rseq at 1. cbn [foldr]. rewrite exec_begin.
  assert (E : exists c,
             matchHere 0 (String.length (versionText a minor patch label))
               (RSeq RBegin
                  (RSeq (liti "v")
                     (RSeq (RGroup 1
                              (rseq [rplus true (RChar digit);
                                     ropt (rseq [lit "."; rplus true (RChar digit)]);
                                     ropt (rseq [lit "."; rplus true (RChar digit)]);
                                     ropt (rseq [lit "-";
                                                 rplus true (RChar VersionManager.alnum)])]))
                        (RSeq REnd REmpty))))
               (chars (versionText a minor patch label))
             = Some ([], c)).
  { unfold matchHere. rewrite rmatch_seq, rmatch_begin.
    rewrite <- length_chars, Nat.eqb_refl. unfold versionText. rewrite chars_str.
    rewrite rmatch_seq, rmatch_liti.
    apply nonEmptyOf_cons in Ha as (d & ds & -> & Hd & Hds).
    rewrite rmatch_seq. cbn [rmatch]. eexists.
    unfold rseq at 1. cbn [foldr]. rewrite rmatch_seq.
    change ((d :: ds) ++ dotted minor ++ dotted patch ++ dashed label)
      with (d :: ds ++ dotted minor ++ dotted patch ++ dashed label).
    apply rmatch_plus_all; [exact Hd|exact Hds| |].
    { apply stopsAt_digit_dotted, stopsAt_digit_dotted, stopsAt_digit_dashed. }
    rewrite rmatch_seq.
    apply (match_plain_part _ _ minor); [exact Hm| |].
    { destruct minor; [apply stopsAt_digit_dotted, stopsAt_digit_dashed|].
      destruct patch; [discriminate Hmp|apply stopsAt_dot_dashed]. }
    rewrite rmatch_seq.
    apply (match_plain_part _ _ patch); [exact Hp| |].
    { destruct patch; [apply stopsAt_digit_dashed|apply stopsAt_dot_dashed]. }
    rewrite rmatch_seq.
    apply match_plain_label; [exact Hl|]. reflexivity. }
  destruct E as [c E]. rewrite E. reflexivity.
Qed.

Section Versions.
Context {rt : Runtime}.

(** The number that [parseIntSafe] makes of a run of digits. *)
Definition numberOf (d : list ascii) (fallback : Z) : num :=
  if num_isFinite (num_of_Z (VersionManager.decimal d 0))
  then num_of_Z (VersionManager.decimal d 0)
  else num_of_Z fallback.

Lemma leading_all p l : forallb p l = true -> VersionManager.leading p l = l.
Proof.
  induction l as [|a l IH]; [reflexivity|]. cbn [forallb VersionManager.leading].
  intros H. apply andb_prop in H as [Ha Hl]. rewrite Ha, IH by exact Hl. reflexivity.
Qed.

Lemma parseIntSafe_digits d fallback :
  nonEmptyOf digit d = true ->
  VersionManager.parseIntSafe (Some (str d)) (Some (num_of_Z fallback)) = numberOf d fallback.
Proof.
  intros H. destruct (nonEmptyOf_cons _ _ H) as (x & xs & -> & Hx & Hxs).
  unfold VersionManager.parseIntSafe, VersionManager.parseInt, numberOf.
  rewrite chars_str. cbn [trimStartL].
  assert (Hs : isSpace x = false /\ isChar "-" x = false /\ isChar "+" x = false).
  { unfold digit, between, isSpace, isChar in *.
    destruct x as [[] [] [] [] [] [] [] []]; try discriminate Hx; repeat split. }
  destruct Hs as (Hs & Hm & Hpl). rewrite Hs, Hm, Hpl.
  rewrite leading_all by (cbn [forallb]; rewrite Hx; exact Hxs).
  rewrite Z.mul_1_l.
  destruct (num_isFinite (num_of_Z (VersionManager.decimal (x :: xs) 0))); reflexivity.
Qed.

(** X16. [convert] lets a string pass, unchanged, when it is a well-formed
    version, and refuses with a [SyntaxError] every string that does not
    begin with the letter v. Of a number it only asks that it be finite: a
    finite number is returned as [v] and its digits without a look at its
    sign or its fraction, any other number is refused with a [RangeError]. *)
Theorem convert_checks_strings_and_finiteness :
  (forall a minor patch label,
      wellFormed a minor patch label = true ->
      VersionManager.convert (VersionManager.VersionString (versionText a minor patch label))
      = Ret (versionText a minor patch label))
  /\ (forall s,
      match chars s with
      | c :: _ => negb (sameLetter c "v")
      | [] => true
      end = true ->
      VersionManager.convert (VersionManager.VersionString s)
      = Throw (VersionManager.invalidSyntax s))
  /\ (forall n, num_isFinite n = true ->
      VersionManager.convert (VersionManager.VersionNumber n) = Ret ("v" +:+ num_to_string n))
  /\ (forall n, num_isFinite n = false ->
      exists t, VersionManager.convert (VersionManager.VersionNumber n)
                = Throw (EThrowable t)
                /\ name t = "RangeError").
Proof.
  split; [|split; [|split]].
  - intros a minor patch label H. cbn [VersionManager.convert].
    rewrite test_re_version by exact H. reflexivity.
  - intros s H. cbn [VersionManager.convert].
    assert (E : test VersionManager.re_version s = false).
    { unfold test, VersionManager.re_version. unfold rseq at 1. cbn [foldr].
      rewrite exec_begin. unfold matchHere. rewrite rmatch_seq, rmatch_begin.
      rewrite length_chars, Nat.eqb_refl. rewrite rmatch_seq. cbn [liti rmatch].
      destruct (chars s) as [|c l]; [reflexivity|].
      apply negb_true_iff in H. unfold sameLetter in H. rewrite H. reflexivity. }
    rewrite E. reflexivity.
  - intros n H. cbn [VersionManager.convert]. rewrite H. reflexivity.
  - intros n H. cbn [VersionManager.convert]. rewrite H. cbn [negb].
    eexists. split; reflexivity.
Qed.

(** X17. [parse] reads a well-formed version into its numbers and its label: the
    major, minor and patch numbers are the values of their digits, a minor or
    patch number that is not given is 0, and the label is what follows the
    dash, if anything. A number too large to be finite is replaced by 1 for
    the major number and by 0 for the others. *)
Theorem parse_reads_a_well_formed_version (a : list ascii)
        (minor patch label : option (list ascii)) :
  num_isFinite num_nan = false ->
  wellFormed a minor patch label = true ->
  VersionManager.parse (VersionManager.VersionString (versionText a minor patch label))
  = Ret {| VersionManager.major := numberOf a 1;
           VersionManager.minor := match minor with
                                   | Some b => numberOf b 0
                                   | None => num_of_Z 0
                                   end;
           VersionManager.patch := match patch with
                                   | Some c => numberOf c 0
                                   | None => num_of_Z 0
                                   end;
           VersionManager.label := str <$> label |}.
Proof.
  intros Hnan H. unfold VersionManager.parse. cbn [VersionManager.convert].
  rewrite test_re_version by exact H. cbn [negb obind].
  unfold VersionManager.versionRegex at 1. unfold rseq at 1. cbn [foldr].
  rewrite exec_begin.
  fold (rseq [RBegin; liti "v"; RGroup 1 (rplus true (RChar digit));
              ropt (rseq [lit "."; RGroup 2 (rplus true (RChar digit))]);
              ropt (rseq [lit "."; RGroup 3 (rplus true (RChar digit))]);
              ropt (rseq [lit "-"; ropt (RGroup 4 (rplus true (RChar VersionManager.alnum)))]);
              REnd]).
  fold VersionManager.versionRegex.
  rewrite matchHere_versionRegex by exact H.
  unfold captured. cbn [drop map fmap option_fmap option_map group m_groups lookup list_lookup].
  unfold wellFormed in H.
  apply andb_prop in H as [H Hmp]. apply andb_prop in H as [H Hl].
  apply andb_prop in H as [H Hp]. apply andb_prop in H as [Ha Hm].
  assert (Hmissing : forall fb, VersionManager.parseIntSafe None (Some (num_of_Z fb))
                                = num_of_Z fb).
  { intros fb. unfold VersionManager.parseIntSafe, VersionManager.parseInt.
    rewrite Hnan. reflexivity. }
  rewrite (parseIntSafe_digits a 1 Ha).
  assert (Hpart : forall part, optionOf digit part = true ->
             VersionManager.parseIntSafe (str <$> part) (Some (num_of_Z 0))
             = match part with
               | Some b => numberOf b 0
               | None => num_of_Z 0
               end).
  { intros [b|] Hb; [apply parseIntSafe_digits; exact Hb|apply Hmissing]. }
  rewrite (Hpart minor Hm), (Hpart patch Hp). reflexivity.
Qed.

End Versions.

(** * The TOML writer: [lib/Toml.ts]

    [stringify] and the functions under it, on an object given as the list
    of its own properties in the order in which [for ... in] goes through
    them. [parse] is the parser of the host. *)

Module Toml.

Definition lf : string := String "010"%char EmptyString.

(** [str.replace(/Q/g, '\\Q')], [Q] the double quote. *)
Definition escapeQuotes (l : list ascii) : list ascii :=
  flat_map (fun c => if isChar quote c then ["\"%char; quote] else [c]) l.

Section Functions.
Context {rt : Runtime}.

(** [escapeString(str)] *)
Definition escapeString (s : string) : string :=
  if includes s lf then q +:+ q +:+ q +:+ str (escapeQuotes (chars s)) +:+ q +:+ q +:+ q
  else JSON_stringify (JStr s).

(** [serializeValue(value)] *)
Fixpoint serializeValue (value : jsval num) : string :=
  match value with
  | JStr s => escapeString s
  | JNum n => num_to_string n
  | JBool b => if b then "true" else "false"
  | JArr items =>
      "[" +:+ lf +:+ "  "
      +:+ join ("," +:+ lf +:+ "  ")
            ((fix each (l : list (jsval num)) : list string :=
                match l with
                | [] => []
                | v :: l' => serializeValue v :: each l'
                end) items)
      +:+ "," +:+ lf +:+ "]"
  | JObj fields =>
      "{ "
      +:+ join ", "
            ((fix each (l : list (string * jsval num)) : list string :=
                match l with
                | [] => []
                | (k, v) :: l' => (k +:+ " = " +:+ serializeValue v) :: each l'
                end) fields)
      +:+ " }"
  | JNull | JUndef => ""
  end.

(** [typeof value === 'object' && value !== null && !Array.isArray(value)] *)
Definition isTable (value : jsval num) : bool :=
  match value with
  | JObj _ => true
  | _ => false
  end.

(** [isLeafObject(obj)] *)
Definition isLeafObject (fields : list (string * jsval num)) : bool :=
  forallb (fun kv => negb (isTable (snd kv))) fields.

(** The loop of [serialize] over the keys of [scalars]. *)
Fixpoint scalarLines (fields : list (string * jsval num)) (toml : string) : string :=
  match fields with
  | [] => toml
  | (key, value) :: fields' =>
      if isTable value then scalarLines fields' toml
      else
        let val := serializeValue value in
        scalarLines fields'
          (if negb (String.eqb (trim val) "") then toml +:+ key +:+ " = " +:+ val +:+ lf
           else toml)
  end.

(** [serialize(obj, parentKey)]; the inner loop is the one over the keys of
    [objects]. *)
Fixpoint serialize (obj : jsval num) (parentKey : list string) {struct obj} : string :=
  match obj with
  | JObj fields =>
      (fix tables (l : list (string * jsval num)) (toml : string) : string :=
         match l with
         | [] => toml
         | (key, value) :: l' =>
             match value with
             | JObj sub =>
                 let fullKey := parentKey ++ [key] in
                 let toml := if negb (String.eqb toml "") then toml +:+ lf else toml in
                 let toml :=
                   if isLeafObject sub || (length parentKey =? 0)%nat
                   then toml +:+ "[" +:+ join "." fullKey +:+ "]" +:+ lf
                   else toml in
                 tables l' (toml +:+ serialize value fullKey)
             | _ => tables l' toml
             end
         end) fields (scalarLines fields "")
  | _ => ""
  end.

(** [stringify(toml)] *)
Definition stringify (toml : list (string * jsval num)) : string :=
  serialize (JObj toml) [].

End Functions.

End Toml.

(** ** What [stringify] leaves out *)

Section Pruning.
Context {rt : Runtime}.

Definition isNullish (value : jsval num) : bool :=
  match value with
  | JNull | JUndef => true
  | _ => false
  end.

(** A tree without the properties of its objects that are [null] or
    [undefined], at any depth of objects; arrays are left as they are. *)
Fixpoint prune (t : jsval num) : jsval num :=
  match t with
  | JObj fields =>
      JObj ((fix go (l : list (string * jsval num)) : list (string * jsval num) :=
               match l with
               | [] => []
               | (k, v) :: l' => if isNullish v then go l' else (k, prune v) :: go l'
               end) fields)
  | _ => t
  end.

Definition pruneFields (fields : list (string * jsval num)) : list (string * jsval num) :=
  match prune (JObj fields) with
  | JObj fields' => fields'
  | _ => []
  end.

Lemma pruneFields_nil : pruneFields [] = [].
Proof. reflexivity. Qed.

Lemma pruneFields_cons k v fields :
  pruneFields ((k, v) :: fields)
  = if isNullish v then pruneFields fields else (k, prune v) :: pruneFields fields.
Proof. unfold pruneFields. cbn [prune]. destruct (isNullish v); reflexivity. Qed.

Lemma prune_object fields : prune (JObj fields) = JObj (pruneFields fields).
Proof. reflexivity. Qed.

Lemma isTable_prune v : Toml.isTable (prune v) = Toml.isTable v.
Proof. destruct v; reflexivity. Qed.

Lemma isLeafObject_prune fields :
  Toml.isLeafObject (pruneFields fields) = Toml.isLeafObject fields.
Proof.
  induction fields as [|[k v] fields IH]; [reflexivity|].
  rewrite pruneFields_cons. unfold Toml.isLeafObject in *. cbn [forallb snd].
  destruct (isNullish v) eqn:Hn.
  - rewrite IH. destruct v; try discriminate Hn; reflexivity.
  - cbn [forallb snd]. rewrite isTable_prune, IH. reflexivity.
Qed.

Lemma scalarLines_prune fields : forall toml,
  Toml.scalarLines (pruneFields fields) toml = Toml.scalarLines fields toml.
Proof.
  induction fields as [|[k v] fields IH]; intros toml; [reflexivity|].
  rewrite pruneFields_cons. destruct (isNullish v) eqn:Hn.
  - rewrite IH. destruct v; try discriminate Hn; reflexivity.
  - cbn [Toml.scalarLines]. rewrite isTable_prune.
    destruct (Toml.isTable v) eqn:Ht; [apply IH|].
    destruct v; try discriminate Ht; try discriminate Hn; apply IH.
Qed.

(** X18. [stringify] writes nothing for a property that is [null] or
    [undefined]: an object and the same object without such properties, in
    it and in the objects under it, are written as the same text. So an object
    all of whose properties are [null] or [undefined] is written as the empty
    text. *)
Theorem stringify_leaves_out_null_and_undefined :
  (forall t parentKey, Toml.serialize (prune t) parentKey = Toml.serialize t parentKey)
  /\ (forall toml, Toml.stringify (pruneFields toml) = Toml.stringify toml)
  /\ (forall toml, forallb (fun kv => isNullish (snd kv)) toml = true ->
      Toml.stringify toml = "").
Proof.
  assert (H : forall t parentKey,
             Toml.serialize (prune t) parentKey = Toml.serialize t parentKey).
  { induction t as [| | | | |items IH|fields IH] using jsval_nested_ind; intros parentKey;
      try reflexivity.
    rewrite prune_object. cbn [Toml.serialize].
    rewrite scalarLines_prune.
    generalize (Toml.scalarLines fields "").
    induction IH as [|[k v] fields Hv Hfields IHl]; intros toml; [reflexivity|].
    rewrite pruneFields_cons. cbn [snd] in Hv.
    destruct (isNullish v) eqn:Hn.
    - rewrite IHl. destruct v; try discriminate Hn; reflexivity.
    - destruct v as [| |b|n|s|items|sub]; try discriminate Hn; try apply IHl.
      rewrite prune_object. rewrite isLeafObject_prune. rewrite IHl.
      rewrite <- prune_object, Hv. reflexivity. }
  split; [exact H|]. split.
  - intros toml. unfold Toml.stringify. rewrite <- prune_object. apply H.
  - intros toml Hall. unfold Toml.stringify. rewrite <- H.
    assert (E : pruneFields toml = []).
    { induction toml as [|[k v] toml IH]; [reflexivity|].
      cbn [forallb snd] in Hall. apply andb_prop in Hall as [Hv Hall].
      rewrite pruneFields_cons, Hv. apply IH. exact Hall. }
    rewrite prune_object, E. reflexivity.
Qed.

End Pruning.

(** ** The further properties at work *)

Lemma trimParens_strips_one_wrapping_pair_witness :
  trimParens (VStr "(a)(b)") = VStr "a)(b".
Proof.
  apply (proj1 (proj2 (trimParens_strips_one_wrapping_pair (rt := runtime))) (chars "a)(b")).
  reflexivity.
Defined.

Lemma trimQuotes_strips_one_matching_pair_witness :
  trimQuotes (VStr "'a b'") = VStr "a b"
  /\ trimQuotes (VStr "'a b") = VStr "'a b".
Proof.
  pose proof (trimQuotes_strips_one_matching_pair (rt := runtime)) as (_ & H2 & H3 & _).
  split.
  - apply (H2 "'"%char (chars "a b")); reflexivity.
  - apply (H3 "'"%char (chars "a ") "b"%char). reflexivity.
Defined.


Lemma evalLogical_and_chain_is_last_operand_witness :
  evalLogical 5 (instance (obj [])) "a equals b and c equals c"
  = lastOf (evalLogical 4 (instance (obj []))) false ["a equals b"; "c equals c"].
Proof.
  apply (proj2 (evalLogical_and_chain_is_last_operand (instance (obj [])) 4)).
  - reflexivity.
  - reflexivity.
  - simpl. lia.
  - repeat constructor.
Defined.

Lemma evalLogical_or_chain_short_circuits_witness :
  evalLogical 5 (instance (obj [])) "a equals a or b equals c"
  = firstTrue (evalLogical 4 (instance (obj []))) ["a equals a"; "b equals c"].
Proof.
  apply (proj2 (evalLogical_or_chain_short_circuits (instance (obj [])) 4)).
  - reflexivity.
  - reflexivity.
  - simpl. lia.
  - repeat constructor.
Defined.

Lemma evalLogical_not_negates_the_remainder_witness :
  evalLogical 6 (instance (obj [])) "not a equals b or a equals a"
  = obind (evalLogical 5 (instance (obj [])) "a equals b or a equals a")
          (fun b => Ret (negb b)).
Proof.
  apply (evalLogical_not_negates_the_remainder (instance (obj [])) 5
           "not a equals b or a equals a" (chars "a equals b or a equals a")).
  reflexivity.
Defined.

Lemma translateVariables_keeps_objects_and_copies_arrays_witness :
  translateVariables 1 (VRef 0) [] (instance referenceUnderObject)
  = (Ret (VRef 0), instance referenceUnderObject).
Proof.
  apply (proj1 (proj2 (translateVariables_keeps_objects_and_copies_arrays
                         0 [] (instance referenceUnderObject)))
           0%nat [("b", VStr "$x")]).
  reflexivity.
Defined.


Lemma reference_is_coerced_and_cached_witness :
  exists r this',
    translateVariables 3 (VStr "$HOME") [] (instance (obj [])) = (Ret r, this')
    /\ fst (parsePrimitiveValue (VStr "/root") (instance (obj []))) = Ret r
    /\ bank this' !! "HOME" = Some r
    /\ resolutions this' = ["HOME"].
Proof.
  apply (proj1 (reference_is_coerced_and_cached 0 "HOME" (instance (obj []))) "/root");
    reflexivity.
Defined.

Lemma evaluateIfElseLogic_else_if_drops_first_condition_witness :
  evaluateIfElseLogic 9 (instance (obj []))
    "if (a equals a) then (yes) else if (b equals c) then (no) else (maybe)"
  = evaluateIfElseLogic 8 (instance (obj [])) "if (b equals c) then (no) else (maybe)".
Proof.
  apply (evaluateIfElseLogic_else_if_drops_first_condition (instance (obj [])) 8
           "a"%char (chars " equals a") (chars "yes")
           (chars " (b equals c) then (no) else (maybe)")).
  - reflexivity.
  - repeat (apply balanced_char; [reflexivity|]). apply balanced_nil.
Defined.

Lemma ordering_compares_finite_numbers_witness :
  compareValues (rt := runtime) [] ">" (VStr "abc") (@VNum runtime (Int 1)) = false
  /\ compareValues (rt := runtime) [] "<=" (VStr "2") (@VNum runtime (Int 10))
     = compareValues (rt := runtime) [] ">=" (@VNum runtime (Int 10)) (VStr "2").
Proof.
  split.
  - apply (proj1 (ordering_compares_finite_numbers [] ">" (VStr "abc") (@VNum runtime (Int 1)) eq_refl)).
    reflexivity.
  - apply (proj2 (proj2 (ordering_compares_finite_numbers [] "<=" (VStr "2") (@VNum runtime (Int 10))
                            eq_refl))).
Defined.

Lemma tokenizeCondition_splits_between_blanks_only_witness :
  tokenizeCondition "brand=sand" = ["brand=sand"].
Proof.
  apply (proj1 (proj2 (tokenizeCondition_splits_between_blanks_only (rt := runtime)))).
  - reflexivity.
  - discriminate.
Defined.

Lemma convert_checks_strings_and_finiteness_witness :
  VersionManager.convert (VersionManager.VersionString "v2.10") = Ret "v2.10"
  /\ VersionManager.convert (VersionManager.VersionString "2.10")
     = Throw (VersionManager.invalidSyntax "2.10")
  /\ VersionManager.convert (rt := runtime) (@VersionManager.VersionNumber runtime (Int (-1)))
     = Ret "v-1".
Proof.
  pose proof (convert_checks_strings_and_finiteness (rt := runtime)) as (H1 & H2 & H3 & _).
  split; [|split].
  - apply (H1 (chars "2") (Some (chars "10")) None None). reflexivity.
  - apply (H2 "2.10"). reflexivity.
  - apply (H3 (Int (-1))). reflexivity.
Defined.

Lemma parse_reads_a_well_formed_version_witness :
  VersionManager.parse (rt := runtime) (VersionManager.VersionString "v1.2.3-beta")
  = Ret {| VersionManager.major := Int 1; VersionManager.minor := Int 2;
           VersionManager.patch := Int 3; VersionManager.label := Some "beta" |}
  /\ VersionManager.parse (rt := runtime) (VersionManager.VersionString "v7")
     = Ret {| VersionManager.major := Int 7; VersionManager.minor := Int 0;
              VersionManager.patch := Int 0; VersionManager.label := None |}.
Proof.
  split.
  - exact (parse_reads_a_well_formed_version (rt := runtime) (chars "1") (Some (chars "2"))
             (Some (chars "3")) (Some (chars "beta")) eq_refl eq_refl).
  - exact (parse_reads_a_well_formed_version (rt := runtime) (chars "7") None None None
             eq_refl eq_refl).
Defined.

Lemma stringify_leaves_out_null_and_undefined_witness :
  Toml.stringify [("a", JNull); ("b", JUndef)] = ""
  /\ Toml.stringify [("port", int 80); ("gone", JNull);
                     ("db", obj [("host", JStr "h"); ("pass", JUndef)])]
     = Toml.stringify [("port", int 80); ("db", obj [("host", JStr "h")])].
Proof.
  pose proof (stringify_leaves_out_null_and_undefined (rt := runtime)) as (_ & H2 & H3).
  split.
  - apply H3. reflexivity.
  - symmetry. apply (H2 [("port", int 80); ("gone", JNull);
                         ("db", obj [("host", JStr "h"); ("pass", JUndef)])]).
Defined.
